(** * mail-studio: the code editor, the send route and the MJML document core

    A shallow embedding of the parts of the repository that its
    specification makes promises about:

    - [LockedRegions]: [findLockedRegions] and [isRangeInLockedRegion] of
      the Monaco code editor, with the two regular expressions they run;
    - [CodeEditor]: the two sync paths of the editor component (the
      debounced auto-sync effect and [handleSync]) and the timer
      discipline of the effect;
    - [SendRoute]: the request validation of the email-sending POST
      handler;
    - [Mjml]: the document core (schema, node factory, serializer, parser,
      template cloning), whose implementation files are outside the
      checked-in sources and is therefore modelled from the specification.
    - [UseLockedRegions], [EditorGuards]: the guards against edits in
      locked regions (key handlers, [executeEdits], paste, warnings) of
      the hook and of the component;
    - [UIStore], [DragAndDrop], [SocialNode]: the UI store, the drag
      handlers of the editor shell and the icon size of the social block.

    JavaScript strings are modelled as [string] (sequences of one-byte
    characters), JavaScript numbers that hold line numbers, columns and
    milliseconds as [Z]. *)

From Stdlib Require Import ZArith Lia Bool Ascii String List.
From stdpp Require Import base option list gmap strings.

Local Open Scope Z_scope.

(** ** Characters and strings *)

Module Chars.

(** The double quote, which a string literal cannot hold here. *)
Definition dquote : ascii := "034"%char.
Definition squote : ascii := "039"%char.
Definition newline : ascii := "010"%char.

Definition codeOf (c : ascii) : nat := nat_of_ascii c.

Definition isUpper (c : ascii) : bool :=
  (65 <=? codeOf c)%nat && (codeOf c <=? 90)%nat.
Definition isLower (c : ascii) : bool :=
  (97 <=? codeOf c)%nat && (codeOf c <=? 122)%nat.
Definition isDigit (c : ascii) : bool :=
  (48 <=? codeOf c)%nat && (codeOf c <=? 57)%nat.

(** [\w] of a JavaScript regular expression (no unicode flag). *)
Definition isWord (c : ascii) : bool :=
  isUpper c || isLower c || isDigit c || Ascii.eqb c "_".

(** [[\w-]] *)
Definition isNameChar (c : ascii) : bool := isWord c || Ascii.eqb c "-".

(** [String.prototype.toLowerCase] on one-byte characters. *)
Definition toLower (c : ascii) : ascii :=
  if isUpper c then ascii_of_nat (codeOf c + 32) else c.

Definition lowerAll (l : list ascii) : list ascii := map toLower l.

(** Equality of characters under the [i] flag. *)
Definition eqbNoCase (a b : ascii) : bool := Ascii.eqb (toLower a) (toLower b).

Definition isSpace (c : ascii) : bool :=
  Ascii.eqb c " " || Ascii.eqb c newline || Ascii.eqb c "009" || Ascii.eqb c "013".

Definition chars (s : string) : list ascii := list_ascii_of_string s.
Definition text (l : list ascii) : string := string_of_list_ascii l.

(** [s.split(sep)] for a one-character separator: never the empty list. *)
Fixpoint splitOn (sep : ascii) (l : list ascii) : list (list ascii) :=
  match l with
  | [] => [[]]
  | c :: rest =>
      if Ascii.eqb c sep then [] :: splitOn sep rest
      else match splitOn sep rest with
           | [] => [[c]]
           | line :: lines => (c :: line) :: lines
           end
  end.

End Chars.

(** ** A backtracking matcher for the regular expressions of the editor

    The fragment the source uses: one character of a class, a greedy star
    over a class, sequence, ordered alternative and one capturing group.
    The matcher is the usual backtracking one (greedy quantifiers give
    back one character at a time, the left alternative is tried first),
    written in continuation-passing style; [exec] finds the leftmost match
    at or after an index, as [RegExp.prototype.exec] does. *)

Module Regex.
Import Chars.

Inductive re : Type :=
| Eps
| One (p : ascii -> bool)
| Star (p : ascii -> bool)
| Seq (a b : re)
| Alt (a b : re)
| Group (a : re).

Definition Plus (p : ascii -> bool) : re := Seq (One p) (Star p).

(** A literal under the [i] flag. *)
Fixpoint LitNoCase (l : list ascii) : re :=
  match l with
  | [] => Eps
  | c :: rest => Seq (One (eqbNoCase c)) (LitNoCase rest)
  end.

(** What a successful match reports: its length and the span of group 1,
    both counted from the start of the match. *)
Record found := { matchLen : nat; groupStart : nat; groupEnd : nat }.

Definition cont := list ascii -> nat -> option (nat * nat) -> option found.

(** Greedy star: take one more character if the class allows and the rest
    then matches, otherwise stop here. *)
Fixpoint star (p : ascii -> bool) (s : list ascii) (pos : nat)
    (cap : option (nat * nat)) (k : cont) : option found :=
  match s with
  | c :: s' =>
      if p c then
        match star p s' (S pos) cap k with
        | Some r => Some r
        | None => k s pos cap
        end
      else k s pos cap
  | [] => k s pos cap
  end.

Fixpoint run (r : re) (s : list ascii) (pos : nat)
    (cap : option (nat * nat)) (k : cont) : option found :=
  match r with
  | Eps => k s pos cap
  | One p =>
      match s with
      | c :: s' => if p c then k s' (S pos) cap else None
      | [] => None
      end
  | Star p => star p s pos cap k
  | Seq a b => run a s pos cap (fun s' pos' cap' => run b s' pos' cap' k)
  | Alt a b =>
      match run a s pos cap k with
      | Some f => Some f
      | None => run b s pos cap k
      end
  | Group a => run a s pos cap (fun s' pos' _ => k s' pos' (Some (pos, pos')))
  end.

(** The match anchored at the head of [s]. *)
Definition matchHere (r : re) (s : list ascii) : option found :=
  run r s 0%nat None
    (fun _ pos cap =>
       match cap with
       | Some (a, b) => Some {| matchLen := pos; groupStart := a; groupEnd := b |}
       | None => Some {| matchLen := pos; groupStart := 0; groupEnd := 0 |}
       end).

(** One result of [exec]: where the match starts in the subject, the
    matched text and the text of group 1. *)
Record execResult := { index : nat; whole : list ascii; group1 : list ascii }.

Definition slice (a b : nat) (s : list ascii) : list ascii :=
  take (b - a) (drop a s).

(** All matches of a [g]-flagged expression over a subject, in the order
    the [while ((match = re.exec(line)) !== null)] loop sees them: the
    search resumes where the previous match ended.  [skip] counts the
    characters of the current match still to step over. *)
Fixpoint execFrom (r : re) (s : list ascii) (i : nat) (skip : nat) : list execResult :=
  match skip with
  | S n =>
      match s with
      | _ :: s' => execFrom r s' (S i) n
      | [] => []
      end
  | O =>
      match matchHere r s with
      | Some f =>
          {| index := i;
             whole := take (matchLen f) s;
             group1 := slice (groupStart f) (groupEnd f) s |}
          :: match s with
             | _ :: s' => execFrom r s' (S i) (Nat.pred (matchLen f))
             | [] => []
             end
      | None =>
          match s with
          | _ :: s' => execFrom r s' (S i) 0
          | [] => []
          end
      end
  end.

Definition execAll (r : re) (s : list ascii) : list execResult := execFrom r s 0 0.

End Regex.

(** ** Locked regions of the code editor *)

Module IRange.
(** Monaco's [IRange]: 1-based lines and columns. *)
Record t := mk {
  startLineNumber : Z;
  startColumn : Z;
  endLineNumber : Z;
  endColumn : Z
}.
End IRange.

Module LockedRegions.
Import Chars Regex.

Record LockedRegion := mkRegion {
  startLine : Z;
  endLine : Z;
  startColumn : Z;
  endColumn : Z
}.

(** An entry of [lockedStack]. *)
Record OpenTag := mkOpen {
  tagName : list ascii;
  openLine : Z;
  openColumn : Z
}.

(** [data-locked="true"] *)
Definition lockedAttr : list ascii :=
  chars "data-locked=" ++ [dquote] ++ chars "true" ++ [dquote].

Definition notGt (c : ascii) : bool := negb (Ascii.eqb c ">").

(** [(mj-[\w-]+|[\w-]+)] *)
Definition tagNameGroup : re :=
  Group (Alt (Seq (LitNoCase (chars "mj-")) (Plus isNameChar)) (Plus isNameChar)).

(** [/<(mj-[\w-]+|[\w-]+)[^>]*data-locked="true"[^>]*>/gi] *)
Definition openTagRegex : re :=
  Seq (One (Ascii.eqb "<"))
   (Seq tagNameGroup
    (Seq (Star notGt)
     (Seq (LitNoCase lockedAttr)
      (Seq (Star notGt) (One (Ascii.eqb ">")))))).

(** [/<\/(mj-[\w-]+|[\w-]+)>/gi] *)
Definition closingTagRegex : re :=
  Seq (One (Ascii.eqb "<"))
   (Seq (One (Ascii.eqb "/"))
    (Seq tagNameGroup (One (Ascii.eqb ">")))).

(** [match[0].endsWith("/>")] *)
Definition endsWithSelfClose (m : list ascii) : bool :=
  match rev m with
  | gt :: sl :: _ => Ascii.eqb gt ">" && Ascii.eqb sl "/"
  | _ => false
  end.

(** The first loop of a line: every locked opening tag either records a
    one-line region (self-closing) or is pushed on the stack.  The stack
    is kept in the order of the JavaScript array: index 0 first, the top
    last. *)
Fixpoint openTags (lineNumber : Z) (ms : list execResult)
    (stack : list OpenTag) (regions : list LockedRegion)
  : list OpenTag * list LockedRegion :=
  match ms with
  | [] => (stack, regions)
  | m :: rest =>
      if endsWithSelfClose (whole m) then
        openTags lineNumber rest stack
          (regions ++ [ {| startLine := lineNumber;
                           endLine := lineNumber;
                           startColumn := Z.of_nat (index m) + 1;
                           endColumn := Z.of_nat (index m) + Z.of_nat (length (whole m)) + 1 |} ])
      else
        openTags lineNumber rest
          (stack ++ [ {| tagName := lowerAll (group1 m);
                         openLine := lineNumber;
                         openColumn := Z.of_nat (index m) + 1 |} ])
          regions
  end.

Definition sameName (a b : list ascii) : bool := bool_decide (a = b).

(** The inner [for (let j = lockedStack.length - 1; j >= 0; j--)] loop with
    its [splice(j, 1)] and [break]: the entry nearest to the top whose name
    is [closingTagName] is taken out, the rest of the stack stays as it
    is.  [None] when no entry has that name. *)
Fixpoint spliceTopmost (closingTagName : list ascii) (stack : list OpenTag)
  : option (OpenTag * list OpenTag) :=
  match stack with
  | [] => None
  | e :: above =>
      match spliceTopmost closingTagName above with
      | Some (openTag, above') => Some (openTag, e :: above')
      | None =>
          if sameName (tagName e) closingTagName then Some (e, above) else None
      end
  end.

(** The region a closed entry records. *)
Definition closedRegion (lineNumber : Z) (lineLength : nat) (openTag : OpenTag)
  : LockedRegion :=
  {| startLine := openLine openTag;
     endLine := lineNumber;
     startColumn := 1;
     endColumn := Z.of_nat lineLength + 1 |}.

(** One closing tag met on a line. *)
Definition closeTag (lineNumber : Z) (lineLength : nat) (closingTagName : list ascii)
    (stack : list OpenTag) (regions : list LockedRegion)
  : list OpenTag * list LockedRegion :=
  match spliceTopmost closingTagName stack with
  | Some (openTag, stack') =>
      (stack', regions ++ [closedRegion lineNumber lineLength openTag])
  | None => (stack, regions)
  end.

Fixpoint closeTags (lineNumber : Z) (lineLength : nat) (ms : list execResult)
    (stack : list OpenTag) (regions : list LockedRegion)
  : list OpenTag * list LockedRegion :=
  match ms with
  | [] => (stack, regions)
  | m :: rest =>
      let '(stack', regions') :=
        closeTag lineNumber lineLength (lowerAll (group1 m)) stack regions in
      closeTags lineNumber lineLength rest stack' regions'
  end.

(** The body of the loop over the lines. *)
Definition scanLine (lineNumber : Z) (line : list ascii)
    (stack : list OpenTag) (regions : list LockedRegion)
  : list OpenTag * list LockedRegion :=
  let '(stack1, regions1) :=
    openTags lineNumber (execAll openTagRegex line) stack regions in
  match stack1 with
  | [] => (stack1, regions1)
  | _ :: _ =>
      closeTags lineNumber (length line) (execAll closingTagRegex line) stack1 regions1
  end.

Fixpoint scanLines (i : nat) (lines : list (list ascii))
    (stack : list OpenTag) (regions : list LockedRegion) : list LockedRegion :=
  match lines with
  | [] => regions
  | line :: rest =>
      let '(stack', regions') := scanLine (Z.of_nat i + 1) line stack regions in
      scanLines (S i) rest stack' regions'
  end.

Definition findLockedRegions (code : string) : list LockedRegion :=
  scanLines 0 (splitOn newline (chars code)) [] [].

(** [isRangeInLockedRegion]: the test of one region, then the loop. *)
Definition overlaps (range : IRange.t) (region : LockedRegion) : bool :=
  let rangeStartsBeforeRegionEnds :=
    (IRange.startLineNumber range <? endLine region)
    || ((IRange.startLineNumber range =? endLine region)
        && (IRange.startColumn range <=? endColumn region)) in
  let rangeEndsAfterRegionStarts :=
    (IRange.endLineNumber range >? startLine region)
    || ((IRange.endLineNumber range =? startLine region)
        && (IRange.endColumn range >=? startColumn region)) in
  rangeStartsBeforeRegionEnds && rangeEndsAfterRegionStarts.

Fixpoint isRangeInLockedRegion (range : IRange.t) (lockedRegions : list LockedRegion)
  : bool :=
  match lockedRegions with
  | [] => false
  | region :: rest =>
      if overlaps range region then true else isRangeInLockedRegion range rest
  end.

(** *** The nesting-stack policy in the words of the specification

    "When a closing tag doesn't match the top of the open-tag stack, search
    downward in the stack for a match; if found, close all intervening
    entries; if not found, ignore the stray closing tag."  Closing an entry
    of the locked stack records its region.  [closeNested] is that policy
    on the same stack; [findLockedRegionsNested] is [findLockedRegions]
    with it in place of [closeTag]. *)

(** The stack cut at the topmost entry named [closingTagName]: what stays
    below it, and the entries closed (the match first, then those above). *)
Fixpoint cutAtTopmost (closingTagName : list ascii) (stack : list OpenTag)
  : option (list OpenTag * list OpenTag) :=
  match stack with
  | [] => None
  | e :: above =>
      match cutAtTopmost closingTagName above with
      | Some (below, closed) => Some (e :: below, closed)
      | None =>
          if sameName (tagName e) closingTagName then Some ([], e :: above) else None
      end
  end.

Definition closeNested (lineNumber : Z) (lineLength : nat) (closingTagName : list ascii)
    (stack : list OpenTag) (regions : list LockedRegion)
  : list OpenTag * list LockedRegion :=
  match cutAtTopmost closingTagName stack with
  | Some (below, closed) =>
      (below, regions ++ map (closedRegion lineNumber lineLength) (rev closed))
  | None => (stack, regions)
  end.

Fixpoint closeTagsNested (lineNumber : Z) (lineLength : nat) (ms : list execResult)
    (stack : list OpenTag) (regions : list LockedRegion)
  : list OpenTag * list LockedRegion :=
  match ms with
  | [] => (stack, regions)
  | m :: rest =>
      let '(stack', regions') :=
        closeNested lineNumber lineLength (lowerAll (group1 m)) stack regions in
      closeTagsNested lineNumber lineLength rest stack' regions'
  end.

Definition scanLineNested (lineNumber : Z) (line : list ascii)
    (stack : list OpenTag) (regions : list LockedRegion)
  : list OpenTag * list LockedRegion :=
  let '(stack1, regions1) :=
    openTags lineNumber (execAll openTagRegex line) stack regions in
  match stack1 with
  | [] => (stack1, regions1)
  | _ :: _ =>
      closeTagsNested lineNumber (length line) (execAll closingTagRegex line)
        stack1 regions1
  end.

Fixpoint scanLinesNested (i : nat) (lines : list (list ascii))
    (stack : list OpenTag) (regions : list LockedRegion) : list LockedRegion :=
  match lines with
  | [] => regions
  | line :: rest =>
      let '(stack', regions') := scanLineNested (Z.of_nat i + 1) line stack regions in
      scanLinesNested (S i) rest stack' regions'
  end.

Definition findLockedRegionsNested (code : string) : list LockedRegion :=
  scanLinesNested 0 (splitOn newline (chars code)) [] [].

(** Sample sources. *)
Definition q : string := String dquote EmptyString.
Definition nl : string := String newline EmptyString.

(** A locked section whose closing tag comes before the closing tag of the
    locked text inside it. *)
Definition crossedSample : string :=
  "<mj-section data-locked=" +:+ q +:+ "true" +:+ q +:+ ">" +:+ nl +:+
  "<mj-text data-locked=" +:+ q +:+ "true" +:+ q +:+ ">Hi" +:+ nl +:+
  "</mj-section>" +:+ nl +:+
  "</mj-text>".

Definition nestedSample : string :=
  "<mj-section data-locked=" +:+ q +:+ "true" +:+ q +:+ ">" +:+ nl +:+
  "  <mj-image src=" +:+ q +:+ "a.png" +:+ q +:+ " DATA-LOCKED=" +:+ q +:+ "True" +:+ q +:+ " />" +:+ nl +:+
  "  <mj-text data-locked=" +:+ q +:+ "true" +:+ q +:+ ">Hi</mj-text>" +:+ nl +:+
  "</MJ-Section>".

(** ** Where a range stands with respect to a region *)

(** A position (line, column) is at or before another one. *)
Definition atOrBefore (l1 c1 l2 c2 : Z) : Prop := l1 < l2 \/ (l1 = l2 /\ c1 <= c2).

(** A position lies in a region: between its start and its end. *)
Definition positionIn (line column : Z) (region : LockedRegion) : Prop :=
  atOrBefore (startLine region) (startColumn region) line column
  /\ atOrBefore line column (endLine region) (endColumn region).

(** The range lies entirely within the region: both of its ends do. *)
Definition within (range : IRange.t) (region : LockedRegion) : Prop :=
  positionIn (IRange.startLineNumber range) (IRange.startColumn range) region
  /\ positionIn (IRange.endLineNumber range) (IRange.endColumn range) region.

(** The lines of the range are strictly before the region starts, or
    strictly after it ends. *)
Definition linesBefore (range : IRange.t) (region : LockedRegion) : Prop :=
  IRange.startLineNumber range < startLine region
  /\ IRange.endLineNumber range < startLine region.

Definition linesAfter (range : IRange.t) (region : LockedRegion) : Prop :=
  endLine region < IRange.startLineNumber range
  /\ endLine region < IRange.endLineNumber range.

(** A sample: one region over lines 2 to 5. *)
Definition sampleRegions : list LockedRegion := [mkRegion 2 5 1 10].

End LockedRegions.

(** ** The code editor component: state, sync paths and the auto-sync timer

    [CodeEditor] keeps [editedCode] and [error] with [useState], reads
    [document] and [headSettings] from the store and writes the store with
    [setDocument].  The parser and the serializer are imported from the
    MJML core; the component is modelled over any pair of them.  A call of
    the parser either throws an [Error] with a message, returns [null], or
    returns a node.

    React's part is modelled as far as the component relies on it: an
    effect runs again, after the cleanup of its previous run, exactly when
    one of its dependencies changed; setting a state to the value it has
    changes nothing.  Time is a millisecond count; a timeout fires once
    its delay has passed, before any later event is handled. *)

Module CodeEditor.

Section Component.

Context {EditorNode HeadSettings : Type}.

Inductive ParseOutcome : Type :=
| Threw (message : string)
| ReturnedNull
| Returned (node : EditorNode).

Variable parseMjmlToNode : string -> ParseOutcome.
Variable generateMjml : EditorNode -> HeadSettings -> string.

(** What the component does to the outside and to its own state, in the
    order it does it. *)
Inductive Call : Type :=
| ParseMjmlToNode (time : Z) (source : string)
| SetDocument (node : EditorNode)
| SetEditedCode (value : option string)
| SetError (value : option string).

Record Component := mkComponent {
  document : EditorNode;
  headSettings : HeadSettings;
  editedCode : option string;
  error : option string;
  (** the pending timeout of the auto-sync effect: when it is due and the
      [code] its callback closed over *)
  timer : option (Z * string);
  calls : list Call
}.

(** [const code = editedCode ?? generatedMjml] *)
Definition code (c : Component) : string :=
  match editedCode c with
  | Some edited => edited
  | None => generateMjml (document c) (headSettings c)
  end.

(** [const isDirty = editedCode !== null] *)
Definition isDirty (c : Component) : bool :=
  match editedCode c with Some _ => true | None => false end.

Definition perform (c : Component) (call : Call) : Component :=
  match call with
  | ParseMjmlToNode _ _ =>
      mkComponent (document c) (headSettings c) (editedCode c) (error c) (timer c)
        (calls c ++ [call])
  | SetDocument node =>
      mkComponent node (headSettings c) (editedCode c) (error c) (timer c)
        (calls c ++ [call])
  | SetEditedCode value =>
      mkComponent (document c) (headSettings c) value (error c) (timer c)
        (calls c ++ [call])
  | SetError value =>
      mkComponent (document c) (headSettings c) (editedCode c) value (timer c)
        (calls c ++ [call])
  end.

Definition performAll (c : Component) (cs : list Call) : Component :=
  fold_left perform cs c.

Definition withTimer (c : Component) (t : option (Z * string)) : Component :=
  mkComponent (document c) (headSettings c) (editedCode c) (error c) t (calls c).

(** The dependencies of the auto-sync effect that can change: [code] and
    [isDirty] ([setDocument] is a stable store function). *)
Definition deps (c : Component) : string * bool := (code c, isDirty c).

(** The body of the effect, run at time [now]:
    [if (!isDirty) return; const timer = setTimeout(..., 500);] *)
Definition runEffect (now : Z) (c : Component) : Component :=
  if isDirty c then withTimer c (Some (now + 500, code c)) else withTimer c None.

(** After state changes made at time [now]: when a dependency changed, the
    cleanup [clearTimeout(timer)] and the effect body run; otherwise the
    effect of the earlier render stays as it is. *)
Definition commit (now : Z) (before after : Component) : Component :=
  if bool_decide (deps before = deps after) then after
  else runEffect now (withTimer after None).

(** The body of the timeout callback of the auto-sync effect, on the
    [code] it closed over. *)
Definition autoSyncCalls (now : Z) (source : string) : list Call :=
  ParseMjmlToNode now source ::
  match parseMjmlToNode source with
  | Returned node => [SetDocument node; SetError None]
  | ReturnedNull => []
  | Threw message => [SetError (Some message)]
  end.

(** The timeout fires: it is no longer pending, its callback runs. *)
Definition fire (now : Z) (source : string) (c : Component) : Component :=
  let c0 := withTimer c None in
  commit now c0 (performAll c0 (autoSyncCalls now source)).

(** Time passes to [now]: a timeout that is due fires, at its due time. *)
Definition advance (now : Z) (c : Component) : Component :=
  match timer c with
  | Some (due, source) => if due <=? now then fire due source c else c
  | None => c
  end.

(** [handleChange]: [if (value !== undefined) { setEditedCode(value);
    setError(null); }] *)
Definition handleChange (now : Z) (value : option string) (c : Component) : Component :=
  match value with
  | Some v => commit now c (performAll c [SetEditedCode (Some v); SetError None])
  | None => c
  end.

Definition handleSyncCalls (now : Z) (source : string) : list Call :=
  ParseMjmlToNode now source ::
  match parseMjmlToNode source with
  | Returned node => [SetDocument node; SetEditedCode None; SetError None]
  | ReturnedNull => [SetError (Some "Failed to parse MJML. Please check the syntax.")]
  | Threw message => [SetError (Some message)]
  end.

(** [handleSync], the "Apply Changes" button. *)
Definition handleSync (now : Z) (c : Component) : Component :=
  commit now c (performAll c (handleSyncCalls now (code c))).

(** [handleReset] *)
Definition handleReset (now : Z) (c : Component) : Component :=
  commit now c (performAll c [SetEditedCode None; SetError None]).

(** The component as mounted: nothing edited, no error, and the effect has
    returned early. *)
Definition mount (doc : EditorNode) (head : HeadSettings) : Component :=
  mkComponent doc head None None None [].

(** A keystroke in the editor: Monaco reports the new text at time [at]. *)
Record Keystroke := mkKey { at_ : Z; typed : string }.

(** The editor handles the keystrokes in order; before each, time passes
    to the moment of the keystroke. *)
Fixpoint typing (keys : list Keystroke) (c : Component) : Component :=
  match keys with
  | [] => c
  | k :: rest => typing rest (handleChange (at_ k) (Some (typed k)) (advance (at_ k) c))
  end.

(** The parser calls of a log, with their times. *)
Fixpoint parseCalls (cs : list Call) : list (Z * string) :=
  match cs with
  | [] => []
  | ParseMjmlToNode t s :: rest => (t, s) :: parseCalls rest
  | _ :: rest => parseCalls rest
  end.

Definition isSetDocument (call : Call) : bool :=
  match call with SetDocument _ => true | _ => false end.

(** The keystrokes followed by a pause: no later keystroke within 500 ms
    (for the last one: none before [until]). *)
Fixpoint pauses (keys : list Keystroke) (until : Z) : list Keystroke :=
  match keys with
  | [] => []
  | k :: rest =>
      let next := match rest with k' :: _ => at_ k' | [] => until end in
      if at_ k + 500 <=? next then k :: pauses rest until else pauses rest until
  end.

(** Each keystroke changes the text. *)
Fixpoint eachChanges (current : option string) (keys : list Keystroke) : Prop :=
  match keys with
  | [] => True
  | k :: rest => current <> Some (typed k) /\ eachChanges (Some (typed k)) rest
  end.

End Component.

Arguments ParseOutcome : clear implicits.
Arguments Call : clear implicits.
Arguments Component : clear implicits.

(** Keystrokes in one burst: each comes before the delay after the one
    before it has run out. *)
Fixpoint burst (keys : list Keystroke) : Prop :=
  match keys with
  | k :: (k' :: _) as rest => at_ k' < at_ k + 500 /\ burst rest
  | _ => True
  end.

(** A sample run: a parser that rejects one text, and five keystrokes in
    two bursts. *)
Definition sampleParser (source : string) : ParseOutcome nat :=
  if bool_decide (source = "<mj-text"%string) then Threw "unterminated tag"
  else Returned (String.length source).

Definition sampleSerializer (node : nat) (head : unit) : string := "<mjml></mjml>".

Definition sampleKeys : list Keystroke :=
  [mkKey 0 "<"; mkKey 120 "<m"; mkKey 260 "<mj"; mkKey 900 "<mj-"; mkKey 1000 "<mj-t"].

(** Edits that report the text the editor already holds (the same text
    typed over a selection): two of them 400 ms apart, and four edits in
    one burst of which the second and the fourth change nothing. *)
Definition repeatedKeys : list Keystroke := [mkKey 0 "<mj"; mkKey 400 "<mj"].

Definition repeatedBurst : list Keystroke :=
  [mkKey 0 "<mj"; mkKey 400 "<mj"; mkKey 800 "<mj-"; mkKey 1200 "<mj-"].

(** The editor after one edit of a freshly mounted component. *)
Definition sampleEditor (source : string) : Component nat unit :=
  handleChange sampleSerializer 0 (Some source) (mount 7%nat tt).

End CodeEditor.

(** ** The email-sending POST route

    The handler reads the JSON body of the request, validates it, and
    sends through Resend or through a nodemailer transport.  The body is
    [null] or the object the handler's type annotation names
    ([SendEmailRequest]); a field that is absent, [undefined] or [null]
    is [None].  What the mail services answer is given by [World]; every
    call the handler makes to them is recorded, in order. *)

Module SendRoute.
Import Chars.

Record Email := mkEmail {
  from : option string;
  to : option string;
  subject : option string;
  html : option string;
  text : option string
}.

Record Auth := mkAuth { user : option string; pass : option string }.

Record Smtp := mkSmtp {
  host : option string;
  port : Z;
  secure : bool;
  auth : option Auth
}.

Record SendEmailRequest := mkRequest {
  mode : option string;
  resendApiKey : option string;
  smtp : option Smtp;
  email : option Email
}.

(** [request.json()] either rejects or yields the JSON value of the
    body.  The value [null] has no properties: reading [body.email] of it
    throws a [TypeError] (the [?.] of [body.email?.to] guards [email], not
    [body]).  Every other value is read through the fields of
    [SendEmailRequest]; a value that is no object (a number, a string, a
    boolean, an array) has none of them and is the body with every field
    absent. *)
Inductive RequestJson : Type :=
| JsonRejects (message : option string)
| JsonNull
| JsonBody (body : SendEmailRequest).

(** [!x] for a string that may be missing: missing and empty are falsy. *)
Definition falsy (x : option string) : bool :=
  match x with
  | None => true
  | Some s => bool_decide (s = ""%string)
  end.

(** [x || fallback] *)
Definition orElse (x : option string) (fallback : string) : string :=
  match x with
  | Some s => if bool_decide (s = ""%string) then fallback else s
  | None => fallback
  end.

(** [x || undefined] *)
Definition orUndefined (x : option string) : option string :=
  if falsy x then None else x.

(** [body.email?.to] and the like. *)
Definition emailField (f : Email -> option string) (body : SendEmailRequest)
  : option string :=
  match email body with Some e => f e | None => None end.

Definition smtpAuthField (f : Auth -> option string) (body : SendEmailRequest)
  : option string :=
  match smtp body with
  | Some s => match auth s with Some a => f a | None => None end
  | None => None
  end.

Record Message := mkMessage {
  msgFrom : string;
  msgTo : string;
  msgSubject : string;
  msgHtml : string;
  msgText : option string
}.

Record Transport := mkTransport {
  trHost : string;
  trPort : Z;
  trSecure : bool;
  trUser : string;
  trPass : string
}.

(** The calls to the mail services. *)
Inductive Effect : Type :=
| ResendEmailsSend (apiKey : string) (message : Message)
| CreateTestAccount
| CreateTransport (transport : Transport)
| SendMail (transport : Transport) (message : Message).

Definition isSend (e : Effect) : bool :=
  match e with
  | ResendEmailsSend _ _ | SendMail _ _ => true
  | _ => false
  end.

(** An awaited call: it throws (an [Error] with a message, or something
    else) or it yields a value. *)
Inductive Awaited (A : Type) : Type :=
| Throws (message : option string)
| Yields (value : A).
Arguments Throws {A} message.
Arguments Yields {A} value.

Record ResendAnswer := mkResendAnswer {
  resendError : option string;     (** [error?.message] *)
  resendId : option string         (** [data?.id] *)
}.

Record TestAccount := mkTestAccount { accountUser : string; accountPass : string }.

Record SentInfo := mkSentInfo {
  messageId : string;
  response : string;
  testMessageUrl : option string   (** [nodemailer.getTestMessageUrl(info)], [false] as [None] *)
}.

(** What the handler runs in: the answers of the mail services, and the
    message the JavaScript engine gives the [TypeError] it throws when a
    property of [null] is read. *)
Record World := mkWorld {
  resendEmailsSend : string -> Message -> Awaited ResendAnswer;
  createTestAccount : Awaited TestAccount;
  sendMail : Transport -> Message -> Awaited SentInfo;
  typeErrorOfNull : string
}.

Inductive Payload : Type :=
| ErrorPayload (error : string)
| ResendSent (messageId : option string)
| MailSent (messageId response : string) (previewUrl : option string)
    (mode : option string) (realDelivery : bool).

Record Response := mkResponse { status : Z; payload : Payload }.

(** The [catch] block. *)
Definition caught (message : option string) : Response :=
  mkResponse 500 (ErrorPayload (match message with
                                | Some m => m
                                | None => "Failed to send email"%string
                                end)).

Definition get (x : option string) : string := default ""%string x.

Section Handler.

Variable world : World.

Definition sendWithResend (body : SendEmailRequest) : Response * list Effect :=
  if falsy (resendApiKey body) then
    (mkResponse 400 (ErrorPayload "Missing Resend API Key"), [])
  else
    let key := get (resendApiKey body) in
    let fromAddress := orElse (emailField from body) "Mail Studio <onboarding@resend.dev>" in
    let message :=
      mkMessage fromAddress (get (emailField to body)) (get (emailField subject body))
        (get (emailField html body)) (orUndefined (emailField text body)) in
    let log := [ResendEmailsSend key message] in
    match resendEmailsSend world key message with
    | Throws m => (caught m, log)
    | Yields answer =>
        match resendError answer with
        | Some m => (mkResponse 400 (ErrorPayload m), log)
        | None => (mkResponse 200 (ResendSent (resendId answer)), log)
        end
    end.

Definition sendWith (body : SendEmailRequest) (transport : Transport)
    (fromAddress : string) (log : list Effect) : Response * list Effect :=
  let message :=
    mkMessage fromAddress (get (emailField to body)) (get (emailField subject body))
      (get (emailField html body)) (Some (orElse (emailField text body) "")) in
  let log' := log ++ [SendMail transport message] in
  match sendMail world transport message with
  | Throws m => (caught m, log')
  | Yields info =>
      let previewUrl :=
        if bool_decide (mode body = Some "test"%string) then testMessageUrl info else None in
      (mkResponse 200
         (MailSent (messageId info) (response info) previewUrl (mode body)
            (bool_decide (mode body = Some "smtp"%string))),
       log')
  end.

Definition sendWithNodemailer (body : SendEmailRequest) : Response * list Effect :=
  if bool_decide (mode body = Some "test"%string) then
    match createTestAccount world with
    | Throws m => (caught m, [CreateTestAccount])
    | Yields account =>
        let transport :=
          mkTransport "smtp.ethereal.email" 587 false (accountUser account)
            (accountPass account) in
        let fromAddress :=
          (String dquote "Mail Studio Test" +:+ String dquote " <"
           +:+ accountUser account +:+ ">")%string in
        sendWith body transport fromAddress [CreateTestAccount; CreateTransport transport]
    end
  else
    match smtp body with
    | None => (mkResponse 400 (ErrorPayload "Missing SMTP configuration"), [])
    | Some s =>
        if falsy (host s) || falsy (smtpAuthField user body)
           || falsy (smtpAuthField pass body) then
          (mkResponse 400 (ErrorPayload "Missing SMTP configuration"), [])
        else if falsy (emailField from body) then
          (mkResponse 400 (ErrorPayload "Missing sender email address"), [])
        else
          let transport :=
            mkTransport (get (host s)) (port s) (secure s)
              (get (smtpAuthField user body)) (get (smtpAuthField pass body)) in
          sendWith body transport (get (emailField from body)) [CreateTransport transport]
    end.

Definition handle (body : SendEmailRequest) : Response * list Effect :=
  if falsy (emailField to body) || falsy (emailField subject body)
     || falsy (emailField html body) then
    (mkResponse 400 (ErrorPayload "Missing email content (to, subject, html)"), [])
  else if bool_decide (mode body = Some "resend"%string) then sendWithResend body
  else sendWithNodemailer body.

(** The [try] block and its [catch]: an error thrown by
    [request.json()] or by reading [body.email] of [null] is caught before
    any call to a mail service. *)
Definition POST (request : RequestJson) : Response * list Effect :=
  match request with
  | JsonRejects m => (caught m, [])
  | JsonNull => (caught (Some (typeErrorOfNull world)), [])
  | JsonBody body => handle body
  end.

End Handler.

(** The request lacks part of the email content. *)
Definition lacksContent (body : SendEmailRequest) : Prop :=
  falsy (emailField to body) = true
  \/ falsy (emailField subject body) = true
  \/ falsy (emailField html body) = true.

(** The JSON value of the body has no [email.to], [email.subject] or
    [email.html]: it is [null], or one of the three is missing or empty. *)
Definition incomplete (request : RequestJson) : Prop :=
  match request with
  | JsonRejects _ => False
  | JsonNull => True
  | JsonBody body => lacksContent body
  end.

(** Sample requests: a Resend request with or without a recipient and
    a key, and mail services that accept everything, on an engine with
    the wording of V8. *)
Definition sampleWorld : World :=
  mkWorld (fun _ _ => Yields (mkResendAnswer None (Some "id-1"%string)))
    (Yields (mkTestAccount "user" "pass"))
    (fun _ _ => Yields (mkSentInfo "id-2" "250 OK" None))
    "Cannot read properties of null (reading 'email')".

Definition sampleRequest (recipient key : option string) : SendEmailRequest :=
  mkRequest (Some "resend"%string) key None
    (Some (mkEmail None recipient (Some "Hello"%string) (Some "<p>Hi</p>"%string) None)).

End SendRoute.

(** ** The MJML document core

    The editor imports the schema, the node factory, the serializer, the
    parser and the templates from [@/features/editor/lib/mjml]; only the
    list of its exports is part of the checked-in sources.  The
    definitions of this module are therefore written from the
    specification, each one under the sentence it follows; where the
    specification leaves a choice open the model takes a parameter
    ([Misplaced]) or names the choice it makes. *)

Module Mjml.
Import Chars.

(** *** Nodes *)

(** Modelled from the spec: the [Node] of the data model (the type
    [EditorNode] of the missing [types] file).  "[id]: process-unique
    identifier; [type]: a tag drawn from a closed set of component kinds;
    [props]: mapping from attribute name (string) to attribute value
    (string), each key unique; [children]: ordered sequence of child
    Nodes, empty/absent for leaf types; [content]: optional raw text/HTML
    payload."  The node is generic in its identifiers, so that a tree
    "modulo node identifiers" is the same tree with [unit] for them. *)
#[local] Unset Elimination Schemes.
Inductive Node (Id : Type) : Type :=
| mkNode (id : Id) (type : string) (props : gmap string string)
    (children : list (Node Id)) (content : option string).
#[local] Set Elimination Schemes.
Arguments mkNode {Id} id type props children content.

Definition id {Id} (n : Node Id) : Id := match n with mkNode i _ _ _ _ => i end.
Definition type {Id} (n : Node Id) : string := match n with mkNode _ t _ _ _ => t end.
Definition props {Id} (n : Node Id) : gmap string string :=
  match n with mkNode _ _ p _ _ => p end.
Definition children {Id} (n : Node Id) : list (Node Id) :=
  match n with mkNode _ _ _ cs _ => cs end.
Definition content {Id} (n : Node Id) : option string :=
  match n with mkNode _ _ _ _ c => c end.

(** The nodes of the running editor: the identifier is the number of the
    [generateId] call that made it. *)
Abbreviation EditorNode := (Node nat).

(** A tree without its identifiers. *)
Abbreviation Shape := (Node unit).

(** The structure of a tree: types, attribute values, child order and
    content, the identifiers forgotten. *)
Fixpoint shape {Id} (n : Node Id) : Shape :=
  match n with
  | mkNode _ t p cs c => mkNode tt t p (map shape cs) c
  end.

(** The identifiers of a tree, the root first. *)
Fixpoint ids {Id} (n : Node Id) : list Id :=
  match n with
  | mkNode i _ _ cs _ => i :: flat_map ids cs
  end.

(** The number of nodes of a tree. *)
Fixpoint size {Id} (n : Node Id) : nat :=
  match n with
  | mkNode _ _ _ cs _ => S (list_sum (map size cs))
  end.

Definition sizes {Id} (cs : list (Node Id)) : nat := list_sum (map size cs).

(** *** Identifier generation *)

(** Modelled from the spec: [generateId] of the missing [schema] file.
    "Produces a value guaranteed unique within process lifetime (e.g.,
    monotonic counter or random token)": the model is the monotonic
    counter.  A computation that generates identifiers takes the counter
    and returns it advanced. *)
Definition Gen (A : Type) : Type := nat -> A * nat.

Definition generateId : Gen nat := fun counter => (counter, S counter).

#[global] Instance Gen_ret : MRet Gen := fun A (a : A) counter => (a, counter).
#[global] Instance Gen_bind : MBind Gen :=
  fun A B (f : A -> Gen B) (m : Gen A) counter =>
    let '(a, counter') := m counter in f a counter'.

Definition genMap {A B} (f : A -> Gen B) : list A -> Gen (list B) :=
  fix go (l : list A) : Gen (list B) :=
    match l with
    | [] => mret []
    | a :: rest => b ← f a; bs ← go rest; mret (b :: bs)
    end.

(** Every node of a tree gets a newly generated identifier, the root
    first, nothing else changes. *)
Fixpoint relabel {Id} (n : Node Id) : Gen EditorNode :=
  match n with
  | mkNode _ t p cs c =>
      i ← generateId;
      cs' ← genMap relabel cs;
      mret (mkNode i t p cs' c)
  end.

(** Modelled from the spec: [cloneDocumentWithNewIds] of the missing
    [templates] file.  "Deep-copies a tree, assigning every node (root and
    all descendants) a freshly generated [id]; attributes, content, and
    child order are preserved exactly." *)
Definition cloneDocumentWithNewIds (root : EditorNode) : Gen EditorNode :=
  relabel root.

(** *** The component schema *)

(** A default child as the schema declares it: its type and the
    attributes it is created with. *)
Record ChildTemplate := mkChild {
  childType : string;
  childProps : gmap string string
}.

(** Modelled from the spec: a component definition of the missing [schema]
    file.  "A definition declares: display name/category, icon tag,
    allowed attribute names with default values, whether the type accepts
    children, and (if so) which child types"; [createNode] returns "the
    schema-declared default children and content", which are therefore
    part of the definition too.  A type accepts children when
    [allowedChildren] is not empty; it is text-bearing when it declares a
    default content. *)
Record ComponentDefinition := mkDefinition {
  name : string;
  category : string;
  icon : string;
  defaultProps : gmap string string;
  allowedChildren : list string;
  defaultContent : option string;
  defaultChildren : list ChildTemplate
}.

(** The type of the raw passthrough node and of the text block. *)
Definition rawType : string := "mj-raw".
Definition textType : string := "mj-text".

(** *** Markup text and its tokens *)

(** Modelled from the spec: the tokens of the markup text format, "an
    XML-like tag language with attributes as quoted key="value" pairs".
    Every token keeps the text it was read from, so that markup can be
    "preserved verbatim". *)
Inductive Token : Type :=
| TText (src : list ascii)
| TOpen (name : list ascii) (attrs : list (list ascii * list ascii))
    (selfClosing : bool) (src : list ascii)
| TClose (name : list ascii) (src : list ascii).

Definition tokenSrc (t : Token) : list ascii :=
  match t with
  | TText src => src
  | TOpen _ _ _ src => src
  | TClose _ src => src
  end.

Definition isLetter (c : ascii) : bool := isUpper c || isLower c.

(** A control character other than tab, line feed and carriage return. *)
Definition isControl (c : ascii) : bool :=
  ((codeOf c <? 32)%nat && negb (isSpace c)) || (codeOf c =? 127)%nat.

Definition isQuote (c : ascii) : bool := Ascii.eqb c dquote || Ascii.eqb c squote.

(** Where the tokenizer is inside an opening tag. *)
Inductive TagPos : Type :=
| InName
| Between
| AfterSlash
| InAttrName (attr : list ascii)
| AfterEq (attr : list ascii)
| InValue (attr : list ascii) (quote : ascii) (value : list ascii)
| Skipping.

(** The state of the tokenizer: in text ([pending] is the text read since
    the last tag), after a [<] or a [</] that may start a tag, inside an
    opening or a closing tag, or failed. *)
Inductive Lex : Type :=
| LText (pending : list ascii)
| LLt (pending : list ascii)
| LLtSlash (pending : list ascii)
| LOpen (src name : list ascii) (attrs : list (list ascii * list ascii)) (pos : TagPos)
| LClose (src name : list ascii) (inName : bool)
| LFailed (message : string).

Definition textToken (pending : list ascii) : list Token :=
  match pending with
  | [] => []
  | _ :: _ => [TText pending]
  end.

(** A character inside an opening tag, between attributes: [>] ends the
    tag, [/] may end it, a name character starts an attribute, anything
    else starts a fragment that is skipped.  The result is the next state
    and the tokens completed by the character. *)
Definition betweenAttrs (src name : list ascii) (attrs : list (list ascii * list ascii))
    (c : ascii) : Lex * list Token :=
  if Ascii.eqb c ">" then (LText [], [TOpen name attrs false src])
  else if Ascii.eqb c "/" then (LOpen src name attrs AfterSlash, [])
  else if isSpace c then (LOpen src name attrs Between, [])
  else if isNameChar c then (LOpen src name attrs (InAttrName [c]), [])
  else (LOpen src name attrs Skipping, []).

Definition controlMessage : string := "Parse error: control character inside a tag".
Definition unterminatedMessage : string := "Parse error: unterminated tag".

(** A character inside an opening tag, outside a quoted value. *)
Definition inTag (src name : list ascii) (attrs : list (list ascii * list ascii))
    (pos : TagPos) (c : ascii) : Lex * list Token :=
  match pos with
  | InName =>
      if isNameChar c then (LOpen src (name ++ [c]) attrs InName, [])
      else betweenAttrs src name attrs c
  | Between => betweenAttrs src name attrs c
  | AfterSlash =>
      if Ascii.eqb c ">" then (LText [], [TOpen name attrs true src])
      else betweenAttrs src name attrs c
  | InAttrName attr =>
      if isNameChar c then (LOpen src name attrs (InAttrName (attr ++ [c])), [])
      else if Ascii.eqb c "=" then (LOpen src name attrs (AfterEq attr), [])
      else betweenAttrs src name attrs c
  | AfterEq attr =>
      if isQuote c then (LOpen src name attrs (InValue attr c []), [])
      else if Ascii.eqb c ">" then betweenAttrs src name attrs c
      else if isSpace c then (LOpen src name attrs Between, [])
      else (LOpen src name attrs Skipping, [])
  | Skipping =>
      if Ascii.eqb c ">" then betweenAttrs src name attrs c
      else if isSpace c then (LOpen src name attrs Between, [])
      else (LOpen src name attrs Skipping, [])
  | InValue attr quote value =>
      if Ascii.eqb c quote then (LOpen src name (attrs ++ [(attr, value)]) Between, [])
      else (LOpen src name attrs (InValue attr quote (value ++ [c])), [])
  end.

(** Modelled from the spec: the tokenizer of [parseMjmlToNode]
    ("tokenizes tags/attributes/text"), one character at a time: the next
    state and the tokens the character completes.  "Attribute values: both
    single- and double-quoted forms accepted; unquoted or malformed
    attribute fragments are skipped rather than aborting the parse."
    "Control characters that break tag boundaries" are fatal. *)
Definition lexStep (l : Lex) (c : ascii) : Lex * list Token :=
  match l with
  | LText pending =>
      if Ascii.eqb c "<" then (LLt pending, [])
      else (LText (pending ++ [c]), [])
  | LLt pending =>
      if isLetter c then (LOpen ["<"%char; c] [c] [] InName, textToken pending)
      else if Ascii.eqb c "/" then (LLtSlash pending, [])
      else if Ascii.eqb c "<" then (LLt (pending ++ ["<"%char]), [])
      else (LText (pending ++ ["<"%char; c]), [])
  | LLtSlash pending =>
      if isLetter c then (LClose ["<"%char; "/"%char; c] [c] true, textToken pending)
      else if Ascii.eqb c "<" then (LLt (pending ++ ["<"%char; "/"%char]), [])
      else (LText (pending ++ ["<"%char; "/"%char; c]), [])
  | LOpen src name attrs pos =>
      match pos with
      | InValue _ _ _ => inTag (src ++ [c]) name attrs pos c
      | _ =>
          if isControl c then (LFailed controlMessage, [])
          else inTag (src ++ [c]) name attrs pos c
      end
  | LClose src name inName =>
      if isControl c then (LFailed controlMessage, [])
      else if Ascii.eqb c ">" then (LText [], [TClose name (src ++ [c])])
      else if inName && isNameChar c then (LClose (src ++ [c]) (name ++ [c]) true, [])
      else (LClose (src ++ [c]) name false, [])
  | LFailed _ => (l, [])
  end.

Fixpoint lexRun (l : Lex) (s : list ascii) : Lex * list Token :=
  match s with
  | [] => (l, [])
  | c :: rest =>
      let '(l1, ts1) := lexStep l c in
      let '(l2, ts2) := lexRun l1 rest in
      (l2, ts1 ++ ts2)
  end.

(** A result of the parser: the value, or "a typed parse error carrying a
    human-readable message". *)
Inductive Parsed (A : Type) : Type :=
| Ok (value : A)
| ParseError (message : string).
Arguments Ok {A} value.
Arguments ParseError {A} message.

(** The end of the text: what is pending is text; the text may not end
    inside a tag ("unterminated quotes spanning the whole document"). *)
Definition lexEnd (l : Lex) : Parsed (list Token) :=
  match l with
  | LText pending => Ok (textToken pending)
  | LLt pending => Ok [TText (pending ++ ["<"%char])]
  | LLtSlash pending => Ok [TText (pending ++ ["<"%char; "/"%char])]
  | LOpen _ _ _ _ | LClose _ _ _ => ParseError unterminatedMessage
  | LFailed message => ParseError message
  end.

Definition tokenize (s : list ascii) : Parsed (list Token) :=
  let '(l, ts) := lexRun (LText []) s in
  match lexEnd l with
  | Ok last => Ok (ts ++ last)
  | ParseError message => ParseError message
  end.

(** *** Attribute values *)

(** The characters that cannot stand in a quoted attribute value are
    written as entities, as in XML. *)
Definition escapeChar (c : ascii) : list ascii :=
  if Ascii.eqb c "&" then chars "&amp;"
  else if Ascii.eqb c dquote then chars "&quot;"
  else if Ascii.eqb c "<" then chars "&lt;"
  else if Ascii.eqb c ">" then chars "&gt;"
  else [c].

Definition escape (v : list ascii) : list ascii := flat_map escapeChar v.

Fixpoint startsWith (prefix v : list ascii) : bool :=
  match prefix, v with
  | [], _ => true
  | a :: prefix', b :: v' => Ascii.eqb a b && startsWith prefix' v'
  | _ :: _, [] => false
  end.

(** The entity at the head of a text: its character and its length. *)
Definition entityAt (v : list ascii) : option (ascii * nat) :=
  if startsWith (chars "&amp;") v then Some ("&"%char, 5%nat)
  else if startsWith (chars "&quot;") v then Some (dquote, 6%nat)
  else if startsWith (chars "&lt;") v then Some ("<"%char, 4%nat)
  else if startsWith (chars "&gt;") v then Some (">"%char, 4%nat)
  else None.

(** [skip] counts the characters of the current entity still to pass. *)
Fixpoint unescapeFrom (skip : nat) (v : list ascii) : list ascii :=
  match v with
  | [] => []
  | c :: rest =>
      match skip with
      | S n => unescapeFrom n rest
      | O =>
          match entityAt v with
          | Some (ch, len) => ch :: unescapeFrom (Nat.pred len) rest
          | None => c :: unescapeFrom 0 rest
          end
      end
  end.

Definition unescape (v : list ascii) : list ascii := unescapeFrom 0 v.

(** *** Head settings *)

Record Font := mkFont { fontName : string; fontHref : string }.

(** Modelled from the spec: "Head Settings: a sibling configuration
    structure (fonts, breakpoint, attributes-by-tag defaults) that is not
    part of the node tree". *)
Record HeadSettings := mkHead {
  fonts : list Font;
  breakpoint : option string;
  attributes : gmap string (gmap string string)
}.

Definition renderAttr (kv : string * string) : list ascii :=
  " "%char :: chars kv.1 ++ "="%char :: dquote :: escape (chars kv.2) ++ [dquote].

Definition renderAttrs (kvs : list (string * string)) : list ascii :=
  flat_map renderAttr kvs.

Definition openTag (tag : list ascii) (kvs : list (string * string)) : list ascii :=
  "<"%char :: tag ++ renderAttrs kvs ++ [">"%char].

Definition selfClosingTag (tag : list ascii) (kvs : list (string * string)) : list ascii :=
  "<"%char :: tag ++ renderAttrs kvs ++ chars " />".

Definition closeTag (tag : list ascii) : list ascii :=
  "<"%char :: "/"%char :: tag ++ [">"%char].

Definition indent (depth : nat) : list ascii := repeat " "%char (2 * depth).

(** The tags of the envelope and of the head block. *)
Definition envelopeTag : list ascii := chars "mjml".
Definition headTag : list ascii := chars "mj-head".

Definition sameText (a b : list ascii) : bool := bool_decide (a = b).

(** A tag name the tokenizer reads back as written: a letter, then name
    characters; an attribute name: name characters. *)
Definition validTag (tag : list ascii) : bool :=
  match tag with
  | c :: rest => isLetter c && forallb isNameChar rest
  | [] => false
  end.

Definition validAttr (k : list ascii) : bool :=
  match k with
  | _ :: _ => forallb isNameChar k
  | [] => false
  end.

Definition validKeys (p : gmap string string) : bool :=
  forallb (fun kv => validAttr (chars kv.1)) (map_to_list p).

(** *** The open-tag stack of the parser *)

(** What the parser does with a recognized element that its parent may
    not contain: the specification allows both ("either coerced to a
    raw-content node or dropped"). *)
Inductive Misplaced : Type := Drop | CoerceToRaw.

(** How an open element is built. *)
Inductive FrameKind : Type :=
| Structural      (** a recognized type that takes children *)
| TextBearing     (** a recognized type with a content, read verbatim *)
| Unknown.        (** an unrecognized tag, kept verbatim as a raw node *)

(** An entry of the open-tag stack. *)
Record Frame := mkFrame {
  fkind : FrameKind;
  fname : list ascii;          (** the tag name as written *)
  ftype : string;
  fprops : gmap string string;
  fchildren : list Shape;
  ftext : list ascii;          (** the content read so far *)
  fsrc : list ascii            (** the markup of the element read so far *)
}.

(** The state of the tree builder: the open-tag stack (the top first),
    the tree found so far, and whether the head block is being passed. *)
Record Build := mkBuild {
  stack : list Frame;
  root : option Shape;
  inHead : bool
}.

Section Schema.

(** Modelled from the spec: [componentDefinitions], the "static registry
    of node types" of the missing [schema] file.  Its content is not
    given; the model holds for every registry. *)
Variable componentDefinitions : gmap string ComponentDefinition.

(** "[getComponentDefinition(type)] -> definition or absent." *)
Definition getComponentDefinition (t : string) : option ComponentDefinition :=
  componentDefinitions !! t.

(** "[getAllowedChildren(type)] -> ordered set of child types permissible
    under [type]; empty for leaf types." *)
Definition getAllowedChildren (t : string) : list string :=
  match getComponentDefinition t with
  | Some d => allowedChildren d
  | None => []
  end.

(** "[canContain(parentType, childType)] -> boolean membership test
    against the above." *)
Definition canContain (parentType childType : string) : bool :=
  bool_decide (childType ∈ getAllowedChildren parentType).

Definition defaultsOf (t : string) : gmap string string :=
  match getComponentDefinition t with
  | Some d => defaultProps d
  | None => ∅
  end.

Definition contentOf (t : string) : option string :=
  match getComponentDefinition t with
  | Some d => defaultContent d
  | None => None
  end.

Definition defaultChildrenOf (t : string) : list ChildTemplate :=
  match getComponentDefinition t with
  | Some d => defaultChildren d
  | None => []
  end.

(** The node of a type with the given attributes over the defaults of the
    schema, the default content and the given children. *)
Definition nodeOf {Id} (i : Id) (t : string) (overrides : gmap string string)
    (cs : list (Node Id)) : Node Id :=
  mkNode i t (overrides ∪ defaultsOf t) cs (contentOf t).

(** A default child, made: it is a leaf with the attributes of its
    template over the defaults of its type. *)
Definition instantiate (template : ChildTemplate) : Gen EditorNode :=
  i ← generateId; mret (nodeOf i (childType template) (childProps template) []).

(** Modelled from the spec: [createNode] of the missing [schema] file.
    "Builds a node of [type] populated with schema defaults, applying any
    caller-supplied attribute overrides; returns a node whose children
    are the schema-declared default children and content, not empty." *)
Definition createNode (t : string) (overrides : gmap string string) : Gen EditorNode :=
  i ← generateId;
  cs ← genMap instantiate (defaultChildrenOf t);
  mret (nodeOf i t overrides cs).

(** The structure of a default child and of a created node. *)
Definition templateShape (template : ChildTemplate) : Shape :=
  nodeOf tt (childType template) (childProps template) [].

Definition defaultShape (t : string) (overrides : gmap string string) : Shape :=
  nodeOf tt t overrides (map templateShape (defaultChildrenOf t)).

(** The containment invariant of a tree: every child is of a type its
    parent may contain, or is a raw passthrough node. *)
Definition allowedUnder {Id} (parentType : string) (child : Node Id) : bool :=
  canContain parentType (type child) || bool_decide (type child = rawType).

Fixpoint contained {Id} (n : Node Id) : bool :=
  match n with
  | mkNode _ t _ cs _ =>
      forallb (fun child => allowedUnder t child && contained child) cs
  end.

(** *** Registries and trees the round trip is stated for *)

Definition known (t : string) : bool :=
  match getComponentDefinition t with Some _ => true | None => false end.

Definition closesKnown (t : Token) : bool :=
  match t with
  | TClose tag _ => known (text tag)
  | _ => false
  end.

(** A content that can stand between the tags of its element: its text
    does not end inside a tag and closes no element of the schema. *)
Definition cleanContent (inner : string) : bool :=
  match lexRun (LText []) (chars inner) with
  | (LText _, ts) => forallb (fun t => negb (closesKnown t)) ts
  | _ => false
  end.

Definition wellFormedTemplate (d : ComponentDefinition) (template : ChildTemplate) : bool :=
  bool_decide (childType template ∈ allowedChildren d)
  && known (childType template)
  && validKeys (childProps template).

(** What the markup format asks of a definition: its tag and attribute
    names are names, its tag is not one of the envelope, a type with a
    content takes no children and its default content is clean, its
    default children are of types it may contain. *)
Definition wellFormedDefinition (entry : string * ComponentDefinition) : bool :=
  validTag (chars entry.1)
  && negb (sameText (chars entry.1) envelopeTag)
  && negb (sameText (chars entry.1) headTag)
  && validKeys (defaultProps entry.2)
  && match defaultContent entry.2 with
     | Some inner => cleanContent inner && bool_decide (allowedChildren entry.2 = [])
     | None => true
     end
  && forallb (wellFormedTemplate entry.2) (defaultChildren entry.2).

Definition wellFormed : bool :=
  forallb wellFormedDefinition (map_to_list componentDefinitions).

(** A node made from the template of a default child. *)
Definition fromTemplate (t : string) (p : gmap string string)
    (template : ChildTemplate) : bool :=
  bool_decide (childType template = t)
  && bool_decide (p = childProps template ∪ defaultsOf t).

(** "A tree built only from schema-default constructions": every node has
    the default content of its type and either the default attributes of
    its type, with children the schema allows under it, each one built
    the same way, or it is a default child of its parent, as the schema
    declares it.  [templates] are the default children the parent
    declares. *)
Fixpoint schemaDefault {Id} (templates : list ChildTemplate) (n : Node Id) : bool :=
  match n with
  | mkNode _ t p cs c =>
      match getComponentDefinition t with
      | None => false
      | Some d =>
          bool_decide (c = defaultContent d)
          && ((bool_decide (p = defaultProps d)
               && forallb (fun child => canContain t (type child)
                                        && schemaDefault (defaultChildren d) child) cs)
              || (existsb (fromTemplate t p) templates && bool_decide (cs = [])))
      end
  end.

(** *** The serializer *)

(** "Attributes whose value equals the schema default MAY be omitted": the
    model omits them; the others come in the order of the map. *)
Definition emitted (t : string) (p : gmap string string) : list (string * string) :=
  filter (fun kv => defaultsOf t !! kv.1 <> Some kv.2) (map_to_list p).

(** Modelled from the spec: [nodeToMjml] of the missing [compiler] file.
    "Emits one tag per node: opening tag with attributes rendered in a
    stable order, recursively emits children indented by depth, closes
    with matching end tag, or emits a self-closing form for
    childless/content-less leaf types."  A node with a content is written
    with its content between its tags. *)
Fixpoint nodeToMjml {Id} (node : Node Id) (depth : nat) : list ascii :=
  match node with
  | mkNode _ t p cs c =>
      let tag := chars t in
      let kvs := emitted t p in
      match c with
      | Some inner =>
          indent depth ++ openTag tag kvs ++ chars inner ++ closeTag tag ++ [newline]
      | None =>
          match cs, getAllowedChildren t with
          | [], [] => indent depth ++ selfClosingTag tag kvs ++ [newline]
          | _, _ =>
              indent depth ++ openTag tag kvs ++ [newline]
              ++ flat_map (fun child => nodeToMjml child (S depth)) cs
              ++ indent depth ++ closeTag tag ++ [newline]
          end
      end
  end.

Definition fontToMjml (f : Font) : list ascii :=
  indent 2 ++ selfClosingTag (chars "mj-font")
                [("name"%string, fontName f); ("href"%string, fontHref f)]
  ++ [newline].

Definition breakpointToMjml (b : option string) : list ascii :=
  match b with
  | Some width =>
      indent 2 ++ selfClosingTag (chars "mj-breakpoint") [("width"%string, width)]
      ++ [newline]
  | None => []
  end.

(** The per-tag default attributes of the head are written for the tags
    and the attribute names the schema knows ("schema-aware emission"). *)
Definition tagDefaults (entry : string * gmap string string) : list ascii :=
  match getComponentDefinition entry.1 with
  | Some d =>
      indent 3
      ++ selfClosingTag (chars entry.1)
           (filter (fun kv => is_Some (defaultProps d !! kv.1)) (map_to_list entry.2))
      ++ [newline]
  | None => []
  end.

Definition headToMjml (head : HeadSettings) : list ascii :=
  indent 1 ++ openTag (chars "mj-head") [] ++ [newline]
  ++ flat_map fontToMjml (fonts head)
  ++ breakpointToMjml (breakpoint head)
  ++ indent 2 ++ openTag (chars "mj-attributes") [] ++ [newline]
  ++ flat_map tagDefaults (map_to_list (attributes head))
  ++ indent 2 ++ closeTag (chars "mj-attributes") ++ [newline]
  ++ indent 1 ++ closeTag (chars "mj-head") ++ [newline].

Definition documentToMjml {Id} (documentRoot : Node Id) (head : HeadSettings)
  : list ascii :=
  openTag (chars "mjml") [] ++ [newline]
  ++ headToMjml head
  ++ nodeToMjml documentRoot 1
  ++ closeTag (chars "mjml") ++ [newline].

(** Modelled from the spec: [generateMjml] of the missing [compiler] file.
    "Wraps the body markup with a root envelope tag and a head block
    serialized from [headSettings] (fonts, breakpoint, per-tag default
    attributes)." *)
Definition generateMjml {Id} (documentRoot : Node Id) (head : HeadSettings) : string :=
  text (documentToMjml documentRoot head).

(** *** The parser *)

Variable misplaced : Misplaced.

(** "Preserved as a raw/passthrough node carrying the original markup
    verbatim." *)
Definition rawNode (src : list ascii) : Shape :=
  mkNode tt rawType (defaultsOf rawType) [] (Some (text src)).

(** The attributes of a tag over the defaults of the schema ("absent keys
    fall back to schema defaults"). *)
Definition attrsToProps (attrs : list (list ascii * list ascii)) : gmap string string :=
  list_to_map (map (fun kv => (text kv.1, text (unescape kv.2))) attrs).

Definition finish (f : Frame) : Shape :=
  match fkind f with
  | Structural => mkNode tt (ftype f) (fprops f) (fchildren f) None
  | TextBearing => mkNode tt (ftype f) (fprops f) [] (Some (text (ftext f)))
  | Unknown => rawNode (fsrc f)
  end.

Definition withSrc (f : Frame) (src : list ascii) : Frame :=
  mkFrame (fkind f) (fname f) (ftype f) (fprops f) (fchildren f) (ftext f)
    (fsrc f ++ src).

Definition withVerbatim (f : Frame) (src : list ascii) : Frame :=
  mkFrame (fkind f) (fname f) (ftype f) (fprops f) (fchildren f) (ftext f ++ src)
    (fsrc f ++ src).

Definition withChild (f : Frame) (child : Shape) (src : list ascii) : Frame :=
  mkFrame (fkind f) (fname f) (ftype f) (fprops f) (fchildren f ++ [child]) (ftext f)
    (fsrc f ++ src).

(** A finished element, read from [src], comes under its parent: kept
    when the schema allows the pairing or when it is a raw node, otherwise
    dropped or coerced to a raw node, "never silently reparented into an
    invalid slot". *)
Definition addChild (child : Shape) (src : list ascii) (parent : Frame) : Frame :=
  if canContain (ftype parent) (type child) || bool_decide (type child = rawType) then
    withChild parent child src
  else
    match misplaced with
    | Drop => withSrc parent src
    | CoerceToRaw => withChild parent (rawNode src) src
    end.

(** The first element finished outside every other one is the tree. *)
Definition setRoot (child : Shape) (r : option Shape) : option Shape :=
  match r with
  | Some _ => r
  | None => Some child
  end.

Definition attach (child : Shape) (src : list ascii) (b : Build) : Build :=
  match stack b with
  | [] => mkBuild [] (setRoot child (root b)) (inHead b)
  | parent :: below => mkBuild (addChild child src parent :: below) (root b) (inHead b)
  end.

Definition onStack (tag : list ascii) (frames : list Frame) : bool :=
  existsb (fun f => sameText (fname f) tag) frames.

Definition under (child : option (Shape * list ascii)) (f : Frame) : Frame :=
  match child with
  | Some (node, src) => addChild node src f
  | None => f
  end.

(** "Search downward in the stack for a match; if found, close all
    intervening entries": the entries are closed from the top, each one
    coming under the next, until the entry named [tag] is closed with the
    text of its closing tag. *)
Fixpoint closeDown (tag closeSrc : list ascii) (child : option (Shape * list ascii))
    (frames : list Frame) (r : option Shape) (h : bool) : Build :=
  match frames with
  | [] =>
      mkBuild [] (match child with Some (node, _) => setRoot node r | None => r end) h
  | f :: below =>
      let f' := under child f in
      if sameText (fname f') tag then
        let closed := withSrc f' closeSrc in
        attach (finish closed) (fsrc closed) (mkBuild below r h)
      else closeDown tag closeSrc (Some (finish f', fsrc f')) below r h
  end.

(** The end of the text closes every element still open ("closed
    implicitly"). *)
Fixpoint closeAll (child : option (Shape * list ascii)) (frames : list Frame)
    (r : option Shape) : option Shape :=
  match frames with
  | [] => match child with Some (node, _) => setRoot node r | None => r end
  | f :: below =>
      let f' := under child f in
      closeAll (Some (finish f', fsrc f')) below r
  end.

Definition appendSrc (src : list ascii) (b : Build) : Build :=
  match stack b with
  | [] => b
  | f :: below => mkBuild (withSrc f src :: below) (root b) (inHead b)
  end.

Definition appendVerbatim (src : list ascii) (b : Build) : Build :=
  match stack b with
  | [] => b
  | f :: below => mkBuild (withVerbatim f src :: below) (root b) (inHead b)
  end.

Definition push (f : Frame) (b : Build) : Build :=
  mkBuild (f :: stack b) (root b) (inHead b).

(** "Void leaf types": recognized, without children and without content. *)
Definition isVoid (d : ComponentDefinition) : bool :=
  bool_decide (allowedChildren d = []) && bool_decide (defaultContent d = None).

(** "Text content between tags ... for structural types it is ignored
    (whitespace-only) or, if non-whitespace, coerced into an implicit text
    child where the schema allows one." *)
Definition structuralText (src : list ascii) (b : Build) : Build :=
  if forallb isSpace src then appendSrc src b
  else
    match stack b with
    | f :: _ =>
        if canContain (ftype f) textType then
          attach (mkNode tt textType (defaultsOf textType) [] (Some (text src))) src b
        else appendSrc src b
    | [] => b
    end.

(** An opening tag met where elements are expected.  "Unknown tag names:
    preserved as a raw/passthrough node"; "self-closing tags and void leaf
    types produce childless nodes even if the schema would otherwise allow
    children". *)
Definition structuralOpen (tag : list ascii) (attrs : list (list ascii * list ascii))
    (selfClosing : bool) (src : list ascii) (b : Build) : Build :=
  if sameText tag envelopeTag then b
  else if sameText tag headTag then
    mkBuild (stack b) (root b) (negb selfClosing)
  else
    match getComponentDefinition (text tag) with
    | None =>
        if selfClosing then attach (rawNode src) src b
        else push (mkFrame Unknown tag rawType ∅ [] [] src) b
    | Some d =>
        let p := attrsToProps attrs ∪ defaultProps d in
        if selfClosing || isVoid d then attach (mkNode tt (text tag) p [] None) src b
        else
          push (mkFrame (match defaultContent d with
                         | Some _ => TextBearing
                         | None => Structural
                         end) tag (text tag) p [] [] src) b
    end.

(** A closing tag: "when a closing tag doesn't match the top of the
    open-tag stack, search downward in the stack for a match; if found,
    close all intervening entries; if not found, ignore the stray closing
    tag". *)
Definition structuralClose (tag src : list ascii) (b : Build) : Build :=
  if sameText tag envelopeTag then b
  else if onStack tag (stack b) then closeDown tag src None (stack b) (root b) (inHead b)
  else appendSrc src b.

Definition isVerbatim (f : Frame) : bool :=
  match fkind f with
  | Structural => false
  | TextBearing | Unknown => true
  end.

(** Inside a text-bearing element or an unknown one everything is content,
    "captured verbatim (including inline HTML markup)", up to a closing
    tag that closes an open element. *)
Definition verbatimStep (t : Token) (b : Build) : Build :=
  match t with
  | TClose tag src =>
      if onStack tag (stack b) then closeDown tag src None (stack b) (root b) (inHead b)
      else appendVerbatim src b
  | _ => appendVerbatim (tokenSrc t) b
  end.

(** The head block is passed over: "not folded into the body tree". *)
Definition headStep (t : Token) (b : Build) : Build :=
  match t with
  | TClose tag _ =>
      if sameText tag headTag then mkBuild (stack b) (root b) false else b
  | _ => b
  end.

Definition structuralStep (t : Token) (b : Build) : Build :=
  match t with
  | TText src => structuralText src b
  | TOpen tag attrs selfClosing src => structuralOpen tag attrs selfClosing src b
  | TClose tag src => structuralClose tag src b
  end.

(** Modelled from the spec: the tree builder of [parseMjmlToNode], one
    token at a time over "an explicit stack-of-open-elements structure". *)
Definition buildStep (b : Build) (t : Token) : Build :=
  if inHead b then headStep t b
  else
    match stack b with
    | f :: _ => if isVerbatim f then verbatimStep t b else structuralStep t b
    | [] => structuralStep t b
    end.

Definition buildRun (b : Build) (ts : list Token) : Build := fold_left buildStep ts b.

Definition buildEnd (b : Build) : option Shape := closeAll None (stack b) (root b).

(** The structure [parseMjmlToNode] reads from a markup text: a parse
    error, no tree, or a tree. *)
Definition parseShape (mjmlText : string) : Parsed (option Shape) :=
  match tokenize (chars mjmlText) with
  | ParseError message => ParseError message
  | Ok ts => Ok (buildEnd (buildRun (mkBuild [] None false) ts))
  end.

(** Modelled from the spec: [parseMjmlToNode] of the missing [compiler]
    file.  "Tokenizes tags/attributes/text, builds a tree respecting
    nesting"; every node of the tree gets its [id] from [generateId].  It
    "either returns a complete tree or signals an error". *)
Definition parseMjmlToNode (mjmlText : string) : Gen (Parsed (option EditorNode)) :=
  match parseShape mjmlText with
  | ParseError message => mret (ParseError message)
  | Ok None => mret (Ok None)
  | Ok (Some tree) => node ← relabel tree; mret (Ok (Some node))
  end.

End Schema.

(** What a run of the parser returned, without the identifiers, and the
    identifiers it gave out. *)
Definition shapeOf {Id} (r : Parsed (option (Node Id))) : Parsed (option Shape) :=
  match r with
  | Ok (Some tree) => Ok (Some (shape tree))
  | Ok None => Ok None
  | ParseError message => ParseError message
  end.

Definition idsOf {Id} (r : Parsed (option (Node Id))) : list Id :=
  match r with
  | Ok (Some tree) => ids tree
  | _ => []
  end.

(** *** Notions the properties of the parser are stated with *)

(** A text without the start of a tag, and a text of whitespace. *)
Definition noLt (s : list ascii) : Prop := Forall (fun c => Ascii.eqb c "<" = false) s.

Definition ws (w : list ascii) : Prop := forallb isSpace w = true.

(** Where an attribute may start: after the tag name or after another
    attribute. *)
Definition attrStart (pos : TagPos) : Prop := pos = InName \/ pos = Between.

(** The attributes as the tokenizer reads them back. *)
Definition lexAttrs (kvs : list (string * string)) : list (list ascii * list ascii) :=
  map (fun kv => (chars kv.1, escape (chars kv.2))) kvs.

Definition validNames (kvs : list (string * string)) : Prop :=
  Forall (fun kv => validAttr (chars kv.1) = true) kvs.

(** The text the tokens were read from, and the text a state of the
    tokenizer has read without a token for it yet. *)
Definition srcs (ts : list Token) : list ascii := flat_map tokenSrc ts.

Definition pendingSrc (l : Lex) : list ascii :=
  match l with
  | LText pending => pending
  | LLt pending => pending ++ ["<"%char]
  | LLtSlash pending => pending ++ ["<"%char; "/"%char]
  | LOpen src _ _ _ => src
  | LClose src _ _ => src
  | LFailed _ => []
  end.

Definition failed (l : Lex) : bool :=
  match l with LFailed _ => true | _ => false end.

(** A token that does not end the head block. *)
Definition headSafe (t : Token) : Prop :=
  match t with
  | TClose tag _ => tag <> headTag
  | _ => True
  end.

(** A text of whole lines inside the head: read from the start of a line
    to the start of a line, without the closing tag of the head. *)
Definition safeLines (s : list ascii) : Prop :=
  exists ts,
    lexRun (LText [newline]) s = (LText [newline], ts) /\ Forall headSafe ts.

(** A tag name the format can carry. *)
Definition tagOk (t : string) : Prop :=
  validTag (chars t) = true /\ chars t <> envelopeTag /\ chars t <> headTag.

Definition templatesOk (templates : list ChildTemplate) : Prop :=
  Forall (fun template => validKeys (childProps template) = true) templates.

Definition propsOk (d : ComponentDefinition) (p : gmap string string) : Prop :=
  validKeys p = true /\ forall k, p !! k = None -> defaultProps d !! k = None.

(** [f'] is [f] with more children and more content; its markup may
    differ. *)
Definition sameBut (f f' : Frame) (extra : list Shape) (txt : list ascii) : Prop :=
  fkind f' = fkind f /\ fname f' = fname f /\ ftype f' = ftype f
  /\ fprops f' = fprops f /\ fchildren f' = fchildren f ++ extra
  /\ ftext f' = ftext f ++ txt.

(** [b'] is [b] with the elements [extra] finished under the open element
    (or, outside every element, as the tree). *)
Definition grownBy (extra : list Shape) (b b' : Build) : Prop :=
  inHead b' = inHead b
  /\ match stack b with
     | [] => stack b' = [] /\ root b' = fold_left (fun r c => setRoot c r) extra (root b)
     | f :: below =>
         exists f', stack b' = f' :: below /\ sameBut f f' extra [] /\ root b' = root b
     end.

(** Something has been opened or found. *)
Definition started (b : Build) : bool :=
  match stack b, root b with
  | [], None => false
  | _, _ => true
  end.

Section Invariants.

Variable componentDefinitions : gmap string ComponentDefinition.
Variable misplaced : Misplaced.

(** The children of an open element obey the containment invariant. *)
Definition frameOk (f : Frame) : bool :=
  forallb (fun child => allowedUnder componentDefinitions (ftype f) child
                        && contained componentDefinitions child) (fchildren f).

Definition rootOk (r : option Shape) : bool :=
  match r with Some tree => contained componentDefinitions tree | None => true end.

Definition buildOk (b : Build) : Prop :=
  forallb frameOk (stack b) = true /\ rootOk (root b) = true.

Definition frameReady (f : Frame) : Prop :=
  fkind f = Structural /\ known componentDefinitions (text (fname f)) = true.

(** The builder is among elements: not in the head, every open element a
    recognized one that takes children. *)
Definition steady (b : Build) : Prop :=
  inHead b = false /\ Forall frameReady (stack b).

Definition topAllows (b : Build) (t : string) : Prop :=
  match stack b with
  | f :: _ => canContain componentDefinitions (ftype f) t = true
  | [] => True
  end.

Definition namesKnown (frames : list Frame) : Prop :=
  Forall (fun f => known componentDefinitions (text (fname f)) = true) frames.

Definition cleanTokens (ts : list Token) : Prop :=
  Forall (fun t => closesKnown componentDefinitions t = false) ts.

(** The trees the serializer writes so that the parser reads them back:
    every node of a type of the schema, with attributes that are names
    and defined wherever the schema has a default; a node with a content
    of a type that has one; children only under a type that takes
    children, and of types it may contain. *)
#[local] Unset Elimination Schemes.
Inductive printable {Id} : Node Id -> Prop :=
| printable_text i t p inner d :
    getComponentDefinition componentDefinitions t = Some d ->
    tagOk t -> propsOk d p ->
    is_Some (defaultContent d) ->
    cleanContent componentDefinitions inner = true ->
    printable (mkNode i t p [] (Some inner))
| printable_leaf i t p d :
    getComponentDefinition componentDefinitions t = Some d ->
    tagOk t -> propsOk d p ->
    defaultContent d = None -> allowedChildren d = [] ->
    printable (mkNode i t p [] None)
| printable_block i t p cs d :
    getComponentDefinition componentDefinitions t = Some d ->
    tagOk t -> propsOk d p ->
    defaultContent d = None -> allowedChildren d <> [] ->
    Forall printable cs ->
    Forall (fun child => canContain componentDefinitions t (type child) = true) cs ->
    printable (mkNode i t p cs None).
#[local] Set Elimination Schemes.

(** A node whose markup is read back as the node, wherever it stands. *)
Definition readsBack {Id} (n : Node Id) : Prop :=
  forall pending depth,
    ws pending ->
    exists ts,
      lexRun (LText pending) (nodeToMjml componentDefinitions n depth)
      = (LText [newline], ts)
      /\ forall b,
          steady b -> topAllows b (type n) ->
          grownBy [shape n] b (buildRun componentDefinitions misplaced b ts).

(** What a well-formed registry gives for each of its definitions. *)
Record definitionOk (t : string) (d : ComponentDefinition) : Prop := {
  ok_tag : tagOk t;
  ok_keys : validKeys (defaultProps d) = true;
  ok_content : forall inner,
      defaultContent d = Some inner ->
      cleanContent componentDefinitions inner = true /\ allowedChildren d = [];
  ok_templates : templatesOk (defaultChildren d)
}.

End Invariants.

(** *** A sample registry

    The component kinds the editor's sources name, with the children the
    canvas accepts under a column and the fallback values the block
    renderers use; the default social elements are three of the platforms
    of the social block editor. *)

Definition props_of (kvs : list (string * string)) : gmap string string :=
  list_to_map kvs.

Definition contentTypes : list string :=
  ["mj-text"; "mj-image"; "mj-button"; "mj-divider"; "mj-spacer"; "mj-social";
   "mj-navbar"; "mj-accordion"; "mj-carousel"; "mj-table"; "mj-raw"]%string.

Definition sampleSocialElements : list ChildTemplate :=
  [mkChild "mj-social-element" (props_of [("name", "facebook"); ("href", "#")]%string);
   mkChild "mj-social-element" (props_of [("name", "twitter"); ("href", "#")]%string);
   mkChild "mj-social-element" (props_of [("name", "github"); ("href", "#")]%string)].

Definition sampleDefinitions : gmap string ComponentDefinition :=
  list_to_map
    [("mj-body", mkDefinition "Body" "layout" "layout"
        (props_of [("background-color", "#ffffff")]) ["mj-section"; "mj-raw"] None []);
     ("mj-section", mkDefinition "Section" "layout" "rows"
        (props_of [("padding", "20px 0")]) ["mj-column"] None []);
     ("mj-column", mkDefinition "Column" "layout" "columns"
        (props_of [("padding", "10px")]) contentTypes None []);
     ("mj-text", mkDefinition "Text" "content" "type"
        (props_of [("font-size", "14px"); ("color", "#333333")]) []
        (Some "<p>Enter your text here</p>") []);
     ("mj-image", mkDefinition "Image" "content" "image"
        (props_of [("src", "https://placehold.co/600x200"); ("alt", "")]) [] None []);
     ("mj-button", mkDefinition "Button" "content" "mouse-pointer-click"
        (props_of [("background-color", "#414141"); ("href", "#")]) []
        (Some "Button") []);
     ("mj-divider", mkDefinition "Divider" "content" "minus"
        (props_of [("border-color", "#e2e8f0"); ("border-width", "1px")]) [] None []);
     ("mj-spacer", mkDefinition "Spacer" "content" "move-vertical"
        (props_of [("height", "30px")]) [] None []);
     ("mj-social", mkDefinition "Social" "content" "share-2"
        (props_of [("align", "center")]) ["mj-social-element"] None sampleSocialElements);
     ("mj-social-element", mkDefinition "Social element" "content" "globe"
        (props_of [("name", ""); ("href", "")]) [] None []);
     ("mj-raw", mkDefinition "Raw HTML" "content" "code" ∅ [] (Some "") [])]%string.

Definition sampleHead : HeadSettings :=
  mkHead [mkFont "Inter" "https://fonts.example/css?family=Inter&display=swap"]
    (Some "480px"%string)
    (list_to_map [("mj-text"%string, props_of [("color", "#111111"); ("bogus key", "x")]%string)]).

(** The spec's scenario markups. *)
Definition misnestedMarkup : string :=
  "<mj-column><mj-section>x</mj-section></mj-column>".

Definition helloMarkup : string :=
  "<mj-section><mj-column><mj-text>Hi</mj-text></mj-column></mj-section>".

(** A document made of default nodes: a body, a section, a column, and
    in it a text, a social block with its default elements, and an image. *)
Definition sampleDocument : EditorNode :=
  let column :=
    nodeOf sampleDefinitions 2%nat "mj-column" ∅
      [(createNode sampleDefinitions "mj-text" ∅ 3%nat).1;
       (createNode sampleDefinitions "mj-social" ∅ 4%nat).1;
       (createNode sampleDefinitions "mj-image" ∅ 8%nat).1] in
  nodeOf sampleDefinitions 0%nat "mj-body" ∅
    [nodeOf sampleDefinitions 1%nat "mj-section" ∅ [column]].

End Mjml.

From Stdlib Require DecimalString DecimalNat.

(** ** What the regular expressions of the editor match

    The set of texts an expression matches, as a relation between the text
    before and the text left after the match; the backtracking matcher
    only reports matches of this relation. *)

Module RegexSemantics.
Import Chars Regex.

Inductive matches : re -> list ascii -> list ascii -> Prop :=
| matches_eps s : matches Eps s s
| matches_one p c s : p c = true -> matches (One p) (c :: s) s
| matches_star_stop p s : matches (Star p) s s
| matches_star_more p c s s' :
    p c = true -> matches (Star p) s s' -> matches (Star p) (c :: s) s'
| matches_seq a b s s1 s2 :
    matches a s s1 -> matches b s1 s2 -> matches (Seq a b) s s2
| matches_alt_l a b s s' : matches a s s' -> matches (Alt a b) s s'
| matches_alt_r a b s s' : matches b s s' -> matches (Alt a b) s s'
| matches_group a s s' : matches a s s' -> matches (Group a) s s'.

(** [lit] stands at the head of [s], letter case apart. *)
Fixpoint prefixNoCase (lit s : list ascii) : bool :=
  match lit, s with
  | [], _ => true
  | c :: lit', d :: s' => eqbNoCase c d && prefixNoCase lit' s'
  | _ :: _, [] => false
  end.

(** [lit] stands somewhere in [s], letter case apart. *)
Fixpoint occursNoCase (lit s : list ascii) : bool :=
  prefixNoCase lit s
  || match s with
     | [] => false
     | _ :: s' => occursNoCase lit s'
     end.

End RegexSemantics.

(** ** Locked regions within their text *)

Module LockedText.
Import Chars Regex RegexSemantics LockedRegions.

(** The text has a [data-locked="true"] somewhere, in any letter case. *)
Definition hasLockedAttr (code : string) : bool :=
  occursNoCase lockedAttr (chars code).

(** The text has the start of a closing tag somewhere. *)
Definition hasClosingStart (code : string) : bool :=
  occursNoCase (chars "</") (chars code).

(** The region lies within the lines of the text: its lines are lines of
    the text, in order, its columns are in order from column 1, and its
    end column is at most one past the end of its last line. *)
Definition inText (lines : list (list ascii)) (region : LockedRegion) : Prop :=
  1 <= startLine region /\ startLine region <= endLine region
  /\ endLine region <= Z.of_nat (length lines)
  /\ 1 <= startColumn region /\ startColumn region <= endColumn region
  /\ exists line,
       lines !! Z.to_nat (endLine region - 1) = Some line
       /\ endColumn region <= Z.of_nat (length line) + 1.

(** The loop over the lines, with the stack it ends with. *)
Fixpoint scanLinesState (i : nat) (lines : list (list ascii))
    (stack : list OpenTag) (regions : list LockedRegion)
  : list OpenTag * list LockedRegion :=
  match lines with
  | [] => (stack, regions)
  | line :: rest =>
      let '(stack', regions') := scanLine (Z.of_nat i + 1) line stack regions in
      scanLinesState (S i) rest stack' regions'
  end.

(** The region of a locked tag that closes itself: the line of the tag,
    from the column of its [<] to the column after its [>]. *)
Definition selfClosingRegion (lineNumber : Z) (m : execResult) : LockedRegion :=
  {| startLine := lineNumber;
     endLine := lineNumber;
     startColumn := Z.of_nat (index m) + 1;
     endColumn := Z.of_nat (index m) + Z.of_nat (length (whole m)) + 1 |}.

(** The locked opening tags of a line that end in [/>]. *)
Definition selfClosingTags (line : list ascii) : list execResult :=
  List.filter (fun m => endsWithSelfClose (whole m)) (execAll openTagRegex line).

(** The regions of the self-closing locked tags of the lines, the first
    line being line [i + 1]. *)
Fixpoint selfClosingRegions (i : nat) (lines : list (list ascii)) : list LockedRegion :=
  match lines with
  | [] => []
  | line :: rest =>
      map (selfClosingRegion (Z.of_nat i + 1)) (selfClosingTags line)
      ++ selfClosingRegions (S i) rest
  end.

(** The region is that of a self-closing locked tag of its line. *)
Definition ofSelfClosingTag (lines : list (list ascii)) (region : LockedRegion) : Prop :=
  exists line m,
    lines !! Z.to_nat (startLine region - 1) = Some line
    /\ In m (execAll openTagRegex line)
    /\ endsWithSelfClose (whole m) = true
    /\ region = selfClosingRegion (startLine region) m.

(** The stack when line [n] is read: its entries were opened on the
    lines up to [n]. *)
Definition openedBy (n : Z) (stack : list OpenTag) : Prop :=
  Forall (fun e => 1 <= openLine e /\ openLine e <= n) stack.

(** A locked image that closes itself and, below it, a locked text whose
    closing tag is missing. *)
Definition unclosedSample : string :=
  "<mj-image data-locked=" +:+ q +:+ "true" +:+ q +:+ " />" +:+ nl +:+
  "<mj-text data-locked=" +:+ q +:+ "true" +:+ q +:+ ">Hi".

(** A range or a region with its start at or before its end. *)
Definition rangeInOrder (range : IRange.t) : Prop :=
  atOrBefore (IRange.startLineNumber range) (IRange.startColumn range)
    (IRange.endLineNumber range) (IRange.endColumn range).

Definition regionInOrder (region : LockedRegion) : Prop :=
  atOrBefore (startLine region) (startColumn region) (endLine region) (endColumn region).

(** A position lies in a range: between its start and its end. *)
Definition positionInRange (line column : Z) (range : IRange.t) : Prop :=
  atOrBefore (IRange.startLineNumber range) (IRange.startColumn range) line column
  /\ atOrBefore line column (IRange.endLineNumber range) (IRange.endColumn range).

End LockedText.

(** ** Keyboard events of the editor

    Monaco reports a key by a number of its [KeyCode] enumeration, which
    is not part of the sources: the handlers are modelled over any
    numbering of the keys they name. *)

Module Keys.

Record KeyCodes := mkKeyCodes {
  Backspace : Z; Tab : Z; Enter : Z; Shift : Z; Ctrl : Z; Alt : Z; Escape : Z;
  PageUp : Z; PageDown : Z; End_ : Z; Home : Z;
  LeftArrow : Z; UpArrow : Z; RightArrow : Z; DownArrow : Z; Delete : Z;
  KeyA : Z; KeyC : Z; KeyF : Z; KeyY : Z; KeyZ : Z; Meta : Z;
  F1 : Z; F2 : Z; F3 : Z; F5 : Z; F6 : Z; F7 : Z; F8 : Z; F9 : Z; F10 : Z;
  F11 : Z; F12 : Z
}.

(** [IKeyboardEvent], as far as the handlers read it. *)
Record KeyboardEvent := mkKeyboardEvent {
  keyCode : Z;
  ctrlKey : bool;
  metaKey : bool;
  shiftKey : bool;
  altKey : bool
}.

(** [codes.includes(k)] *)
Definition includes (codes : list Z) (k : Z) : bool := existsb (Z.eqb k) codes.

(** The numbering of Monaco's [KeyCode] enumeration, for the samples. *)
Definition monacoKeyCodes : KeyCodes :=
  {| Backspace := 1; Tab := 2; Enter := 3; Shift := 4; Ctrl := 5; Alt := 6;
     Escape := 9; PageUp := 11; PageDown := 12; End_ := 13; Home := 14;
     LeftArrow := 15; UpArrow := 16; RightArrow := 17; DownArrow := 18;
     Delete := 20; KeyA := 31; KeyC := 33; KeyF := 36; KeyY := 55; KeyZ := 56;
     Meta := 57; F1 := 59; F2 := 60; F3 := 61; F5 := 63; F6 := 64; F7 := 65;
     F8 := 66; F9 := 67; F10 := 68; F11 := 69; F12 := 70 |}.

End Keys.

(** ** The guards of the [useLockedRegions] hook *)

Module UseLockedRegions.
Import LockedRegions Keys.

(** What a handler does to the event and to the editor, in order. *)
Inductive Effect : Type :=
| PreventDefault
| StopPropagation
| ShowWarning (message : string)
| TriggerUndo.

(** [doesChangeAffectLockedRegions]: the early return on an empty list of
    regions, then the loop over the changes of the event with its early
    return. *)
Fixpoint anyChangeLocked (lockedRegions : list LockedRegion) (changes : list IRange.t)
  : bool :=
  match changes with
  | [] => false
  | changeRange :: rest =>
      if isRangeInLockedRegion changeRange lockedRegions then true
      else anyChangeLocked lockedRegions rest
  end.

Definition doesChangeAffectLockedRegions (lockedRegions : list LockedRegion)
    (changes : list IRange.t) : bool :=
  match lockedRegions with
  | [] => false
  | _ :: _ => anyChangeLocked lockedRegions changes
  end.

(** The warning and the timeout that clears it: [lockedWarning] and
    [warningTimeoutRef], the timeout by the time it is due. *)
Record Warning := mkWarning {
  lockedWarning : option string;
  warningTimeout : option Z
}.

(** [showWarning]: a pending timeout is cleared, the message set and a new
    timeout of 2000 ms started. *)
Definition showWarning (now : Z) (message : string) (w : Warning) : Warning :=
  {| lockedWarning := Some message; warningTimeout := Some (now + 2000) |}.

(** Time passes to [now]: a timeout that is due runs its callback,
    [setLockedWarning(null); warningTimeoutRef.current = null]. *)
Definition advance (now : Z) (w : Warning) : Warning :=
  match warningTimeout w with
  | Some due => if due <=? now then mkWarning None None else w
  | None => w
  end.

Section Handlers.

Variable K : KeyCodes.

Definition navigationKeys : list Z :=
  [LeftArrow K; RightArrow K; UpArrow K; DownArrow K; Home K; End_ K; PageUp K;
   PageDown K; Escape K; F1 K; F2 K; F3 K; F5 K; F6 K; F7 K; F8 K; F9 K; F10 K;
   F11 K; F12 K].

(** The keys the handler lets through in a locked region. *)
Definition allowed (e : KeyboardEvent) : bool :=
  let isNavigation := includes navigationKeys (keyCode e) in
  let isModifier :=
    (keyCode e =? Shift K) || (keyCode e =? Ctrl K) || (keyCode e =? Alt K)
    || (keyCode e =? Meta K) in
  let isCtrlCmd := ctrlKey e || metaKey e in
  let isCopy := isCtrlCmd && (keyCode e =? KeyC K) in
  let isSelectAll := isCtrlCmd && (keyCode e =? KeyA K) in
  let isFind := isCtrlCmd && (keyCode e =? KeyF K) in
  let isUndo := isCtrlCmd && (keyCode e =? KeyZ K) in
  let isRedo :=
    isCtrlCmd && ((keyCode e =? KeyY K) || (shiftKey e && (keyCode e =? KeyZ K))) in
  isNavigation || isModifier || isCopy || isSelectAll || isFind || isUndo || isRedo.

(** The [onKeyDown] handler; [selection] is [editor.getSelection()]. *)
Definition onKeyDown (selection : option IRange.t) (lockedRegions : list LockedRegion)
    (e : KeyboardEvent) : list Effect :=
  match selection with
  | None => []
  | Some range =>
      if isRangeInLockedRegion range lockedRegions then
        if allowed e then []
        else [PreventDefault; StopPropagation; ShowWarning "Cannot edit locked region"]
      else []
  end.

End Handlers.

(** The [beforeinput] listener. *)
Definition onBeforeInput (selection : option IRange.t) (lockedRegions : list LockedRegion)
  : list Effect :=
  match selection with
  | None => []
  | Some range =>
      if isRangeInLockedRegion range lockedRegions
      then [PreventDefault; ShowWarning "Cannot edit locked region"]
      else []
  end.

End UseLockedRegions.

(** ** The guards the code editor component installs on mount *)

Module EditorGuards.
Import LockedRegions Keys.

Inductive Effect : Type :=
| PreventDefault
| StopPropagation
| SetLockedWarning (value : option string)
| ClearWarningAfter (delay : Z)     (** [setTimeout(() => setLockedWarning(null), delay)] *)
| TriggerUndo.

(** The two calls every refusal of the component makes. *)
Definition warn (message : string) : list Effect :=
  [SetLockedWarning (Some message); ClearWarningAfter 2000].

(** An edit operation, as far as the guard reads it. *)
Record Edit := mkEdit {
  range : option IRange.t;
  editText : option string
}.

(** [edits.some((edit) => { if (!edit.range) return false; return
    isRangeInLockedRegion(edit.range, lockedRegions); })] *)
Fixpoint hasLockedEdit (lockedRegions : list LockedRegion) (edits : list Edit) : bool :=
  match edits with
  | [] => false
  | edit :: rest =>
      match range edit with
      | Some r =>
          if isRangeInLockedRegion r lockedRegions then true
          else hasLockedEdit lockedRegions rest
      | None => hasLockedEdit lockedRegions rest
      end
  end.

(** What the replaced [executeEdits] does: it refuses, or it hands the
    edits to the original. *)
Inductive Executed : Type :=
| Refused (effects : list Effect)
| Forwarded (edits : list Edit).

Definition executeEdits (lockedRegions : list LockedRegion) (edits : list Edit)
  : Executed :=
  if hasLockedEdit lockedRegions edits
  then Refused (warn "Cannot edit locked region")
  else Forwarded edits.

Section Handlers.

Variable K : KeyCodes.

Definition allowedKeys : list Z :=
  [LeftArrow K; RightArrow K; UpArrow K; DownArrow K; Home K; End_ K; PageUp K;
   PageDown K; Escape K].

Definition editingKeys : list Z := [Backspace K; Delete K; Enter K; Tab K].

(** The [onKeyDown] handler of the component. *)
Definition onKeyDown (selection : option IRange.t) (lockedRegions : list LockedRegion)
    (e : KeyboardEvent) : list Effect :=
  match selection with
  | None => []
  | Some sel =>
      if isRangeInLockedRegion sel lockedRegions then
        let isNavigation := includes allowedKeys (keyCode e) in
        let isCtrlCmd := ctrlKey e || metaKey e in
        let isCopy := isCtrlCmd && (keyCode e =? KeyC K) in
        let isSelectAll := isCtrlCmd && (keyCode e =? KeyA K) in
        if negb isNavigation && negb isCopy && negb isSelectAll then
          if includes editingKeys (keyCode e)
             || (negb isCtrlCmd && negb (altKey e)
                 && (keyCode e >=? KeyA K) && (keyCode e <=? KeyZ K))
          then [PreventDefault; StopPropagation] ++ warn "Cannot edit locked region"
          else []
        else []
      else []
  end.

End Handlers.

(** The [onDidPaste] listener. *)
Definition onDidPaste (selection : option IRange.t) (lockedRegions : list LockedRegion)
  : list Effect :=
  match selection with
  | None => []
  | Some sel =>
      if isRangeInLockedRegion sel lockedRegions
      then TriggerUndo :: warn "Cannot paste in locked region"
      else []
  end.

(** The warning banner of the component and the timeouts that clear it,
    each by the time it is due: no timeout is ever cleared. *)
Record Banner := mkBanner {
  lockedWarning : option string;
  clearAt : list Z
}.

Definition perform (now : Z) (b : Banner) (e : Effect) : Banner :=
  match e with
  | SetLockedWarning value => mkBanner value (clearAt b)
  | ClearWarningAfter delay => mkBanner (lockedWarning b) (clearAt b ++ [now + delay])
  | _ => b
  end.

Definition performAll (now : Z) (b : Banner) (effects : list Effect) : Banner :=
  fold_left (perform now) effects b.

(** Time passes to [now]: the timeouts that are due run, each one sets
    the warning to [null]. *)
Definition advance (now : Z) (b : Banner) : Banner :=
  if existsb (fun due => due <=? now) (clearAt b)
  then mkBanner None (List.filter (fun due => negb (due <=? now)) (clearAt b))
  else b.

End EditorGuards.

(** ** Notions the properties of the guards are stated with *)

Module GuardNotions.
Import LockedRegions Keys.

(** The keys the component refuses in a locked region, whatever the
    modifiers: the four editing keys and the letters. *)
Definition refusedKey (K : KeyCodes) (k : Z) : Prop :=
  In k (EditorGuards.editingKeys K) \/ (KeyA K <= k /\ k <= KeyZ K).

(** A numbering in which none of those keys is a key the hook lets
    through by its code alone, and no editing key is one of the letters
    of the hook's shortcuts. *)
Definition keysApart (K : KeyCodes) : Prop :=
  (forall k, refusedKey K k ->
     ~ In k (UseLockedRegions.navigationKeys K)
     /\ k <> Shift K /\ k <> Ctrl K /\ k <> Alt K /\ k <> Meta K)
  /\ (forall k, In k (EditorGuards.editingKeys K) ->
        k <> KeyC K /\ k <> KeyA K /\ k <> KeyF K /\ k <> KeyZ K /\ k <> KeyY K).

(** A text without locked elements. *)
Definition helloText : string :=
  "<mj-section><mj-column><mj-text>Hi</mj-text></mj-column></mj-section>".

End GuardNotions.

(** ** More samples for the code editor *)

Module CodeEditorSamples.
Import CodeEditor.

(** A parser that returns null on a blank text. *)
Definition blankParser (source : string) : ParseOutcome nat :=
  if bool_decide (source = " "%string) then ReturnedNull
  else Returned (String.length source).

End CodeEditorSamples.

(** ** Notions the properties of the send route are stated with *)

Module SendRouteNotions.
Import SendRoute.

(** The request has the three parts of the email content. *)
Definition hasContent (body : SendEmailRequest) : Prop :=
  falsy (emailField to body) = false
  /\ falsy (emailField subject body) = false
  /\ falsy (emailField html body) = false.

(** The request has the host, the user and the password of an SMTP
    server. *)
Definition smtpConfigured (body : SendEmailRequest) : bool :=
  match smtp body with
  | Some s =>
      negb (falsy (host s)) && negb (falsy (smtpAuthField user body))
      && negb (falsy (smtpAuthField pass body))
  | None => false
  end.

(** What a call throws in a world, if it throws. *)
Definition thrownBy (world : World) (e : Effect) : option (option string) :=
  match e with
  | ResendEmailsSend key message =>
      match resendEmailsSend world key message with
      | Throws m => Some m
      | Yields _ => None
      end
  | CreateTestAccount =>
      match createTestAccount world with
      | Throws m => Some m
      | Yields _ => None
      end
  | CreateTransport _ => None
  | SendMail transport message =>
      match sendMail world transport message with
      | Throws m => Some m
      | Yields _ => None
      end
  end.

(** The send calls of a log. *)
Definition sends (log : list Effect) : list Effect := List.filter isSend log.

(** A call that is no send and does not throw. *)
Definition passes (world : World) (e : Effect) : Prop :=
  isSend e = false /\ thrownBy world e = None.

(** What every answer of the handler looks like: the calls made, the
    last of which decides the answer. *)
Inductive Outcome (world : World) : RequestJson -> Response * list Effect -> Prop :=
| unreadable m :
    Outcome world (JsonRejects m) (caught m, [])
| nullBody :
    Outcome world JsonNull (caught (Some (typeErrorOfNull world)), [])
| refused body message :
    Outcome world (JsonBody body) (mkResponse 400 (ErrorPayload message), [])
| failed body before call m :
    Forall (passes world) before ->
    thrownBy world call = Some m ->
    Outcome world (JsonBody body) (caught m, before ++ [call])
| rejected body key message m :
    thrownBy world (ResendEmailsSend key message) = None ->
    Outcome world (JsonBody body)
      (mkResponse 400 (ErrorPayload m), [ResendEmailsSend key message])
| sent body before call payload :
    Forall (passes world) before ->
    isSend call = true ->
    thrownBy world call = None ->
    Outcome world (JsonBody body) (mkResponse 200 payload, before ++ [call]).

(** Mail services of which one throws. *)
Definition failingWorld : World :=
  mkWorld (fun _ _ => Throws (Some "rate limited"%string))
    (Throws None)
    (fun _ _ => Throws (Some "connection refused"%string))
    (typeErrorOfNull sampleWorld).

Definition sampleSmtp : Smtp :=
  mkSmtp (Some "smtp.example.org"%string) 465 true
    (Some (mkAuth (Some "ann"%string) (Some "secret"%string))).

Definition sampleEmail (sender : option string) : Email :=
  mkEmail sender (Some "bob@example.org"%string) (Some "Hello"%string)
    (Some "<p>Hi</p>"%string) None.

(** A request without a mode, with a server and a sender. *)
Definition modelessRequest : SendEmailRequest :=
  mkRequest None None (Some sampleSmtp)
    (Some (sampleEmail (Some "ann@example.org"%string))).

End SendRouteNotions.

(** ** The UI store

    The zustand store of the panels and view modes: its state, its
    actions (each one a [set] of some fields) and the part of the state
    that [partialize] hands to the persistence middleware. *)

Module UIStore.

Inductive EditorMode : Type := Canvas | Edit | Preview | Code.
Inductive PreviewMode : Type := Desktop | Mobile.
Inductive Tab : Type := Components | Templates.

#[export] Instance EditorMode_eq_dec : EqDecision EditorMode.
Proof. solve_decision. Defined.

Record UIState := mkUIState {
  leftPanelWidth : Z;
  rightPanelWidth : Z;
  editorMode : EditorMode;
  previewMode : PreviewMode;
  showCode : bool;
  showPreview : bool;
  activeTab : Tab;
  isDragging : bool;
  dragOverId : option string
}.

Definition initial : UIState :=
  mkUIState 280 300 Canvas Desktop false false Components false None.

Inductive Action : Type :=
| SetLeftPanelWidth (width : Z)
| SetRightPanelWidth (width : Z)
| SetEditorMode (mode : EditorMode)
| SetPreviewMode (mode : PreviewMode)
| SetShowCode (show : bool)
| SetShowPreview (show : bool)
| SetActiveTab (tab : Tab)
| SetIsDragging (dragging : bool)
| SetDragOverId (id : option string)
| ToggleCode
| TogglePreview.

Definition act (s : UIState) (a : Action) : UIState :=
  match a with
  | SetLeftPanelWidth width =>
      mkUIState width (rightPanelWidth s) (editorMode s) (previewMode s) (showCode s)
        (showPreview s) (activeTab s) (isDragging s) (dragOverId s)
  | SetRightPanelWidth width =>
      mkUIState (leftPanelWidth s) width (editorMode s) (previewMode s) (showCode s)
        (showPreview s) (activeTab s) (isDragging s) (dragOverId s)
  | SetEditorMode mode =>
      mkUIState (leftPanelWidth s) (rightPanelWidth s) mode (previewMode s)
        (bool_decide (mode = Code)) (bool_decide (mode = Preview))
        (activeTab s) (isDragging s) (dragOverId s)
  | SetPreviewMode mode =>
      mkUIState (leftPanelWidth s) (rightPanelWidth s) (editorMode s) mode (showCode s)
        (showPreview s) (activeTab s) (isDragging s) (dragOverId s)
  | SetShowCode show =>
      mkUIState (leftPanelWidth s) (rightPanelWidth s) (editorMode s) (previewMode s) show
        (showPreview s) (activeTab s) (isDragging s) (dragOverId s)
  | SetShowPreview show =>
      mkUIState (leftPanelWidth s) (rightPanelWidth s) (editorMode s) (previewMode s)
        (showCode s) show (activeTab s) (isDragging s) (dragOverId s)
  | SetActiveTab tab =>
      mkUIState (leftPanelWidth s) (rightPanelWidth s) (editorMode s) (previewMode s)
        (showCode s) (showPreview s) tab (isDragging s) (dragOverId s)
  | SetIsDragging dragging =>
      mkUIState (leftPanelWidth s) (rightPanelWidth s) (editorMode s) (previewMode s)
        (showCode s) (showPreview s) (activeTab s) dragging (dragOverId s)
  | SetDragOverId id =>
      mkUIState (leftPanelWidth s) (rightPanelWidth s) (editorMode s) (previewMode s)
        (showCode s) (showPreview s) (activeTab s) (isDragging s) id
  | ToggleCode =>
      mkUIState (leftPanelWidth s) (rightPanelWidth s) (editorMode s) (previewMode s)
        (negb (showCode s)) (showPreview s) (activeTab s) (isDragging s) (dragOverId s)
  | TogglePreview =>
      mkUIState (leftPanelWidth s) (rightPanelWidth s) (editorMode s) (previewMode s)
        (showCode s) (negb (showPreview s)) (activeTab s) (isDragging s) (dragOverId s)
  end.

Definition run (s : UIState) (actions : list Action) : UIState := fold_left act actions s.

(** [partialize]: what is written to the storage. *)
Definition partialize (s : UIState) : EditorMode * PreviewMode :=
  (editorMode s, previewMode s).

(** The mode the last [setEditorMode] of a sequence of actions gave, and
    the same for [setPreviewMode]. *)
Fixpoint lastEditorMode (start : EditorMode) (actions : list Action) : EditorMode :=
  match actions with
  | [] => start
  | SetEditorMode mode :: rest => lastEditorMode mode rest
  | _ :: rest => lastEditorMode start rest
  end.

Fixpoint lastPreviewMode (start : PreviewMode) (actions : list Action) : PreviewMode :=
  match actions with
  | [] => start
  | SetPreviewMode mode :: rest => lastPreviewMode mode rest
  | _ :: rest => lastPreviewMode start rest
  end.

End UIStore.

(** ** The end of a drag in the editor shell *)

Module DragAndDrop.

(** [active.data.current] and [over.data.current], as far as the handlers
    read them; a field that is absent is [None]. *)
Record ActiveData := mkActiveData {
  dragType : option string;
  componentType : option string;
  nodeId : option string
}.

Record OverData := mkOverData {
  overNodeId : option string;
  index : option Z
}.

Record Active := mkActive { activeId : string; activeData : option ActiveData }.

(** [over] is null when the drag ends over nothing. *)
Record DragEndEvent := mkDragEnd {
  active : Active;
  over : option (option OverData)
}.

Inductive Effect : Type :=
| SetIsDragging (dragging : bool)
| SetActiveId (id : option string)
| SetActiveType (type : option string)
| AddNode (targetId : option string) (type : option string) (index : option Z)
| MoveNode (nodeId targetId : option string) (index : Z).

Definition handleDragStart (a : Active) : list Effect :=
  [SetIsDragging true; SetActiveId (Some (activeId a));
   match activeData a with
   | Some data =>
       if bool_decide (dragType data = Some "new-component"%string)
       then SetActiveType (componentType data)
       else SetActiveType None
   | None => SetActiveType None
   end].

(** The store calls after the state of the drag is cleared. *)
Definition drop (event : DragEndEvent) : list Effect :=
  match over event with
  | None => []
  | Some overData =>
      match activeData (active event), overData with
      | Some activeData, Some overData =>
          if bool_decide (dragType activeData = Some "new-component"%string) then
            [AddNode (overNodeId overData) (componentType activeData) (index overData)]
          else if bool_decide (dragType activeData = Some "existing-node"%string) then
            if bool_decide (nodeId activeData = overNodeId overData) then []
            else [MoveNode (nodeId activeData) (overNodeId overData)
                    (default 0 (index overData))]
          else []
      | _, _ => []
      end
  end.

Definition handleDragEnd (event : DragEndEvent) : list Effect :=
  [SetIsDragging false; SetActiveId None; SetActiveType None] ++ drop event.

Definition handleDragCancel : list Effect :=
  [SetIsDragging false; SetActiveId None; SetActiveType None].

(** The drag state of the shell, and what the effects do to it. *)
Record DragState := mkDragState {
  isDragging : bool;
  draggedId : option string;
  draggedType : option string
}.

Definition apply (s : DragState) (e : Effect) : DragState :=
  match e with
  | SetIsDragging dragging => mkDragState dragging (draggedId s) (draggedType s)
  | SetActiveId id => mkDragState (isDragging s) id (draggedType s)
  | SetActiveType type => mkDragState (isDragging s) (draggedId s) type
  | _ => s
  end.

Definition applyAll (s : DragState) (effects : list Effect) : DragState :=
  fold_left apply effects s.

(** The calls to the store among the effects. *)
Definition isStoreCall (e : Effect) : bool :=
  match e with AddNode _ _ _ | MoveNode _ _ _ => true | _ => false end.

End DragAndDrop.

(** ** The size of the icons of the social block on the canvas *)

Module SocialNode.
Import Chars.

(** The white space [parseInt] skips at the start of a text, among the
    one-byte characters: tab, line feed, vertical tab, form feed,
    carriage return, space and no-break space. *)
Definition isStrWhiteSpace (c : ascii) : bool :=
  ((9 <=? codeOf c)%nat && (codeOf c <=? 13)%nat)
  || (codeOf c =? 32)%nat || (codeOf c =? 160)%nat.

Fixpoint dropWhiteSpace (s : list ascii) : list ascii :=
  match s with
  | c :: s' => if isStrWhiteSpace c then dropWhiteSpace s' else s
  | [] => []
  end.

Definition digitValue (c : ascii) : Z := Z.of_nat (codeOf c) - 48.

(** The value of the decimal digits at the start of a text, after the
    digits that gave [acc]. *)
Fixpoint digits (acc : Z) (s : list ascii) : Z :=
  match s with
  | c :: s' => if isDigit c then digits (10 * acc + digitValue c) s' else acc
  | [] => acc
  end.

(** [parseInt(text, 10)]; [None] is [NaN].  The integer is the one the
    digits spell: JavaScript rounds it to a double, which changes nothing
    below 2^53 and leaves what is above far above the sizes compared
    with here. *)
Definition parseInt (s : string) : option Z :=
  let trimmed := dropWhiteSpace (chars s) in
  let '(sign, rest) :=
    match trimmed with
    | c :: r =>
        if Ascii.eqb c "-" then (-1, r)
        else if Ascii.eqb c "+" then (1, r)
        else (1, trimmed)
    | [] => (1, trimmed)
    end in
  match rest with
  | c :: _ => if isDigit c then Some (sign * digits 0 rest) else None
  | [] => None
  end.

(** [(node.props["icon-size"] as string) || "20px"] *)
Definition iconSize (prop : option string) : string :=
  match prop with
  | Some s => if bool_decide (s = EmptyString) then "20px"%string else s
  | None => "20px"%string
  end.

(** [parseInt(iconSize, 10) || 20]: [NaN] and zero are falsy. *)
Definition sizeNum (prop : option string) : Z :=
  match parseInt (iconSize prop) with
  | Some n => if n =? 0 then 20 else n
  | None => 20
  end.

(** [Math.max(24, Math.min(48, sizeNum))] *)
Definition displaySize (prop : option string) : Z :=
  Z.max 24 (Z.min 48 (sizeNum prop)).

(** A size in pixels, as it is written in the attribute. *)
Definition pixels (n : nat) : string :=
  (DecimalString.NilEmpty.string_of_uint (Nat.to_uint n) +:+ "px")%string.

End SocialNode.

(** * Properties *)

(** ** Locked regions: what a closing tag does to the stack *)

Module LockedRegionsFacts.
Import Chars Regex LockedRegions.

Lemma sameName_true a b : sameName a b = true <-> a = b.
Proof. unfold sameName. apply bool_decide_eq_true. Qed.

Lemma sameName_false a b : sameName a b = false <-> a <> b.
Proof. unfold sameName. apply bool_decide_eq_false. Qed.

Lemma spliceTopmost_none name stack :
  Forall (fun e => tagName e <> name) stack -> spliceTopmost name stack = None.
Proof.
  induction 1 as [|e above Hne _ IH]; simpl; [reflexivity|].
  rewrite IH. apply sameName_false in Hne. now rewrite Hne.
Qed.

Lemma spliceTopmost_found name below openTag above :
  tagName openTag = name ->
  Forall (fun e => tagName e <> name) above ->
  spliceTopmost name (below ++ openTag :: above) = Some (openTag, below ++ above).
Proof.
  intros Hname Habove.
  induction below as [|e below IH]; simpl.
  - rewrite (spliceTopmost_none _ _ Habove).
    apply sameName_true in Hname. now rewrite Hname.
  - now rewrite IH.
Qed.

Lemma cutAtTopmost_none name stack :
  Forall (fun e => tagName e <> name) stack -> cutAtTopmost name stack = None.
Proof.
  induction 1 as [|e above Hne _ IH]; simpl; [reflexivity|].
  rewrite IH. apply sameName_false in Hne. now rewrite Hne.
Qed.

Lemma cutAtTopmost_found name below openTag above :
  tagName openTag = name ->
  Forall (fun e => tagName e <> name) above ->
  cutAtTopmost name (below ++ openTag :: above) = Some (below, openTag :: above).
Proof.
  intros Hname Habove.
  induction below as [|e below IH]; simpl.
  - rewrite (cutAtTopmost_none _ _ Habove).
    apply sameName_true in Hname. now rewrite Hname.
  - now rewrite IH.
Qed.

(** Every stack either has no entry of a name or splits at its topmost one. *)
Lemma stack_split name (stack : list OpenTag) :
  Forall (fun e => tagName e <> name) stack
  \/ exists below openTag above,
       stack = below ++ openTag :: above /\ tagName openTag = name
       /\ Forall (fun e => tagName e <> name) above.
Proof.
  induction stack as [|e stack IH]; [left; constructor|].
  destruct IH as [Hnone | (below & o & above & -> & Hn & Ha)].
  - destruct (decide (tagName e = name)) as [Heq|Hne].
    + right. exists [], e, stack. auto.
    + left. constructor; assumption.
  - right. exists (e :: below), o, above. auto.
Qed.

(** C2, as amended.  A closing tag met by [findLockedRegions] is looked up
    in its stack of open locked tags from the top.  When an entry of that
    name is found, only this entry leaves the stack and its region, from
    its start line to the current line, is recorded: the entries opened
    after it stay open, where the policy that closes the intervening
    entries ([closeNested]) closes them with it.  When no entry has that
    name the closing tag is ignored, under both policies. *)
Theorem closeTag_takes_only_the_match :
  forall lineNumber lineLength name regions,
    (forall below openTag above,
        tagName openTag = name ->
        Forall (fun e => tagName e <> name) above ->
        closeTag lineNumber lineLength name (below ++ openTag :: above) regions
        = (below ++ above, regions ++ [closedRegion lineNumber lineLength openTag])
        /\ closeNested lineNumber lineLength name (below ++ openTag :: above) regions
           = (below,
              regions ++ map (closedRegion lineNumber lineLength) (rev (openTag :: above))))
    /\ (forall stack,
           Forall (fun e => tagName e <> name) stack ->
           closeTag lineNumber lineLength name stack regions = (stack, regions)
           /\ closeNested lineNumber lineLength name stack regions = (stack, regions)).
Proof.
  intros lineNumber lineLength name regions. split.
  - intros below openTag above Hname Habove. unfold closeTag, closeNested.
    rewrite (spliceTopmost_found _ _ _ _ Hname Habove).
    rewrite (cutAtTopmost_found _ _ _ _ Hname Habove). auto.
  - intros stack Hnone. unfold closeTag, closeNested.
    rewrite (spliceTopmost_none _ _ Hnone), (cutAtTopmost_none _ _ Hnone). auto.
Qed.

(** C2, the claim as stated fails: on two locked elements closed in the
    order they were opened, [findLockedRegions] keeps the second one open
    until its own closing tag on line 4, where the policy that closes the
    intervening entries ends it on line 3. *)
Lemma findLockedRegions_not_nested :
  findLockedRegions crossedSample = [mkRegion 1 3 1 14; mkRegion 2 4 1 11]
  /\ findLockedRegionsNested crossedSample = [mkRegion 2 3 1 14; mkRegion 1 3 1 14]
  /\ findLockedRegions crossedSample <> findLockedRegionsNested crossedSample.
Proof.
  split; [|split]; [vm_compute; reflexivity .. |].
  vm_compute. discriminate.
Qed.

(** The two policies on the stack of the sample, at its third line. *)
Lemma closeTag_sample :
  let section := mkOpen (chars "mj-section") 1 1 in
  let textTag := mkOpen (chars "mj-text") 2 1 in
  closeTag 3 13 (chars "mj-section") [section; textTag] []
  = ([textTag], [mkRegion 1 3 1 14])
  /\ closeNested 3 13 (chars "mj-section") [section; textTag] []
     = ([], [mkRegion 2 3 1 14; mkRegion 1 3 1 14]).
Proof.
  cbn zeta.
  apply (proj1 (closeTag_takes_only_the_match 3 13%nat (chars "mj-section") [])
           [] (mkOpen (chars "mj-section") 1 1) [mkOpen (chars "mj-text") 2 1] eq_refl).
  constructor; [vm_compute; discriminate | constructor].
Defined.

(** On elements closed in the order of their nesting the two policies
    agree: a self-closing locked image, a locked text opened and closed on
    one line, and the locked section around them. *)
Example findLockedRegions_nestedSample :
  findLockedRegions nestedSample
  = [mkRegion 2 2 3 46; mkRegion 3 3 1 43; mkRegion 1 4 1 14]
  /\ findLockedRegionsNested nestedSample = findLockedRegions nestedSample.
Proof. split; vm_compute; reflexivity. Qed.

End LockedRegionsFacts.

(** ** Locked regions: ranges inside a region and apart from all *)

Module RangeFacts.
Import LockedRegions.

Lemma overlaps_true_iff range region :
  overlaps range region = true <->
  atOrBefore (IRange.startLineNumber range) (IRange.startColumn range)
             (endLine region) (endColumn region)
  /\ atOrBefore (startLine region) (startColumn region)
                (IRange.endLineNumber range) (IRange.endColumn range).
Proof.
  unfold overlaps, atOrBefore.
  rewrite andb_true_iff, !orb_true_iff, !andb_true_iff.
  rewrite Z.ltb_lt, Z.gtb_lt, !Z.eqb_eq, Z.leb_le, Z.geb_le. intuition lia.
Qed.

Lemma isRangeInLockedRegion_true_iff range lockedRegions :
  isRangeInLockedRegion range lockedRegions = true <->
  Exists (fun region => overlaps range region = true) lockedRegions.
Proof.
  induction lockedRegions as [|region rest IH]; simpl.
  - split; [discriminate | intros H; inversion H].
  - destruct (overlaps range region) eqn:E.
    + split; [intros _; now constructor | reflexivity].
    + rewrite IH. split; [now constructor|].
      intros H. inversion H; subst; [congruence | assumption].
Qed.

Lemma within_overlaps range region : within range region -> overlaps range region = true.
Proof.
  intros [[_ Hs] [He _]]. apply overlaps_true_iff. split; assumption.
Qed.

Lemma linesBefore_no_overlap range region :
  linesBefore range region -> overlaps range region = false.
Proof.
  intros [_ He]. apply not_true_is_false. rewrite overlaps_true_iff.
  unfold atOrBefore. lia.
Qed.

Lemma linesAfter_no_overlap range region :
  linesAfter range region -> overlaps range region = false.
Proof.
  intros [Hs _]. apply not_true_is_false. rewrite overlaps_true_iff.
  unfold atOrBefore. lia.
Qed.

Lemma no_overlap_false range lockedRegions :
  Forall (fun region => overlaps range region = false) lockedRegions ->
  isRangeInLockedRegion range lockedRegions = false.
Proof.
  induction 1 as [|region rest H _ IH]; simpl; [reflexivity|]. now rewrite H.
Qed.

(** C9.  [isRangeInLockedRegion] is true when the range lies entirely
    within some region, both of its ends between the start and the end of
    the region; it is false when the lines of the range are strictly
    before the start line of every region, and when they are strictly
    after the end line of every region. *)
Theorem isRangeInLockedRegion_within_and_apart :
  forall range lockedRegions,
    (Exists (within range) lockedRegions ->
     isRangeInLockedRegion range lockedRegions = true)
    /\ (Forall (linesBefore range) lockedRegions ->
        isRangeInLockedRegion range lockedRegions = false)
    /\ (Forall (linesAfter range) lockedRegions ->
        isRangeInLockedRegion range lockedRegions = false).
Proof.
  intros range lockedRegions. repeat split.
  - intros H. apply isRangeInLockedRegion_true_iff.
    eapply Exists_impl; [exact H|]. intros region. apply within_overlaps.
  - intros H. apply no_overlap_false.
    eapply Forall_impl; [exact H|]. intros region. apply linesBefore_no_overlap.
  - intros H. apply no_overlap_false.
    eapply Forall_impl; [exact H|]. intros region. apply linesAfter_no_overlap.
Qed.

(** A range inside the sample region, one above it and one below it. *)
Lemma isRangeInLockedRegion_sample :
  isRangeInLockedRegion (IRange.mk 3 4 4 2) sampleRegions = true
  /\ isRangeInLockedRegion (IRange.mk 1 1 1 80) sampleRegions = false
  /\ isRangeInLockedRegion (IRange.mk 6 1 9 3) sampleRegions = false.
Proof.
  split; [|split].
  - apply (proj1 (isRangeInLockedRegion_within_and_apart (IRange.mk 3 4 4 2) sampleRegions)).
    apply Exists_cons_hd. unfold within, positionIn, atOrBefore. simpl. lia.
  - apply (proj1 (proj2 (isRangeInLockedRegion_within_and_apart
                           (IRange.mk 1 1 1 80) sampleRegions))).
    constructor; [|constructor]. unfold linesBefore. simpl. lia.
  - apply (proj2 (proj2 (isRangeInLockedRegion_within_and_apart
                           (IRange.mk 6 1 9 3) sampleRegions))).
    constructor; [|constructor]. unfold linesAfter. simpl. lia.
Defined.

End RangeFacts.

(** ** The code editor: the sync paths and the debounce *)

Module CodeEditorFacts.
Import CodeEditor.

Section Component.

Context {EditorNode HeadSettings : Type}.
Variable parseMjmlToNode : string -> ParseOutcome EditorNode.
Variable generateMjml : EditorNode -> HeadSettings -> string.

Implicit Type c : Component EditorNode HeadSettings.

Lemma code_edited c source :
  editedCode c = Some source -> code generateMjml c = source.
Proof. unfold code. now intros ->. Qed.

Lemma commit_same now c c' :
  deps generateMjml c = deps generateMjml c' -> commit generateMjml now c c' = c'.
Proof. intros H. unfold commit. now rewrite bool_decide_eq_true_2. Qed.

Lemma commit_changed now c c' :
  deps generateMjml c <> deps generateMjml c' ->
  commit generateMjml now c c' = runEffect generateMjml now (withTimer c' None).
Proof. intros H. unfold commit. now rewrite bool_decide_eq_false_2. Qed.

Lemma performAll_calls c cs : calls (performAll c cs) = calls c ++ cs.
Proof.
  unfold performAll. revert c. induction cs as [|call cs IH]; intros c.
  - simpl. now rewrite app_nil_r.
  - cbn [fold_left]. rewrite IH.
    destruct call; simpl; now rewrite <- app_assoc.
Qed.

(** The auto-sync callback never writes [editedCode]. *)
Lemma autoSync_keeps_editedCode now source c :
  editedCode (performAll c (autoSyncCalls parseMjmlToNode now source)) = editedCode c.
Proof. unfold autoSyncCalls. destruct (parseMjmlToNode source); reflexivity. Qed.

(** While the editor is dirty, [code] is the edited text whatever the
    document is, so the callback changes no dependency of its effect. *)
Lemma fire_dirty now source c edited :
  editedCode c = Some edited ->
  fire parseMjmlToNode generateMjml now source c
  = performAll (withTimer c None) (autoSyncCalls parseMjmlToNode now source).
Proof.
  intros He. unfold fire. apply commit_same.
  unfold deps, code, isDirty. rewrite autoSync_keeps_editedCode. simpl. now rewrite He.
Qed.

Lemma parseCalls_app (l1 l2 : list (Call EditorNode)) :
  parseCalls (l1 ++ l2) = parseCalls l1 ++ parseCalls l2.
Proof.
  induction l1 as [|call l1 IH]; [reflexivity|].
  destruct call; simpl; now rewrite IH.
Qed.

Lemma parseCalls_autoSync now source :
  parseCalls (autoSyncCalls parseMjmlToNode now source) = [(now, source)].
Proof. unfold autoSyncCalls. destruct (parseMjmlToNode source); reflexivity. Qed.

(** The timer fires while the editor is dirty: one more parser call, the
    text stays edited. *)
Lemma fire_parses_once now source c edited :
  editedCode c = Some edited ->
  let c' := fire parseMjmlToNode generateMjml now source c in
  editedCode c' = Some edited
  /\ parseCalls (calls c') = parseCalls (calls c) ++ [(now, source)].
Proof.
  intros He. cbn zeta. rewrite (fire_dirty _ _ _ _ He). split.
  - now rewrite autoSync_keeps_editedCode.
  - now rewrite performAll_calls, parseCalls_app, parseCalls_autoSync.
Qed.

(** A keystroke that changes the text restarts the timer. *)
Lemma handleChange_restarts now v c :
  editedCode c <> Some v ->
  let c' := handleChange generateMjml now (Some v) c in
  editedCode c' = Some v /\ timer c' = Some (now + 500, v)
  /\ parseCalls (calls c') = parseCalls (calls c).
Proof.
  intros Hne. cbn zeta. unfold handleChange. rewrite commit_changed.
  - unfold runEffect. simpl. repeat split.
    rewrite !parseCalls_app. simpl. now rewrite !app_nil_r.
  - unfold deps, code, isDirty. simpl.
    destruct (editedCode c) as [w|]; [|discriminate].
    intros [= ->]. now apply Hne.
Qed.

(** What a pending timer leads to: with the timer of keystroke [k]
    pending, the parser is called for [k] and for the later keystrokes
    that are followed by a pause. *)
Lemma typing_pending rest : forall k c until,
  editedCode c = Some (typed k) ->
  timer c = Some (at_ k + 500, typed k) ->
  eachChanges (Some (typed k)) rest ->
  parseCalls (calls (advance parseMjmlToNode generateMjml until
                       (typing parseMjmlToNode generateMjml rest c)))
  = parseCalls (calls c)
    ++ map (fun k' => (at_ k' + 500, typed k')) (pauses (k :: rest) until).
Proof.
  induction rest as [|k' rest IH]; intros k c until He Ht Hch.
  - simpl. unfold advance. rewrite Ht.
    destruct (at_ k + 500 <=? until) eqn:Hdue; simpl.
    + now destruct (fire_parses_once (at_ k + 500) (typed k) c _ He) as [_ ->].
    + now rewrite app_nil_r.
  - destruct Hch as [Hne Hch]. cbn [typing].
    set (c1 := advance parseMjmlToNode generateMjml (at_ k') c).
    assert (H1 : editedCode c1 = Some (typed k)
                 /\ parseCalls (calls c1)
                    = parseCalls (calls c)
                      ++ (if at_ k + 500 <=? at_ k' then [(at_ k + 500, typed k)] else [])).
    { unfold c1, advance. rewrite Ht.
      destruct (at_ k + 500 <=? at_ k'); [|now rewrite app_nil_r].
      exact (fire_parses_once (at_ k + 500) (typed k) c _ He). }
    destruct H1 as [He1 Hc1].
    assert (Hne1 : editedCode c1 <> Some (typed k')) by (rewrite He1; exact Hne).
    destruct (handleChange_restarts (at_ k') (typed k') c1 Hne1) as (He2 & Ht2 & Hc2).
    rewrite (IH k' _ until He2 Ht2 Hch), Hc2, Hc1.
    cbn [pauses]. rewrite <- app_assoc. f_equal.
    destruct (at_ k + 500 <=? at_ k'); reflexivity.
Qed.

Lemma pauses_length keys until : (length (pauses keys until) <= length keys)%nat.
Proof.
  induction keys as [|k rest IH]; simpl; [lia|].
  destruct (at_ k + 500 <=? _); simpl; lia.
Qed.

Lemma pauses_burst keys until : burst keys -> (length (pauses keys until) <= 1)%nat.
Proof.
  induction keys as [|k rest IH]; simpl; [lia|].
  destruct rest as [|k' rest'].
  - intros _. destruct (at_ k + 500 <=? until); simpl; lia.
  - intros [Hlt Hb]. specialize (IH Hb).
    destruct (at_ k + 500 <=? at_ k') eqn:E; [apply Z.leb_le in E; lia|exact IH].
Qed.

(** C8.  Debounce: after any sequence of keystrokes that each change the
    text, the parser has been called exactly once for every keystroke
    that was followed by a pause of 500 ms, on the text of that keystroke
    and at the end of the pause; a keystroke within the 500 ms of the one
    before cancels the pending call.  So the parser is never called more
    often than there are keystrokes, and at most once for keystrokes that
    each come within 500 ms of the one before. *)
Theorem auto_sync_parses_once_per_pause :
  forall doc head keys until,
    eachChanges None keys ->
    let parsed :=
      parseCalls (calls (advance parseMjmlToNode generateMjml until
                           (typing parseMjmlToNode generateMjml keys (mount doc head)))) in
    parsed = map (fun k => (at_ k + 500, typed k)) (pauses keys until)
    /\ (length parsed <= length keys)%nat
    /\ (burst keys -> (length parsed <= 1)%nat).
Proof.
  intros doc head keys until Hch. cbn zeta.
  assert (Heq : parseCalls (calls (advance parseMjmlToNode generateMjml until
                           (typing parseMjmlToNode generateMjml keys (mount doc head))))
                = map (fun k => (at_ k + 500, typed k)) (pauses keys until)).
  { destruct keys as [|k rest]; [reflexivity|].
    destruct Hch as [Hne Hch]. cbn [typing].
    assert (Hm : editedCode (advance parseMjmlToNode generateMjml (at_ k) (mount doc head))
                 <> Some (typed k)) by (simpl; discriminate).
    destruct (handleChange_restarts (at_ k) (typed k) _ Hm) as (He & Ht & Hc).
    rewrite (typing_pending rest k _ until He Ht Hch), Hc. reflexivity. }
  rewrite Heq, length_map. repeat split.
  - apply pauses_length.
  - apply pauses_burst.
Qed.

(** Without the condition that each edit changes the text: an edit that
    reports the text already held leaves the effect as it is, so the
    pending parse is not cancelled.  Of two such edits 400 ms apart the
    text is parsed at 500 ms, 100 ms after the last edit and before any
    pause of 500 ms; four edits in one burst are parsed twice. *)
Lemma auto_sync_not_cancelled_by_same_text :
  parseCalls (calls (advance sampleParser sampleSerializer 600
                       (typing sampleParser sampleSerializer repeatedKeys
                          (mount 7%nat tt))))
  = [(500, "<mj"%string)]
  /\ pauses repeatedKeys 600 = []
  /\ burst repeatedBurst
  /\ parseCalls (calls (advance sampleParser sampleSerializer 2000
                          (typing sampleParser sampleSerializer repeatedBurst
                             (mount 7%nat tt))))
     = [(500, "<mj"%string); (1300, "<mj-"%string)].
Proof. vm_compute. repeat split; reflexivity. Qed.

(** C3.  Both sync paths, the timeout callback of the auto-sync effect
    and [handleSync], on the edited text: when the parser throws, they
    call nothing but the parser and [setError] with the message of the
    error, so [setDocument] is not called and the document stays as it
    is; when the parser returns a node, they call [setDocument] with this
    node, and [handleSync] also clears the edited code and the error. *)
Theorem sync_paths_on_parse_result :
  forall now c source,
    editedCode c = Some source ->
    (forall message,
        parseMjmlToNode source = Threw message ->
        let auto := fire parseMjmlToNode generateMjml now source c in
        let sync := handleSync parseMjmlToNode generateMjml now c in
        document auto = document c
        /\ calls auto = calls c ++ [ParseMjmlToNode now source; SetError (Some message)]
        /\ error auto = Some message
        /\ document sync = document c
        /\ calls sync = calls c ++ [ParseMjmlToNode now source; SetError (Some message)]
        /\ error sync = Some message)
    /\ (forall node,
           parseMjmlToNode source = Returned node ->
           let auto := fire parseMjmlToNode generateMjml now source c in
           let sync := handleSync parseMjmlToNode generateMjml now c in
           document auto = node
           /\ calls auto
              = calls c ++ [ParseMjmlToNode now source; SetDocument node; SetError None]
           /\ document sync = node
           /\ calls sync
              = calls c ++ [ParseMjmlToNode now source; SetDocument node;
                            SetEditedCode None; SetError None]
           /\ editedCode sync = None
           /\ error sync = None).
Proof.
  intros now c source He. split.
  - intros message Hp. cbn zeta.
    rewrite (fire_dirty _ _ _ _ He).
    unfold handleSync. rewrite (code_edited _ _ He).
    rewrite commit_same.
    + rewrite !performAll_calls.
      unfold autoSyncCalls, handleSyncCalls. rewrite Hp. simpl. auto 10.
    + unfold handleSyncCalls. rewrite Hp. reflexivity.
  - intros node Hp. cbn zeta.
    rewrite (fire_dirty _ _ _ _ He).
    unfold handleSync. rewrite (code_edited _ _ He).
    rewrite commit_changed.
    + unfold autoSyncCalls, handleSyncCalls. rewrite Hp. simpl.
      rewrite <- !app_assoc. simpl. auto 10.
    + unfold handleSyncCalls, deps, isDirty. rewrite Hp. simpl. rewrite He.
      intros [= _ Hd].
Qed.

End Component.

(** Five keystrokes in two bursts: two calls of the parser. *)
Lemma auto_sync_parses_once_per_pause_sample :
  let parsed :=
    parseCalls (calls (advance sampleParser sampleSerializer 2000
                         (typing sampleParser sampleSerializer sampleKeys (mount 0%nat tt)))) in
  parsed = [(760, "<mj"%string); (1500, "<mj-t"%string)]
  /\ (length parsed <= length sampleKeys)%nat
  /\ (burst sampleKeys -> (length parsed <= 1)%nat).
Proof.
  apply (auto_sync_parses_once_per_pause sampleParser sampleSerializer 0%nat tt sampleKeys 2000).
  vm_compute. repeat split; discriminate.
Defined.

(** An edit the sample parser rejects and one it accepts. *)
Lemma sync_paths_on_parse_result_sample :
  (let c := sampleEditor "<mj-text" in
   let auto := fire sampleParser sampleSerializer 500 "<mj-text" c in
   let sync := handleSync sampleParser sampleSerializer 500 c in
   document auto = 7%nat
   /\ error auto = Some "unterminated tag"%string
   /\ document sync = 7%nat
   /\ error sync = Some "unterminated tag"%string
   /\ editedCode sync = Some "<mj-text"%string)
  /\ (let c := sampleEditor "<mj-section>" in
      let auto := fire sampleParser sampleSerializer 500 "<mj-section>" c in
      let sync := handleSync sampleParser sampleSerializer 500 c in
      document auto = 12%nat
      /\ document sync = 12%nat
      /\ editedCode sync = None
      /\ error sync = None).
Proof.
  split; cbn zeta.
  - destruct (proj1 (sync_paths_on_parse_result sampleParser sampleSerializer 500
                       (sampleEditor "<mj-text") "<mj-text" eq_refl)
                "unterminated tag"%string eq_refl)
      as (Hd & _ & He & Hd' & _ & He').
    repeat split; assumption.
  - destruct (proj2 (sync_paths_on_parse_result sampleParser sampleSerializer 500
                       (sampleEditor "<mj-section>") "<mj-section>" eq_refl)
                12%nat eq_refl)
      as (Hd & _ & Hd' & _ & He & He').
    repeat split; assumption.
Defined.

End CodeEditorFacts.

(** ** The send route: the requests it refuses *)

Module SendRouteFacts.
Import SendRoute.

Lemma handle_lacking_content world body :
  lacksContent body ->
  handle world body
  = (mkResponse 400 (ErrorPayload "Missing email content (to, subject, html)"), []).
Proof.
  intros H. unfold handle.
  assert (E : falsy (emailField to body) || falsy (emailField subject body)
              || falsy (emailField html body) = true).
  { destruct H as [-> | [-> | ->]]; rewrite ?orb_true_r; reflexivity. }
  now rewrite E.
Qed.

Lemma handle_resend_without_key world body :
  mode body = Some "resend"%string ->
  falsy (resendApiKey body) = true ->
  handle world body
  = (mkResponse 400
       (ErrorPayload (if falsy (emailField to body) || falsy (emailField subject body)
                         || falsy (emailField html body)
                      then "Missing email content (to, subject, html)"
                      else "Missing Resend API Key")), []).
Proof.
  intros Hm Hk. unfold handle.
  destruct (falsy (emailField to body) || falsy (emailField subject body)
            || falsy (emailField html body)); [reflexivity|].
  rewrite bool_decide_eq_true_2 by exact Hm.
  unfold sendWithResend. now rewrite Hk.
Qed.

(** C10.  A request whose JSON body is not [null] and lacks [email.to],
    [email.subject] or [email.html] is answered with status 400 and an
    error message, and no call to a mail service is made; so is such a
    body with mode resend and no [resendApiKey].  The body [null] lacks
    all three as well, but reading [body.email] of it throws: the
    [catch] block answers 500 with the message of the [TypeError], again
    without a call to a mail service. *)
Theorem POST_rejects_incomplete_requests :
  forall world,
    (forall body,
        lacksContent body ->
        POST world (JsonBody body)
        = (mkResponse 400 (ErrorPayload "Missing email content (to, subject, html)"), []))
    /\ (forall body,
          mode body = Some "resend"%string ->
          falsy (resendApiKey body) = true ->
          exists message,
            POST world (JsonBody body) = (mkResponse 400 (ErrorPayload message), []))
    /\ POST world JsonNull = (mkResponse 500 (ErrorPayload (typeErrorOfNull world)), []).
Proof.
  intros world. repeat split.
  - intros body. apply handle_lacking_content.
  - intros body Hm Hk. eexists. simpl. apply handle_resend_without_key; assumption.
Qed.

(** A Resend request without a recipient, and one without a key. *)
Lemma POST_rejects_incomplete_requests_sample :
  POST sampleWorld (JsonBody (sampleRequest None (Some "re_123"%string)))
  = (mkResponse 400 (ErrorPayload "Missing email content (to, subject, html)"), [])
  /\ exists message,
      POST sampleWorld (JsonBody (sampleRequest (Some "ann@example.org"%string) None))
      = (mkResponse 400 (ErrorPayload message), []).
Proof.
  split.
  - apply (proj1 (POST_rejects_incomplete_requests sampleWorld)
             (sampleRequest None (Some "re_123"%string))).
    left. reflexivity.
  - apply (proj1 (proj2 (POST_rejects_incomplete_requests sampleWorld))
             (sampleRequest (Some "ann@example.org"%string) None));
      reflexivity.
Defined.

(** The body [null] has no [email.to], and the answer is 500, not 400. *)
Lemma POST_null_body_answers_500 :
  incomplete JsonNull
  /\ POST sampleWorld JsonNull
     = (mkResponse 500 (ErrorPayload "Cannot read properties of null (reading 'email')"),
        [])
  /\ status (POST sampleWorld JsonNull).1 <> 400.
Proof. repeat split. discriminate. Qed.

End SendRouteFacts.

(** ** The document core: identifiers and copies *)

Module MjmlFacts.
Import Chars Mjml.
Local Close Scope Z_scope.

(** Induction over a tree, with the property of every child at hand. *)
Lemma Node_ind {Id} (P : Node Id -> Prop) :
  (forall i t p cs c, Forall P cs -> P (mkNode i t p cs c)) ->
  forall n, P n.
Proof.
  intros step. fix IH 1. intros [i t p cs c]. apply step.
  induction cs as [|child cs IHcs]; constructor; [apply IH | exact IHcs].
Qed.

Lemma sizes_cons {Id} (n : Node Id) cs : sizes (n :: cs) = (size n + sizes cs)%nat.
Proof. reflexivity. Qed.

Lemma size_node {Id} (i : Id) t p cs c : size (mkNode i t p cs c) = S (sizes cs).
Proof. reflexivity. Qed.

Lemma genMap_cons {A B} (f : A -> Gen B) a rest counter :
  genMap f (a :: rest) counter
  = ((f a counter).1 :: (genMap f rest (f a counter).2).1,
     (genMap f rest (f a counter).2).2).
Proof.
  cbn [genMap]. unfold mbind, Gen_bind, mret, Gen_ret.
  destruct (f a counter) as [b c1]. simpl.
  destruct (genMap f rest c1) as [bs c2]. reflexivity.
Qed.

Lemma relabel_node {Id} (i : Id) t p cs c counter :
  relabel (mkNode i t p cs c) counter
  = (mkNode counter t p (genMap relabel cs (S counter)).1 c,
     (genMap relabel cs (S counter)).2).
Proof.
  cbn [relabel]. unfold mbind, Gen_bind, mret, Gen_ret, generateId.
  destruct (genMap relabel cs (S counter)) as [cs' c1]. reflexivity.
Qed.

Lemma genMap_relabel_spec {Id} (cs : list (Node Id)) :
  Forall (fun n => forall counter,
              (relabel n counter).2 = (counter + size n)%nat
              /\ ids (relabel n counter).1 = seq counter (size n)
              /\ shape (relabel n counter).1 = shape n) cs ->
  forall counter,
    (genMap relabel cs counter).2 = (counter + sizes cs)%nat
    /\ flat_map ids (genMap relabel cs counter).1 = seq counter (sizes cs)
    /\ map shape (genMap relabel cs counter).1 = map shape cs.
Proof.
  induction 1 as [|n cs Hn _ IH]; intros counter.
  - simpl. unfold sizes. simpl. repeat split. lia.
  - rewrite genMap_cons, sizes_cons. cbn [fst snd flat_map map].
    destruct (Hn counter) as (Hc & Hi & Hs). rewrite Hc, Hi, Hs.
    destruct (IH (counter + size n)%nat) as (Hc' & Hi' & Hs'). rewrite Hc', Hi', Hs'.
    repeat split.
    + lia.
    + now rewrite seq_app.
Qed.

Lemma relabel_spec {Id} (n : Node Id) : forall counter,
  (relabel n counter).2 = (counter + size n)%nat
  /\ ids (relabel n counter).1 = seq counter (size n)
  /\ shape (relabel n counter).1 = shape n.
Proof.
  induction n as [i t p cs c IH] using Node_ind. intros counter.
  rewrite relabel_node, size_node.
  destruct (genMap_relabel_spec cs IH (S counter)) as (Hc & Hi & Hs).
  cbn [fst snd ids shape]. rewrite Hc, Hi, Hs. repeat split. lia.
Qed.

Lemma size_shape {Id} (n : Node Id) : size (shape n) = size n.
Proof.
  induction n as [i t p cs c IH] using Node_ind. simpl. f_equal.
  rewrite map_map. f_equal. induction IH as [|x l Hx _ IHl]; simpl; congruence.
Qed.

Lemma shape_of_shape (n : Shape) : shape n = n.
Proof.
  induction n as [[] t p cs c IH] using Node_ind. simpl. f_equal.
  induction IH as [|x l Hx _ IHl]; [reflexivity|].
  cbn [map]. now rewrite Hx, IHl.
Qed.

Lemma seq_disjoint (a la b lb : nat) :
  (a + la <= b)%nat -> forall i, In i (seq a la) -> ~ In i (seq b lb).
Proof. intros H i Hi Hj. apply in_seq in Hi. apply in_seq in Hj. lia. Qed.

(** C4.  [cloneDocumentWithNewIds] gives the root and every descendant of
    the copy an identifier drawn from [generateId] during the call; no
    two nodes of the copy share an identifier, nor do this copy and the
    copy of a later call on the same tree; types, attributes, content and
    child order are those of the source. *)
Theorem cloneDocumentWithNewIds_fresh_and_faithful :
  forall (root : EditorNode) (counter : nat),
    let copy := (cloneDocumentWithNewIds root counter).1 in
    let counter' := (cloneDocumentWithNewIds root counter).2 in
    ids copy = seq counter (size root)
    /\ counter' = (counter + size root)%nat
    /\ NoDup (ids copy)
    /\ shape copy = shape root
    /\ (forall later,
           (counter' <= later)%nat ->
           NoDup (ids copy ++ ids (cloneDocumentWithNewIds root later).1)).
Proof.
  intros root counter. cbn zeta. unfold cloneDocumentWithNewIds.
  destruct (relabel_spec root counter) as (Hc & Hi & Hs).
  rewrite Hc, Hi, Hs. repeat split.
  - apply NoDup_ListNoDup, seq_NoDup.
  - intros later Hlater.
    destruct (relabel_spec root later) as (_ & Hi' & _). rewrite Hi'.
    apply NoDup_app. repeat split.
    + apply NoDup_ListNoDup, seq_NoDup.
    + intros i Hi1 Hi2. apply list_elem_of_In in Hi1, Hi2.
      exact (seq_disjoint _ _ _ _ Hlater i Hi1 Hi2).
    + apply NoDup_ListNoDup, seq_NoDup.
Qed.

Section Schema.

Variable componentDefinitions : gmap string ComponentDefinition.
Variable misplaced : Misplaced.

Lemma parseMjmlToNode_spec mjmlText counter :
  let run := parseMjmlToNode componentDefinitions misplaced mjmlText counter in
  shapeOf run.1 = parseShape componentDefinitions misplaced mjmlText
  /\ idsOf run.1 = seq counter (run.2 - counter)
  /\ (counter <= run.2)%nat.
Proof.
  cbn zeta. unfold parseMjmlToNode.
  destruct (parseShape componentDefinitions misplaced mjmlText) as [[tree|]|message];
    cbn; try (rewrite Nat.sub_diag; repeat split; lia).
  unfold mbind, Gen_bind, mret, Gen_ret.
  destruct (relabel_spec tree counter) as (Hc & Hi & Hs).
  destruct (relabel tree counter) as [node c1]. simpl in *. subst c1.
  rewrite Hs, Hi, shape_of_shape.
  replace (counter + size tree - counter)%nat with (size tree) by lia.
  repeat split. lia.
Qed.

End Schema.

(** The scenario of the specification: a section with one column, the
    column with one text whose content is the text between its tags. *)
Example parseMjmlToNode_helloMarkup :
  shapeOf (parseMjmlToNode sampleDefinitions Drop helloMarkup 0%nat).1
  = Ok (Some
      (mkNode tt "mj-section" (defaultsOf sampleDefinitions "mj-section")
         [mkNode tt "mj-column" (defaultsOf sampleDefinitions "mj-column")
            [mkNode tt "mj-text" (defaultsOf sampleDefinitions "mj-text") []
               (Some "Hi"%string)]
            None]
         None)).
Proof. vm_compute. reflexivity. Qed.

End MjmlFacts.

(** ** The parser: the invariant of the tree builder *)

Module BuilderInvariant.
Import Chars Mjml.
Local Close Scope Z_scope.

Section Schema.

Variable componentDefinitions : gmap string ComponentDefinition.
Variable misplaced : Misplaced.

#[local] Abbreviation contained := (contained componentDefinitions).
#[local] Abbreviation allowedUnder := (allowedUnder componentDefinitions).
#[local] Abbreviation addChild := (addChild componentDefinitions misplaced).
#[local] Abbreviation attach := (attach componentDefinitions misplaced).
#[local] Abbreviation finish := (finish componentDefinitions).
#[local] Abbreviation closeDown := (closeDown componentDefinitions misplaced).
#[local] Abbreviation closeAll := (closeAll componentDefinitions misplaced).
#[local] Abbreviation buildStep := (buildStep componentDefinitions misplaced).
#[local] Abbreviation buildRun := (buildRun componentDefinitions misplaced).
#[local] Abbreviation buildEnd := (buildEnd componentDefinitions misplaced).
#[local] Abbreviation rawNode := (rawNode componentDefinitions).
#[local] Abbreviation frameOk := (frameOk componentDefinitions).
#[local] Abbreviation rootOk := (rootOk componentDefinitions).
#[local] Abbreviation buildOk := (buildOk componentDefinitions).

Lemma rawNode_contained src : contained (rawNode src) = true.
Proof. reflexivity. Qed.

Lemma rawNode_allowed t src : allowedUnder t (rawNode src) = true.
Proof.
  unfold Mjml.allowedUnder, Mjml.rawNode. cbn [type].
  rewrite (bool_decide_eq_true_2 (rawType = rawType)) by reflexivity.
  apply orb_true_r.
Qed.

Lemma finish_contained f : frameOk f = true -> contained (finish f) = true.
Proof. unfold Mjml.finish, frameOk. destruct (fkind f); simpl; auto. Qed.

Lemma withChild_ok f child src :
  frameOk f = true -> allowedUnder (ftype f) child = true -> contained child = true ->
  frameOk (withChild f child src) = true.
Proof.
  unfold frameOk, withChild. cbn [fchildren ftype]. intros Hf Ha Hc.
  rewrite forallb_app. apply andb_true_iff. split; [exact Hf|].
  cbn [forallb]. now rewrite Ha, Hc.
Qed.

Lemma addChild_ok child src f :
  frameOk f = true -> contained child = true -> frameOk (addChild child src f) = true.
Proof.
  intros Hf Hc. unfold Mjml.addChild.
  destruct (_ || _) eqn:Ha.
  - now apply withChild_ok.
  - destruct misplaced; [exact Hf|].
    apply withChild_ok; auto using rawNode_allowed, rawNode_contained.
Qed.

Lemma setRoot_ok child r :
  contained child = true -> rootOk r = true -> rootOk (setRoot child r) = true.
Proof. destruct r; simpl; auto. Qed.

Lemma attach_ok child src b :
  buildOk b -> contained child = true -> buildOk (attach child src b).
Proof.
  intros [Hs Hr] Hc. unfold Mjml.attach.
  destruct (stack b) as [|parent below] eqn:E; split; simpl; auto using setRoot_ok.
  simpl in Hs. apply andb_true_iff in Hs as [Hp Hb].
  now rewrite (addChild_ok _ _ _ Hp Hc).
Qed.

Lemma under_ok child f :
  frameOk f = true ->
  match child with Some (node, _) => contained node = true | None => True end ->
  frameOk (under componentDefinitions misplaced child f) = true.
Proof. destruct child as [[node src]|]; simpl; auto using addChild_ok. Qed.

Lemma closeDown_ok tag closeSrc frames : forall child r h,
  forallb frameOk frames = true -> rootOk r = true ->
  match child with Some (node, _) => contained node = true | None => True end ->
  buildOk (closeDown tag closeSrc child frames r h).
Proof.
  induction frames as [|f below IH]; intros child r h Hs Hr Hc.
  - split; [reflexivity|]. simpl. destruct child as [[node src]|]; auto using setRoot_ok.
  - simpl in Hs. apply andb_true_iff in Hs as [Hf Hb].
    pose proof (under_ok child f Hf Hc) as Hu. cbn [Mjml.closeDown].
    destruct (sameText _ tag).
    + apply attach_ok; [split; assumption|]. apply finish_contained. exact Hu.
    + apply IH; auto. now apply finish_contained.
Qed.

Lemma closeAll_ok frames : forall child r,
  forallb frameOk frames = true -> rootOk r = true ->
  match child with Some (node, _) => contained node = true | None => True end ->
  rootOk (closeAll child frames r) = true.
Proof.
  induction frames as [|f below IH]; intros child r Hs Hr Hc.
  - simpl. destruct child as [[node src]|]; auto using setRoot_ok.
  - simpl in Hs. apply andb_true_iff in Hs as [Hf Hb].
    cbn [Mjml.closeAll]. apply IH; auto.
    apply finish_contained. now apply under_ok.
Qed.

Lemma onTop_ok (g : Frame -> Frame) b :
  (forall f, frameOk f = true -> frameOk (g f) = true) ->
  buildOk b ->
  buildOk (match stack b with
           | [] => b
           | f :: below => mkBuild (g f :: below) (root b) (inHead b)
           end).
Proof.
  intros Hg [Hs Hr]. destruct (stack b) as [|f below] eqn:E; [split; now rewrite ?E|].
  simpl in Hs. apply andb_true_iff in Hs as [Hf Hb].
  split; simpl; [|exact Hr]. now rewrite (Hg _ Hf).
Qed.

Lemma appendSrc_ok src b : buildOk b -> buildOk (appendSrc src b).
Proof. apply (onTop_ok (fun f => withSrc f src)). auto. Qed.

Lemma appendVerbatim_ok src b : buildOk b -> buildOk (appendVerbatim src b).
Proof. apply (onTop_ok (fun f => withVerbatim f src)). auto. Qed.

Lemma buildStep_ok b t : buildOk b -> buildOk (buildStep b t).
Proof.
  intros Hb. pose proof Hb as [Hs Hr]. unfold Mjml.buildStep.
  destruct (inHead b).
  { destruct t; simpl; auto. destruct (sameText _ _); [split|]; auto. }
  assert (Hstruct : buildOk (structuralStep componentDefinitions misplaced t b)).
  { destruct t as [src|tag attrs sc src|tag src]; simpl.
    - unfold structuralText. destruct (forallb isSpace src); [now apply appendSrc_ok|].
      destruct (stack b) as [|f below] eqn:E; [exact Hb|].
      destruct (canContain _ _ _); [now apply attach_ok | now apply appendSrc_ok].
    - unfold structuralOpen.
      destruct (sameText tag envelopeTag); [exact Hb|].
      destruct (sameText tag headTag); [split; assumption|].
      destruct (getComponentDefinition _ _) as [d|].
      + destruct (sc || isVoid d); [now apply attach_ok|].
        split; simpl; [exact Hs | exact Hr].
      + destruct sc; [apply attach_ok; auto using rawNode_contained|].
        split; simpl; [exact Hs | exact Hr].
    - unfold structuralClose.
      destruct (sameText tag envelopeTag); [exact Hb|].
      destruct (onStack tag (stack b)); [now apply closeDown_ok | now apply appendSrc_ok]. }
  assert (Hverb : buildOk (verbatimStep componentDefinitions misplaced t b)).
  { destruct t as [src|tag attrs sc src|tag src]; simpl;
      try now apply appendVerbatim_ok.
    destruct (onStack tag (stack b)); [now apply closeDown_ok | now apply appendVerbatim_ok]. }
  destruct (stack b) as [|f below]; [exact Hstruct|].
  destruct (isVerbatim f); assumption.
Qed.

Lemma buildRun_ok ts : forall b, buildOk b -> buildOk (buildRun b ts).
Proof.
  induction ts as [|t ts IH]; intros b Hb; [exact Hb|].
  apply IH, buildStep_ok, Hb.
Qed.

Lemma parseShape_contained mjmlText tree :
  parseShape componentDefinitions misplaced mjmlText = Ok (Some tree) ->
  contained tree = true.
Proof.
  unfold parseShape. destruct (tokenize _) as [ts|]; [|discriminate].
  intros [= H].
  pose proof (buildRun_ok ts (mkBuild [] None false) (conj eq_refl eq_refl)) as [Hs Hr].
  pose proof (closeAll_ok _ None _ Hs Hr I) as Hc.
  unfold Mjml.buildEnd in H. rewrite H in Hc. exact Hc.
Qed.

End Schema.
End BuilderInvariant.

(** ** The parser: containment in the trees it returns *)

Module Containment.
Import Chars Mjml MjmlFacts BuilderInvariant.
Local Close Scope Z_scope.

Section Schema.

Variable componentDefinitions : gmap string ComponentDefinition.
Variable misplaced : Misplaced.

#[local] Abbreviation contained := (contained componentDefinitions).
#[local] Abbreviation attach := (attach componentDefinitions misplaced).
#[local] Abbreviation closeDown := (closeDown componentDefinitions misplaced).
#[local] Abbreviation closeAll := (closeAll componentDefinitions misplaced).
#[local] Abbreviation buildStep := (buildStep componentDefinitions misplaced).
#[local] Abbreviation buildRun := (buildRun componentDefinitions misplaced).

Lemma contained_shape {Id} (n : Node Id) : contained (shape n) = contained n.
Proof.
  induction n as [i t p cs c IH] using Node_ind. cbn [shape Mjml.contained].
  induction IH as [|x l Hx _ IHl]; [reflexivity|].
  cbn [map forallb]. rewrite IHl, Hx. f_equal. f_equal.
  unfold allowedUnder. now destruct x.
Qed.

Lemma started_attach child src b : started (attach child src b) = true.
Proof.
  unfold Mjml.attach, started. destruct (stack b); simpl; [|reflexivity].
  now destruct (root b).
Qed.

Lemma started_closeDown tag closeSrc frames : forall child r h,
  (frames <> [] \/ is_Some child \/ is_Some r) ->
  started (closeDown tag closeSrc child frames r h) = true.
Proof.
  induction frames as [|f below IH]; intros child r h H.
  - destruct H as [H|[[[node src] ->]|[tree ->]]]; [congruence| |].
    + unfold started. simpl. now destruct r.
    + unfold started. simpl. now destruct child as [[]|].
  - cbn [Mjml.closeDown]. destruct (sameText _ tag).
    + apply started_attach.
    + apply IH. right. left. eauto.
Qed.

Lemma closeAll_some frames : forall child r,
  (frames <> [] \/ is_Some child \/ is_Some r) ->
  is_Some (closeAll child frames r).
Proof.
  induction frames as [|f below IH]; intros child r H.
  - destruct H as [H|[[[node src] ->]|[tree ->]]]; [congruence| |]; simpl.
    + destruct r; eauto.
    + destruct child as [[]|]; simpl; eauto.
  - cbn [Mjml.closeAll]. apply IH. right. left. eauto.
Qed.

Lemma started_onTop (g : Frame -> Frame) b :
  started b = true ->
  started (match stack b with
           | [] => b
           | f :: below => mkBuild (g f :: below) (root b) (inHead b)
           end) = true.
Proof. unfold started. destruct (stack b) eqn:E; simpl; [now rewrite E|reflexivity]. Qed.

Lemma started_step b t : started b = true -> started (buildStep b t) = true.
Proof.
  intros Hb. unfold Mjml.buildStep.
  assert (Hclose : forall tag src h,
             started (closeDown tag src None (stack b) (root b) h) = true).
  { intros tag src h. apply started_closeDown. unfold started in Hb.
    destruct (stack b); [right; right; destruct (root b); eauto; discriminate|left; discriminate]. }
  destruct (inHead b).
  { destruct t; simpl; auto. now destruct (sameText _ _). }
  assert (Hstruct : started (structuralStep componentDefinitions misplaced t b) = true).
  { destruct t as [src|tag attrs sc src|tag src]; simpl.
    - unfold structuralText. destruct (forallb isSpace src).
      + now apply (started_onTop (fun f => withSrc f src)).
      + destruct (stack b) eqn:E; [exact Hb|].
        destruct (canContain _ _ _); [apply started_attach|].
        unfold appendSrc. rewrite E. reflexivity.
    - unfold structuralOpen.
      destruct (sameText tag envelopeTag); [exact Hb|].
      destruct (sameText tag headTag); [exact Hb|].
      destruct (getComponentDefinition _ _) as [d|].
      + destruct (sc || isVoid d); [apply started_attach | reflexivity].
      + destruct sc; [apply started_attach | reflexivity].
    - unfold structuralClose.
      destruct (sameText tag envelopeTag); [exact Hb|].
      destruct (onStack tag (stack b)); [apply Hclose|].
      now apply (started_onTop (fun f => withSrc f src)). }
  assert (Hverb : started (verbatimStep componentDefinitions misplaced t b) = true).
  { destruct t as [src|tag attrs sc src|tag src]; simpl;
      try now apply (started_onTop (fun f => withVerbatim f _)).
    destruct (onStack tag (stack b)); [apply Hclose|].
    now apply (started_onTop (fun f => withVerbatim f src)). }
  destruct (stack b) as [|f below]; [exact Hstruct|].
  destruct (isVerbatim f); assumption.
Qed.

Lemma started_run ts : forall b, started b = true -> started (buildRun b ts) = true.
Proof.
  induction ts as [|t ts IH]; intros b Hb; [exact Hb|]. apply IH, started_step, Hb.
Qed.

Lemma buildEnd_started b :
  started b = true -> is_Some (buildEnd componentDefinitions misplaced b).
Proof.
  intros Hb. apply closeAll_some. unfold started in Hb.
  destruct (stack b); [right; right; destruct (root b); eauto; discriminate|left; discriminate].
Qed.

(** A markup that starts with the opening tag of an element parses to a
    tree, whatever follows, if it can be split into tokens at all. *)
Lemma opening_tag_starts tag attrs src :
  sameText tag envelopeTag = false -> sameText tag headTag = false ->
  started (buildStep (mkBuild [] None false) (TOpen tag attrs false src)) = true.
Proof.
  intros He Hh. unfold Mjml.buildStep. cbn. unfold structuralOpen. rewrite He, Hh.
  destruct (getComponentDefinition _ _) as [d|]; [|reflexivity].
  destruct (false || isVoid d); [apply started_attach | reflexivity].
Qed.


End Schema.
End Containment.

(** ** The tokenizer on the markup the serializer writes *)

Module LexFacts.
Import Chars Mjml.
Local Close Scope Z_scope.

(** ** Character classes *)

Lemma nameChar_plain c :
  isNameChar c = true ->
  isControl c = false /\ Ascii.eqb c ">" = false /\ Ascii.eqb c "/" = false
  /\ isSpace c = false /\ Ascii.eqb c "=" = false /\ Ascii.eqb c "<" = false.
Proof.
  destruct c as [[] [] [] [] [] [] [] []]; vm_compute; intros H;
    first [discriminate H | repeat split].
Qed.

Lemma letter_nameChar c : isLetter c = true -> isNameChar c = true.
Proof.
  destruct c as [[] [] [] [] [] [] [] []]; vm_compute; intros H;
    first [discriminate H | reflexivity].
Qed.

Lemma escapeChar_no_quote c : Forall (fun x => Ascii.eqb x dquote = false) (escapeChar c).
Proof.
  unfold escapeChar.
  destruct (Ascii.eqb c "&"); [repeat constructor|].
  destruct (Ascii.eqb c dquote) eqn:E; [repeat constructor|].
  destruct (Ascii.eqb c "<"); [repeat constructor|].
  destruct (Ascii.eqb c ">"); [repeat constructor|].
  repeat constructor. exact E.
Qed.

Lemma escape_no_quote v : Forall (fun x => Ascii.eqb x dquote = false) (escape v).
Proof.
  induction v as [|c v IH]; [constructor|].
  unfold escape. cbn [flat_map]. apply Forall_app. split; [apply escapeChar_no_quote|exact IH].
Qed.

Lemma unescapeFrom_escape v : unescapeFrom 0 (escape v) = v.
Proof.
  induction v as [|c v IH]; [reflexivity|].
  unfold escape in *. cbn [flat_map].
  set (rest := flat_map escapeChar v) in *. unfold escapeChar.
  destruct (Ascii.eqb c "&") eqn:E1.
  { apply Ascii.eqb_eq in E1. subst c. cbn. f_equal. exact IH. }
  destruct (Ascii.eqb c dquote) eqn:E2.
  { apply Ascii.eqb_eq in E2. subst c. cbn. f_equal. exact IH. }
  destruct (Ascii.eqb c "<") eqn:E3.
  { apply Ascii.eqb_eq in E3. subst c. cbn. f_equal. exact IH. }
  destruct (Ascii.eqb c ">") eqn:E4.
  { apply Ascii.eqb_eq in E4. subst c. cbn. f_equal. exact IH. }
  cbn [app unescapeFrom].
  assert (Hent : entityAt (c :: rest) = None).
  { unfold entityAt. cbn [chars list_ascii_of_string startsWith].
    rewrite (Ascii.eqb_sym "&" c), E1. reflexivity. }
  rewrite Hent. now rewrite IH.
Qed.

Lemma unescape_escape v : unescape (escape v) = v.
Proof. apply unescapeFrom_escape. Qed.

(** ** Running the tokenizer over a text in two parts *)

Lemma lexRun_app a : forall l b l1 t1 l2 t2,
  lexRun l a = (l1, t1) -> lexRun l1 b = (l2, t2) ->
  lexRun l (a ++ b) = (l2, t1 ++ t2).
Proof.
  induction a as [|c a IH]; intros l b l1 t1 l2 t2 Ha Hb.
  - simpl in Ha. injection Ha as <- <-. exact Hb.
  - cbn [lexRun app] in *. destruct (lexStep l c) as [l' ts].
    destruct (lexRun l' a) as [l1' t1'] eqn:E. injection Ha as <- <-.
    rewrite (IH _ _ _ _ _ _ E Hb). now rewrite app_assoc.
Qed.

Lemma lexRun_step l c rest l1 ts l2 t2 :
  lexStep l c = (l1, ts) -> lexRun l1 rest = (l2, t2) ->
  lexRun l (c :: rest) = (l2, ts ++ t2).
Proof. intros H1 H2. cbn [lexRun]. now rewrite H1, H2. Qed.

Lemma lex_text s : forall p, noLt s -> lexRun (LText p) s = (LText (p ++ s), []).
Proof.
  induction s as [|c s IH]; intros p Hs.
  - now rewrite app_nil_r.
  - inversion Hs as [|? ? Hc Hs']; subst.
    eapply lexRun_step with (ts := []); [simpl; now rewrite Hc|].
    rewrite IH by assumption. now rewrite <- app_assoc.
Qed.

Lemma lex_name rest : forall src name attrs,
  forallb isNameChar rest = true ->
  lexRun (LOpen src name attrs InName) rest
  = (LOpen (src ++ rest) (name ++ rest) attrs InName, []).
Proof.
  induction rest as [|c rest IH]; intros src name attrs H.
  - now rewrite !app_nil_r.
  - cbn [forallb] in H. apply andb_true_iff in H as [Hc Hr].
    destruct (nameChar_plain c Hc) as (Hctl & _).
    eapply lexRun_step with (ts := []).
    + cbn [lexStep]. rewrite Hctl. cbn [inTag]. now rewrite Hc.
    + rewrite IH by assumption. now rewrite <- !app_assoc.
Qed.

Lemma lex_open_start tag p :
  validTag tag = true ->
  lexRun (LText p) ("<"%char :: tag) = (LOpen ("<"%char :: tag) tag [] InName, textToken p).
Proof.
  destruct tag as [|c rest]; [discriminate|]. cbn [validTag].
  intros H. apply andb_true_iff in H as [Hc Hr].
  rewrite <- (app_nil_r (textToken p)).
  change (textToken p ++ []) with ([] ++ (textToken p ++ [])).
  eapply lexRun_step with (ts := []); [reflexivity|].
  eapply lexRun_step with (ts := textToken p).
  - cbn [lexStep]. now rewrite Hc.
  - now rewrite lex_name by assumption.
Qed.

Lemma lex_attr_name k : forall src name attrs a,
  forallb isNameChar k = true ->
  lexRun (LOpen src name attrs (InAttrName a)) k
  = (LOpen (src ++ k) name attrs (InAttrName (a ++ k)), []).
Proof.
  induction k as [|c k IH]; intros src name attrs a H.
  - now rewrite !app_nil_r.
  - cbn [forallb] in H. apply andb_true_iff in H as [Hc Hr].
    destruct (nameChar_plain c Hc) as (Hctl & _).
    eapply lexRun_step with (ts := []).
    + cbn [lexStep]. rewrite Hctl. cbn [inTag]. now rewrite Hc.
    + rewrite IH by assumption. now rewrite <- !app_assoc.
Qed.

Lemma lex_value v : forall src name attrs a value,
  Forall (fun x => Ascii.eqb x dquote = false) v ->
  lexRun (LOpen src name attrs (InValue a dquote value)) v
  = (LOpen (src ++ v) name attrs (InValue a dquote (value ++ v)), []).
Proof.
  induction v as [|c v IH]; intros src name attrs a value H.
  - now rewrite !app_nil_r.
  - inversion H as [|? ? Hc Hv]; subst.
    eapply lexRun_step with (ts := []).
    + cbn [lexStep inTag]. now rewrite Hc.
    + rewrite IH by assumption. now rewrite <- !app_assoc.
Qed.

Lemma lex_space src name attrs pos :
  attrStart pos ->
  lexStep (LOpen src name attrs pos) " "%char = (LOpen (src ++ [" "%char]) name attrs Between, []).
Proof. intros [-> | ->]; reflexivity. Qed.

Lemma lex_attr k v src name attrs pos :
  attrStart pos -> validAttr k = true ->
  Forall (fun x => Ascii.eqb x dquote = false) v ->
  lexRun (LOpen src name attrs pos) (" "%char :: k ++ "="%char :: dquote :: v ++ [dquote])
  = (LOpen (src ++ " "%char :: k ++ "="%char :: dquote :: v ++ [dquote]) name
       (attrs ++ [(k, v)]) Between, []).
Proof.
  intros Hpos Hk Hv. destruct k as [|c k]; [discriminate|].
  cbn [validAttr forallb] in Hk. apply andb_true_iff in Hk as [Hc Hk].
  destruct (nameChar_plain c Hc) as (Hctl & Hgt & Hsl & Hsp & Heq & _).
  eapply lexRun_step with (ts := []); [now apply lex_space|].
  cbn [app]. eapply lexRun_step with (ts := []).
  { cbn [lexStep]. rewrite Hctl. cbn [inTag]. unfold betweenAttrs.
    now rewrite Hgt, Hsl, Hsp, Hc. }
  eapply lexRun_app with (t1 := []); [now apply lex_attr_name|].
  eapply lexRun_step with (ts := []); [reflexivity|].
  eapply lexRun_step with (ts := []); [reflexivity|].
  eapply lexRun_app with (t1 := []); [now apply lex_value|].
  eapply lexRun_step with (ts := []).
  { cbn [lexStep inTag]. rewrite Ascii.eqb_refl. reflexivity. }
  cbn [lexRun app]. f_equal. f_equal. now rewrite <- !app_assoc.
Qed.

Lemma lex_attrs kvs : forall src name attrs pos,
  attrStart pos -> validNames kvs ->
  exists pos',
    attrStart pos'
    /\ lexRun (LOpen src name attrs pos) (renderAttrs kvs)
       = (LOpen (src ++ renderAttrs kvs) name (attrs ++ lexAttrs kvs) pos', []).
Proof.
  induction kvs as [|kv kvs IH]; intros src name attrs pos Hpos Hval.
  - exists pos. split; [exact Hpos|]. simpl. now rewrite !app_nil_r.
  - inversion Hval as [|? ? Hk Hrest]; subst.
    destruct (IH (src ++ renderAttr kv) name (attrs ++ [(chars kv.1, escape (chars kv.2))])
                Between (or_intror eq_refl) Hrest) as (pos' & Hpos' & Hrun).
    exists pos'. split; [exact Hpos'|].
    unfold renderAttrs in *. cbn [flat_map].
    erewrite lexRun_app; [| apply lex_attr; eauto using escape_no_quote | exact Hrun].
    cbn [lexAttrs map app]. now rewrite <- !app_assoc.
Qed.

Lemma lex_tag_end src name attrs pos :
  attrStart pos ->
  lexRun (LOpen src name attrs pos) [">"%char]
  = (LText [], [TOpen name attrs false (src ++ [">"%char])]).
Proof. intros [-> | ->]; reflexivity. Qed.

Lemma lex_tag_self_end src name attrs pos :
  attrStart pos ->
  lexRun (LOpen src name attrs pos) (chars " />")
  = (LText [], [TOpen name attrs true (src ++ chars " />")]).
Proof.
  intros Hpos.
  replace (src ++ chars " />")
    with (((src ++ [" "%char]) ++ ["/"%char]) ++ [">"%char])
    by now rewrite <- !app_assoc.
  cbn [chars list_ascii_of_string].
  eapply lexRun_step with (ts := []); [now apply lex_space|].
  eapply lexRun_step with (ts := []); [reflexivity|].
  eapply lexRun_step with (ts := [_]); reflexivity.
Qed.

Lemma lex_openTag tag kvs p :
  validTag tag = true -> validNames kvs ->
  lexRun (LText p) (openTag tag kvs)
  = (LText [], textToken p ++ [TOpen tag (lexAttrs kvs) false (openTag tag kvs)]).
Proof.
  intros Htag Hval. unfold openTag.
  destruct (lex_attrs kvs ("<"%char :: tag) tag [] InName (or_introl eq_refl) Hval)
    as (pos' & Hpos' & Hattrs).
  change ("<"%char :: tag ++ renderAttrs kvs ++ [">"%char])
    with (("<"%char :: tag) ++ renderAttrs kvs ++ [">"%char]).
  erewrite lexRun_app; [| now apply lex_open_start |].
  2: { erewrite lexRun_app; [| exact Hattrs | now apply lex_tag_end]. reflexivity. }
  cbn [app]. now rewrite <- !app_assoc.
Qed.

Lemma lex_selfClosingTag tag kvs p :
  validTag tag = true -> validNames kvs ->
  lexRun (LText p) (selfClosingTag tag kvs)
  = (LText [], textToken p ++ [TOpen tag (lexAttrs kvs) true (selfClosingTag tag kvs)]).
Proof.
  intros Htag Hval. unfold selfClosingTag.
  destruct (lex_attrs kvs ("<"%char :: tag) tag [] InName (or_introl eq_refl) Hval)
    as (pos' & Hpos' & Hattrs).
  change ("<"%char :: tag ++ renderAttrs kvs ++ chars " />")
    with (("<"%char :: tag) ++ renderAttrs kvs ++ chars " />").
  erewrite lexRun_app; [| now apply lex_open_start |].
  2: { erewrite lexRun_app; [| exact Hattrs | now apply lex_tag_self_end]. reflexivity. }
  cbn [app]. now rewrite <- !app_assoc.
Qed.

Lemma lex_close_name rest : forall src name,
  forallb isNameChar rest = true ->
  lexRun (LClose src name true) rest = (LClose (src ++ rest) (name ++ rest) true, []).
Proof.
  induction rest as [|c rest IH]; intros src name H.
  - now rewrite !app_nil_r.
  - cbn [forallb] in H. apply andb_true_iff in H as [Hc Hr].
    destruct (nameChar_plain c Hc) as (Hctl & Hgt & _).
    eapply lexRun_step with (ts := []).
    + cbn [lexStep]. now rewrite Hctl, Hgt, Hc.
    + rewrite IH by assumption. now rewrite <- !app_assoc.
Qed.

Lemma lex_closeTag tag p :
  validTag tag = true ->
  lexRun (LText p) (closeTag tag)
  = (LText [], textToken p ++ [TClose tag (closeTag tag)]).
Proof.
  destruct tag as [|c rest]; [discriminate|]. cbn [validTag].
  intros H. apply andb_true_iff in H as [Hc Hr]. unfold closeTag.
  change (textToken p ++ [TClose (c :: rest) ("<"%char :: "/"%char :: (c :: rest) ++ [">"%char])])
    with ([] ++ [] ++ textToken p ++ [TClose (c :: rest) ("<"%char :: "/"%char :: (c :: rest) ++ [">"%char])]).
  eapply lexRun_step with (ts := []); [reflexivity|].
  eapply lexRun_step with (ts := []); [reflexivity|].
  eapply lexRun_step with (ts := textToken p).
  { cbn [lexStep]. now rewrite Hc. }
  eapply lexRun_app with (t1 := []); [now apply lex_close_name|].
  reflexivity.
Qed.

(** ** Attributes read back *)

Lemma text_chars s : text (chars s) = s.
Proof. apply string_of_list_ascii_of_string. Qed.

Lemma chars_text l : chars (text l) = l.
Proof. apply list_ascii_of_string_of_list_ascii. Qed.

Lemma chars_inj a b : chars a = chars b -> a = b.
Proof. intros H. rewrite <- (text_chars a), <- (text_chars b). now rewrite H. Qed.

Lemma attrsToProps_lexAttrs kvs : attrsToProps (lexAttrs kvs) = list_to_map kvs.
Proof.
  unfold attrsToProps, lexAttrs. rewrite map_map. f_equal.
  induction kvs as [|[k v] kvs IH]; [reflexivity|].
  cbn [map fst snd]. rewrite unescape_escape, !text_chars. f_equal. exact IH.
Qed.

(** ** Nothing is lost: the tokens and what is pending are the text read *)

Lemma srcs_textToken p : srcs (textToken p) = p.
Proof. destruct p; [reflexivity|]. unfold srcs. simpl. now rewrite app_nil_r. Qed.

Lemma srcs_app a b : srcs (a ++ b) = srcs a ++ srcs b.
Proof. unfold srcs. apply flat_map_app. Qed.

Lemma betweenAttrs_src src name attrs c :
  srcs (betweenAttrs src name attrs c).2 ++ pendingSrc (betweenAttrs src name attrs c).1
  = src.
Proof.
  unfold betweenAttrs.
  repeat match goal with |- context [if ?b then _ else _] => destruct b end;
    unfold srcs; simpl; now rewrite ?app_nil_r.
Qed.

Lemma inTag_src src name attrs pos c :
  srcs (inTag src name attrs pos c).2 ++ pendingSrc (inTag src name attrs pos c).1 = src.
Proof.
  destruct pos; cbn [inTag];
    repeat match goal with
           | |- context [betweenAttrs _ _ _ _] => apply betweenAttrs_src
           | |- context [if ?b then _ else _] => destruct b
           end;
    unfold srcs; simpl; now rewrite ?app_nil_r.
Qed.

Lemma lexStep_src l c :
  failed (lexStep l c).1 = false ->
  srcs (lexStep l c).2 ++ pendingSrc (lexStep l c).1 = pendingSrc l ++ [c].
Proof.
  destruct l as [p|p|p|src name attrs pos|src name inName|m]; cbn [lexStep].
  - destruct (Ascii.eqb c "<") eqn:E; intros _; simpl; [|reflexivity].
    apply Ascii.eqb_eq in E. now subst c.
  - destruct (isLetter c); [intros _; cbn [fst snd pendingSrc]; rewrite srcs_textToken;
                            now rewrite <- app_assoc|].
    destruct (Ascii.eqb c "/") eqn:E1;
      [apply Ascii.eqb_eq in E1; subst c; intros _; simpl; now rewrite <- app_assoc|].
    destruct (Ascii.eqb c "<") eqn:E2;
      [apply Ascii.eqb_eq in E2; subst c; intros _; simpl; now rewrite <- app_assoc|].
    intros _. simpl. now rewrite <- app_assoc.
  - destruct (isLetter c); [intros _; cbn [fst snd pendingSrc]; rewrite srcs_textToken;
                            now rewrite <- app_assoc|].
    destruct (Ascii.eqb c "<") eqn:E2;
      [apply Ascii.eqb_eq in E2; subst c; intros _; simpl; now rewrite <- !app_assoc|].
    intros _. simpl. now rewrite <- app_assoc.
  - destruct pos; try (destruct (isControl c); [discriminate|]);
      intros _; apply inTag_src.
  - destruct (isControl c); [discriminate|].
    destruct (Ascii.eqb c ">"); [intros _; unfold srcs; simpl; now rewrite !app_nil_r|].
    destruct (inName && isNameChar c); intros _; reflexivity.
  - discriminate.
Qed.

Lemma lexStep_failed c m : lexStep (LFailed m) c = (LFailed m, []).
Proof. reflexivity. Qed.

Lemma lexRun_failed s m : lexRun (LFailed m) s = (LFailed m, []).
Proof. induction s as [|c s IH]; [reflexivity|]. cbn [lexRun lexStep]. now rewrite IH. Qed.

Lemma lexRun_src s : forall l,
  failed (lexRun l s).1 = false ->
  srcs (lexRun l s).2 ++ pendingSrc (lexRun l s).1 = pendingSrc l ++ s.
Proof.
  induction s as [|c s IH]; intros l H.
  - simpl. now rewrite app_nil_r.
  - cbn [lexRun] in *. pose proof (lexStep_src l c) as Hstep.
    destruct (lexStep l c) as [l1 ts1] eqn:E1. cbn [fst snd] in Hstep.
    specialize (IH l1).
    destruct (lexRun l1 s) as [l2 ts2] eqn:E2. cbn [fst snd] in *.
    assert (Hl1 : failed l1 = false).
    { destruct l1; try reflexivity. rewrite lexRun_failed in E2.
      injection E2 as <- <-. discriminate H. }
    rewrite srcs_app, <- app_assoc, (IH H), app_assoc, (Hstep Hl1).
    now rewrite <- app_assoc.
Qed.

End LexFacts.

(** ** The tree builder on the tokens of a serialized tree *)

Module BuildFacts.
Import Chars Mjml MjmlFacts LexFacts.
Local Close Scope Z_scope.

Section Schema.

Variable componentDefinitions : gmap string ComponentDefinition.
Variable misplaced : Misplaced.

#[local] Abbreviation known := (known componentDefinitions).
#[local] Abbreviation canContain := (canContain componentDefinitions).
#[local] Abbreviation addChild := (addChild componentDefinitions misplaced).
#[local] Abbreviation attach := (attach componentDefinitions misplaced).
#[local] Abbreviation finish := (finish componentDefinitions).
#[local] Abbreviation closeDown := (closeDown componentDefinitions misplaced).
#[local] Abbreviation buildStep := (buildStep componentDefinitions misplaced).
#[local] Abbreviation buildRun := (buildRun componentDefinitions misplaced).
#[local] Abbreviation frameReady := (frameReady componentDefinitions).
#[local] Abbreviation steady := (steady componentDefinitions).
#[local] Abbreviation topAllows := (topAllows componentDefinitions).
#[local] Abbreviation namesKnown := (namesKnown componentDefinitions).
#[local] Abbreviation cleanTokens := (cleanTokens componentDefinitions).
#[local] Abbreviation printable := (printable componentDefinitions).
#[local] Abbreviation readsBack := (readsBack componentDefinitions misplaced).

(** ** How a run of tokens changes the builder *)

Lemma sameBut_refl f : sameBut f f [] [].
Proof. unfold sameBut. now rewrite !app_nil_r. Qed.

Lemma sameBut_trans f f1 f2 e1 e2 t1 t2 :
  sameBut f f1 e1 t1 -> sameBut f1 f2 e2 t2 -> sameBut f f2 (e1 ++ e2) (t1 ++ t2).
Proof.
  intros (?&?&?&?&?&?) (?&?&?&?&?&?). unfold sameBut.
  rewrite !app_assoc. repeat split; congruence.
Qed.

Lemma grownBy_refl b : grownBy [] b b.
Proof.
  split; [reflexivity|]. destruct (stack b) as [|f below] eqn:E; [now split|].
  exists f. auto using sameBut_refl.
Qed.

Lemma grownBy_trans e1 e2 b b1 b2 :
  grownBy e1 b b1 -> grownBy e2 b1 b2 -> grownBy (e1 ++ e2) b b2.
Proof.
  intros [Hh1 H1] [Hh2 H2]. split; [congruence|].
  destruct (stack b) as [|f below].
  - destruct H1 as [Hs1 Hr1]. rewrite Hs1 in H2. destruct H2 as [Hs2 Hr2].
    split; [exact Hs2|]. now rewrite Hr2, Hr1, fold_left_app.
  - destruct H1 as (f1 & Hs1 & Hf1 & Hr1). rewrite Hs1 in H2.
    destruct H2 as (f2 & Hs2 & Hf2 & Hr2). exists f2.
    split; [exact Hs2|]. split; [|congruence].
    exact (sameBut_trans _ _ _ _ _ _ _ Hf1 Hf2).
Qed.

Lemma frameReady_sameBut f f' e t : sameBut f f' e t -> frameReady f -> frameReady f'.
Proof. intros (Hk & Hn & _) [H1 H2]. split; congruence. Qed.

Lemma grownBy_steady e b b' : grownBy e b b' -> steady b -> steady b'.
Proof.
  intros [Hh H] [Hb Hs]. split; [congruence|].
  destruct (stack b) as [|f below].
  - destruct H as [-> _]. constructor.
  - destruct H as (f' & -> & Hf & _). inversion Hs; subst.
    constructor; [eapply frameReady_sameBut; eauto | assumption].
Qed.

Lemma grownBy_topAllows e b b' t : grownBy e b b' -> topAllows b t -> topAllows b' t.
Proof.
  intros [_ H]. unfold topAllows. destruct (stack b) as [|f below].
  - now destruct H as [-> _].
  - destruct H as (f' & -> & (_ & _ & Ht & _) & _). now rewrite Ht.
Qed.

Lemma appendSrc_grown w b : grownBy [] b (appendSrc w b).
Proof.
  unfold appendSrc. destruct (stack b) as [|f below] eqn:E.
  - apply grownBy_refl.
  - split; [reflexivity|]. rewrite E. exists (withSrc f w).
    repeat split; simpl; now rewrite ?app_nil_r.
Qed.

Lemma attach_grown child src b :
  topAllows b (type child) -> grownBy [child] b (attach child src b).
Proof.
  unfold topAllows, Mjml.attach, grownBy. destruct (stack b) as [|f below] eqn:E.
  - intros _. simpl. auto.
  - intros Hallow. simpl. split; [reflexivity|].
    exists (addChild child src f). split; [reflexivity|]. split; [|reflexivity].
    unfold Mjml.addChild. rewrite Hallow. simpl.
    repeat split; simpl; now rewrite ?app_nil_r.
Qed.

(** ** Single tokens *)

Lemma steady_dispatch b t :
  steady b -> buildStep b t = structuralStep componentDefinitions misplaced t b.
Proof.
  intros [Hh Hs]. unfold Mjml.buildStep. rewrite Hh.
  destruct (stack b) as [|f below]; [reflexivity|].
  inversion Hs as [|? ? [Hk _] _]; subst. unfold isVerbatim. now rewrite Hk.
Qed.

Lemma step_whitespace b w :
  steady b -> forallb isSpace w = true -> grownBy [] b (buildStep b (TText w)).
Proof.
  intros Hb Hw. rewrite steady_dispatch by assumption.
  cbn [structuralStep]. unfold structuralText. rewrite Hw. apply appendSrc_grown.
Qed.

Lemma run_textToken b w :
  steady b -> forallb isSpace w = true -> grownBy [] b (buildRun b (textToken w)).
Proof.
  intros Hb Hw. destruct w as [|c w]; [apply grownBy_refl|].
  cbn [textToken Mjml.buildRun fold_left]. now apply step_whitespace.
Qed.

Lemma sameText_false a b : a <> b -> sameText a b = false.
Proof. intros H. unfold sameText. now apply bool_decide_eq_false_2. Qed.

Lemma sameText_refl a : sameText a a = true.
Proof. unfold sameText. now apply bool_decide_eq_true_2. Qed.

Lemma step_open_leaf b t d attrs sc src :
  steady b -> topAllows b t -> tagOk t ->
  getComponentDefinition componentDefinitions t = Some d ->
  sc || isVoid d = true ->
  grownBy [mkNode tt t (attrsToProps attrs ∪ defaultProps d) [] None] b
    (buildStep b (TOpen (chars t) attrs sc src)).
Proof.
  intros Hb Hallow (_ & He & Hh) Hd Hleaf. rewrite steady_dispatch by assumption.
  cbn [structuralStep]. unfold structuralOpen.
  rewrite (sameText_false _ _ He), (sameText_false _ _ Hh), text_chars, Hd, Hleaf.
  now apply attach_grown.
Qed.

Lemma step_open_push b t d attrs src :
  steady b -> tagOk t ->
  getComponentDefinition componentDefinitions t = Some d ->
  isVoid d = false ->
  buildStep b (TOpen (chars t) attrs false src)
  = push (mkFrame (match defaultContent d with
                   | Some _ => TextBearing
                   | None => Structural
                   end) (chars t) t (attrsToProps attrs ∪ defaultProps d) [] [] src) b.
Proof.
  intros Hb (_ & He & Hh) Hd Hvoid. rewrite steady_dispatch by assumption.
  cbn [structuralStep]. unfold structuralOpen.
  now rewrite (sameText_false _ _ He), (sameText_false _ _ Hh), text_chars, Hd, Hvoid.
Qed.

(** The closing tag of the element on top of the stack closes it. *)
Lemma step_close b f below tag src :
  inHead b = false -> stack b = f :: below -> fname f = tag -> tag <> envelopeTag ->
  buildStep b (TClose tag src)
  = attach (finish (withSrc f src)) (fsrc f ++ src) (mkBuild below (root b) false).
Proof.
  intros Hh Hs Hn He. unfold Mjml.buildStep. rewrite Hh, Hs.
  assert (Hon : onStack tag (f :: below) = true).
  { unfold onStack. cbn [existsb]. rewrite Hn, sameText_refl. reflexivity. }
  assert (Hcd : closeDown tag src None (f :: below) (root b) false
                = attach (finish (withSrc f src)) (fsrc f ++ src)
                    (mkBuild below (root b) false)).
  { cbn [Mjml.closeDown under]. rewrite Hn, sameText_refl. reflexivity. }
  destruct (isVerbatim f).
  - cbn [verbatimStep]. now rewrite Hs, Hon, Hh.
  - cbn [structuralStep]. unfold structuralClose.
    now rewrite (sameText_false _ _ He), Hs, Hon, Hh.
Qed.

(** ** A content under its text-bearing element *)

Lemma onStack_unknown tag frames :
  namesKnown frames -> known (text tag) = false -> onStack tag frames = false.
Proof.
  intros Hk Hu. unfold onStack. induction Hk as [|f frames Hf _ IH]; [reflexivity|].
  cbn [existsb]. rewrite IH, orb_false_r. apply sameText_false.
  intros E. rewrite E in Hf. congruence.
Qed.

Lemma run_content ts : forall b f below,
  inHead b = false -> stack b = f :: below -> isVerbatim f = true ->
  namesKnown (f :: below) -> cleanTokens ts ->
  exists f',
    stack (buildRun b ts) = f' :: below /\ sameBut f f' [] (srcs ts)
    /\ root (buildRun b ts) = root b /\ inHead (buildRun b ts) = false.
Proof.
  induction ts as [|t ts IH]; intros b f below Hh Hs Hv Hk Hc.
  - exists f. simpl. auto using sameBut_refl.
  - inversion Hc as [|? ? Ht Hc']; subst.
    assert (Hstep : buildStep b t = appendVerbatim (tokenSrc t) b).
    { unfold Mjml.buildStep. rewrite Hh, Hs, Hv.
      destruct t as [w|tag attrs sc w|tag w]; try reflexivity.
      cbn [verbatimStep]. rewrite Hs.
      now rewrite (onStack_unknown tag (f :: below) Hk Ht). }
    cbn [Mjml.buildRun fold_left]. rewrite Hstep.
    unfold appendVerbatim. rewrite Hs.
    set (f1 := withVerbatim f (tokenSrc t)).
    set (b1 := mkBuild (f1 :: below) (root b) (inHead b)).
    destruct (IH b1 f1 below) as (f' & Hs' & Hf' & Hr' & Hh'); try assumption; try reflexivity.
    { inversion Hk; subst. constructor; assumption. }
    assert (H1 : sameBut f f1 [] (tokenSrc t)).
    { unfold sameBut, f1. simpl. now rewrite app_nil_r. }
    exists f'. split; [exact Hs'|]. split; [|split; assumption].
    exact (sameBut_trans _ _ _ _ _ _ _ H1 Hf').
Qed.

(** ** Whitespace *)

Lemma ws_noLt w : ws w -> noLt w.
Proof.
  unfold ws, noLt. induction w as [|c w IH]; [constructor|].
  cbn [forallb]. intros H. apply andb_true_iff in H as [Hc Hw].
  constructor; [|now apply IH].
  destruct (Ascii.eqb c "<") eqn:E; [|reflexivity].
  apply Ascii.eqb_eq in E. subst c. discriminate Hc.
Qed.

Lemma ws_app a b : ws a -> ws b -> ws (a ++ b).
Proof. unfold ws. intros Ha Hb. now rewrite forallb_app, Ha, Hb. Qed.

Lemma ws_indent d : ws (indent d).
Proof.
  unfold ws, indent. induction (2 * d)%nat as [|k IH]; [reflexivity|].
  cbn [repeat forallb]. now rewrite IH.
Qed.

Lemma ws_newline : ws [newline].
Proof. reflexivity. Qed.

Lemma buildRun_app b ts1 ts2 : buildRun b (ts1 ++ ts2) = buildRun (buildRun b ts1) ts2.
Proof. unfold Mjml.buildRun. apply fold_left_app. Qed.

Lemma build_eta b : mkBuild (stack b) (root b) (inHead b) = b.
Proof. now destruct b. Qed.

(** ** Trees the serializer writes so that the parser reads them back *)

Lemma emitted_valid t p :
  validKeys p = true -> validNames (emitted componentDefinitions t p).
Proof.
  unfold validKeys, validNames, emitted. rewrite forallb_forall. intros H.
  apply Forall_forall. intros kv Hin. apply H.
  apply list_elem_of_filter in Hin as [_ Hin]. now apply list_elem_of_In.
Qed.

Lemma emitted_restores t d p :
  getComponentDefinition componentDefinitions t = Some d ->
  (forall k, p !! k = None -> defaultProps d !! k = None) ->
  attrsToProps (lexAttrs (emitted componentDefinitions t p)) ∪ defaultProps d = p.
Proof.
  intros Hd Hdom. rewrite attrsToProps_lexAttrs. unfold emitted, defaultsOf. rewrite Hd.
  rewrite <- (map_filter_alt (fun kv => defaultProps d !! kv.1 <> Some kv.2) p).
  apply map_eq. intros k. rewrite lookup_union, map_lookup_filter.
  destruct (p !! k) as [v|] eqn:Hp; simpl.
  - destruct (decide (defaultProps d !! k = Some v)) as [Heq|Hne].
    + rewrite option_guard_False by (simpl; tauto). simpl. now rewrite Heq.
    + rewrite option_guard_True by exact Hne. simpl.
      now destruct (defaultProps d !! k).
  - now rewrite (Hdom k Hp).
Qed.

(** ** An element, from its opening tag to its closing tag *)

Lemma known_defined t d :
  getComponentDefinition componentDefinitions t = Some d -> known t = true.
Proof. unfold Mjml.known. now intros ->. Qed.

(** The whitespace before an element and its opening tag: the element is
    on the stack. *)
Lemma open_element b w t d attrs src :
  steady b -> ws w -> tagOk t ->
  getComponentDefinition componentDefinitions t = Some d ->
  isVoid d = false ->
  exists b1,
    grownBy [] b b1
    /\ buildRun b (textToken w ++ [TOpen (chars t) attrs false src])
       = push (mkFrame (match defaultContent d with
                        | Some _ => TextBearing
                        | None => Structural
                        end) (chars t) t (attrsToProps attrs ∪ defaultProps d) [] [] src) b1.
Proof.
  intros Hb Hw Htag Hd Hvoid. exists (buildRun b (textToken w)).
  pose proof (run_textToken b w Hb Hw) as G. split; [exact G|].
  rewrite buildRun_app. cbn [Mjml.buildRun fold_left].
  apply step_open_push; eauto using grownBy_steady.
Qed.

(** The closing tag of the element on top of the stack: the element is
    finished under what was below it. *)
Lemma close_element b1 b2 f t src :
  inHead b1 = false -> inHead b2 = false ->
  stack b2 = f :: stack b1 -> root b2 = root b1 ->
  fname f = chars t -> ftype f = t -> fkind f <> Unknown -> tagOk t -> topAllows b1 t ->
  grownBy [finish (withSrc f src)] b1 (buildStep b2 (TClose (chars t) src)).
Proof.
  intros H1 H2 Hs Hr Hn Ht Hk (_ & He & _) Hallow.
  rewrite (step_close b2 f (stack b1) (chars t) src H2 Hs Hn He).
  rewrite Hr, <- H1, build_eta. apply attach_grown.
  unfold Mjml.finish. cbn [fkind withSrc ftype].
  destruct (fkind f); cbn [type]; try (now rewrite Ht). now destruct Hk.
Qed.

Lemma lex_newline : lexRun (LText []) [newline] = (LText [newline], []).
Proof. reflexivity. Qed.

Lemma cleanContent_tokens inner :
  cleanContent componentDefinitions inner = true ->
  exists pending ts,
    lexRun (LText []) (chars inner) = (LText pending, ts)
    /\ cleanTokens (ts ++ textToken pending)
    /\ srcs (ts ++ textToken pending) = chars inner.
Proof.
  unfold cleanContent. intros H.
  pose proof (lexRun_src (chars inner) (LText [])) as Hsrc.
  destruct (lexRun (LText []) (chars inner)) as [l ts] eqn:E.
  destruct l as [pending| | | | |]; try discriminate H.
  exists pending, ts. split; [reflexivity|]. split.
  - apply Forall_app. split.
    + apply Forall_forall. intros t Hin. rewrite forallb_forall in H.
      apply list_elem_of_In in Hin. specialize (H t Hin). now apply negb_true_iff in H.
    + destruct pending; repeat constructor.
  - rewrite srcs_app, srcs_textToken. now apply Hsrc.
Qed.

Lemma text_reads_back {Id} (i : Id) t p inner d :
  getComponentDefinition componentDefinitions t = Some d ->
  tagOk t -> propsOk d p ->
  is_Some (defaultContent d) ->
  cleanContent componentDefinitions inner = true ->
  readsBack (mkNode i t p [] (Some inner)).
Proof.
  intros Hd Htag [Hkeys Hdom] [c0 Hc0] Hclean pending depth Hpending.
  destruct (cleanContent_tokens inner Hclean) as (pend' & ts_i & Hlex & Hct & Hsrc).
  pose proof Htag as (Hvalid & He & Hh).
  eexists. split.
  - cbn [nodeToMjml].
    eapply lexRun_app; [apply lex_text, ws_noLt, ws_indent|].
    eapply lexRun_app;
      [apply lex_openTag; [exact Hvalid | now apply emitted_valid]|].
    eapply lexRun_app; [exact Hlex|].
    eapply lexRun_app; [now apply lex_closeTag|].
    apply lex_newline.
  - intros b Hb Hallow. cbn [app type shape map].
    assert (Hvoid : isVoid d = false).
    { unfold isVoid. rewrite Hc0. rewrite (bool_decide_eq_false_2 (Some c0 = None)) by discriminate.
      apply andb_false_r. }
    destruct (open_element b (pending ++ indent depth) t d
                (lexAttrs (emitted componentDefinitions t p))
                (openTag (chars t) (emitted componentDefinitions t p)) Hb
                (ws_app _ _ Hpending (ws_indent depth)) Htag Hd Hvoid)
      as (b1 & G1 & Hopen).
    rewrite buildRun_app, Hopen. rewrite Hc0, (emitted_restores t d p Hd Hdom).
    pose proof (grownBy_steady _ _ _ G1 Hb) as [Hh1 Hs1].
    set (frame := mkFrame TextBearing (chars t) t p [] [] _).
    rewrite app_nil_r, app_assoc, buildRun_app.
    destruct (run_content (ts_i ++ textToken pend') (push frame b1) frame (stack b1))
      as (f' & Hs' & Hf' & Hr' & Hh'); try reflexivity; try assumption.
    { constructor.
      - cbn [fname frame]. rewrite text_chars. eapply known_defined; eauto.
      - eapply Forall_impl; [exact Hs1|]. now intros f [_ Hf]. }
    destruct Hf' as (Hk & Hn & Ht & Hp & Hch & Htx).
    cbn [Mjml.buildRun fold_left].
    pose proof (close_element b1 _ f' t (closeTag (chars t)) Hh1 Hh' Hs' Hr') as G2.
    assert (Hfin : finish (withSrc f' (closeTag (chars t))) = mkNode tt t p [] (Some inner)).
    { unfold Mjml.finish. cbn [fkind withSrc ftype fprops ftext].
      rewrite Hk, Ht, Hp, Htx. cbn [fkind ftype fprops ftext frame app].
      now rewrite Hsrc, text_chars. }
    rewrite Hfin in G2.
    apply (grownBy_trans [] _ b b1); [exact G1|].
    apply G2; try assumption.
    + rewrite Hk. discriminate.
    + eapply grownBy_topAllows; eassumption.
Qed.

Lemma leaf_reads_back {Id} (i : Id) t p d :
  getComponentDefinition componentDefinitions t = Some d ->
  tagOk t -> propsOk d p ->
  allowedChildren d = [] ->
  readsBack (mkNode i t p [] None).
Proof.
  intros Hd Htag [Hkeys Hdom] Hleaf pending depth Hpending.
  pose proof Htag as (Hvalid & He & Hh).
  eexists. split.
  - cbn [nodeToMjml]. unfold getAllowedChildren. rewrite Hd, Hleaf.
    eapply lexRun_app; [apply lex_text, ws_noLt, ws_indent|].
    eapply lexRun_app;
      [apply lex_selfClosingTag; [exact Hvalid | now apply emitted_valid]|].
    apply lex_newline.
  - intros b Hb Hallow. cbn [app type shape map].
    rewrite app_nil_r, buildRun_app.
    pose proof (run_textToken b (pending ++ indent depth) Hb
                  (ws_app _ _ Hpending (ws_indent depth))) as G1.
    apply (grownBy_trans [] _ b _ _ G1).
    cbn [Mjml.buildRun fold_left].
    rewrite <- (emitted_restores t d p Hd Hdom) at 1.
    apply step_open_leaf; eauto using grownBy_steady, grownBy_topAllows.
Qed.

Lemma children_read_back {Id} (cs : list (Node Id)) depth :
  Forall readsBack cs ->
  exists ts,
    lexRun (LText [newline])
      (flat_map (fun child => nodeToMjml componentDefinitions child depth) cs)
    = (LText [newline], ts)
    /\ forall b,
        steady b ->
        Forall (fun child => topAllows b (type child)) cs ->
        grownBy (map shape cs) b (buildRun b ts).
Proof.
  induction 1 as [|child cs Hchild _ (ts2 & Hlex2 & Hbuild2)].
  - exists []. split; [reflexivity|]. intros b _ _. apply grownBy_refl.
  - destruct (Hchild [newline] depth ws_newline) as (ts1 & Hlex1 & Hbuild1).
    exists (ts1 ++ ts2). split.
    + cbn [flat_map]. eapply lexRun_app; eassumption.
    + intros b Hb Hallow. inversion Hallow as [|? ? Ha Hrest]; subst.
      rewrite buildRun_app. cbn [map].
      pose proof (Hbuild1 b Hb Ha) as G1.
      apply (grownBy_trans [shape child] _ b _ _ G1).
      apply Hbuild2; [eauto using grownBy_steady|].
      eapply Forall_impl; [exact Hrest|]. intros c Hc.
      eapply grownBy_topAllows; eassumption.
Qed.

Lemma block_reads_back {Id} (i : Id) t p (cs : list (Node Id)) d :
  getComponentDefinition componentDefinitions t = Some d ->
  tagOk t -> propsOk d p ->
  defaultContent d = None -> allowedChildren d <> [] ->
  Forall readsBack cs ->
  Forall (fun child => canContain t (type child) = true) cs ->
  readsBack (mkNode i t p cs None).
Proof.
  intros Hd Htag [Hkeys Hdom] Hnone Hblock Hcs Hcan pending depth Hpending.
  pose proof Htag as (Hvalid & He & Hh).
  destruct (children_read_back cs (S depth) Hcs) as (ts_c & Hlexc & Hbuildc).
  assert (Hform : nodeToMjml componentDefinitions (mkNode i t p cs None) depth
                  = indent depth
                    ++ openTag (chars t) (emitted componentDefinitions t p)
                    ++ [newline]
                    ++ flat_map (fun child => nodeToMjml componentDefinitions child (S depth)) cs
                    ++ indent depth ++ closeTag (chars t) ++ [newline]).
  { cbn [nodeToMjml]. unfold getAllowedChildren. rewrite Hd.
    destruct cs; [|reflexivity]. destruct (allowedChildren d); [now destruct Hblock|reflexivity]. }
  eexists. split.
  - rewrite Hform.
    eapply lexRun_app; [apply lex_text, ws_noLt, ws_indent|].
    eapply lexRun_app;
      [apply lex_openTag; [exact Hvalid | now apply emitted_valid]|].
    eapply lexRun_app; [apply lex_newline|].
    eapply lexRun_app; [exact Hlexc|].
    eapply lexRun_app; [apply lex_text, ws_noLt, ws_indent|].
    eapply lexRun_app; [now apply lex_closeTag|].
    apply lex_newline.
  - intros b Hb Hallow. cbn [app type shape].
    assert (Hvoid : isVoid d = false).
    { unfold isVoid. now rewrite (bool_decide_eq_false_2 _ Hblock). }
    destruct (open_element b (pending ++ indent depth) t d
                (lexAttrs (emitted componentDefinitions t p))
                (openTag (chars t) (emitted componentDefinitions t p)) Hb
                (ws_app _ _ Hpending (ws_indent depth)) Htag Hd Hvoid)
      as (b1 & G1 & Hopen).
    rewrite buildRun_app, Hopen. rewrite Hnone, (emitted_restores t d p Hd Hdom).
    pose proof (grownBy_steady _ _ _ G1 Hb) as Hb1. pose proof Hb1 as [Hh1 Hs1].
    set (frame := mkFrame Structural (chars t) t p [] [] _).
    assert (Hb2 : steady (push frame b1)).
    { split; [exact Hh1|]. constructor; [|exact Hs1].
      split; [reflexivity|]. cbn [fname frame]. rewrite text_chars.
      eapply known_defined; eauto. }
    rewrite !app_nil_r, !buildRun_app.
    pose proof (Hbuildc (push frame b1) Hb2 Hcan) as G2.
    set (b3 := buildRun (push frame b1) ts_c) in *.
    pose proof (run_textToken b3 ([newline] ++ indent depth)
                  (grownBy_steady _ _ _ G2 Hb2)
                  (ws_app _ _ ws_newline (ws_indent depth))) as G3.
    pose proof (grownBy_trans _ _ _ _ _ G2 G3) as [Hh4 G4].
    cbn [inHead push] in Hh4. rewrite Hh1 in Hh4.
    cbn [stack push] in G4. destruct G4 as (f' & Hs' & Hf' & Hr').
    destruct Hf' as (Hk & Hn & Ht & Hp & Hch & Htx).
    cbn [Mjml.buildRun fold_left].
    pose proof (close_element b1 _ f' t (closeTag (chars t)) Hh1 Hh4 Hs' Hr') as G5.
    assert (Hfin : finish (withSrc f' (closeTag (chars t)))
                   = mkNode tt t p (map shape cs) None).
    { unfold Mjml.finish. cbn [fkind withSrc ftype fprops fchildren].
      rewrite Hk, Ht, Hp, Hch. cbn [fkind ftype fprops fchildren frame app].
      now rewrite !app_nil_r. }
    rewrite Hfin in G5.
    apply (grownBy_trans [] _ b b1); [exact G1|].
    apply G5; try assumption.
    + rewrite Hk. discriminate.
    + eapply grownBy_topAllows; eassumption.
Qed.

Theorem printable_reads_back {Id} (n : Node Id) : printable n -> readsBack n.
Proof.
  induction n as [i t p cs c IH] using Node_ind. intros Hn.
  inversion Hn; subst.
  - eapply text_reads_back; eassumption.
  - eapply leaf_reads_back; eassumption.
  - eapply block_reads_back; try eassumption.
    match goal with H : Forall printable cs |- _ => rename H into Hcs end.
    clear -IH Hcs. induction IH as [|x l Hx _ IHl]; [constructor|].
    inversion Hcs; subst. constructor; auto.
Qed.

End Schema.
End BuildFacts.

(** ** The round trip through markup *)

Module RoundTrip.
Import Chars Mjml MjmlFacts LexFacts BuildFacts.
Local Close Scope Z_scope.

Section Schema.

Variable componentDefinitions : gmap string ComponentDefinition.
Variable misplaced : Misplaced.

#[local] Abbreviation buildStep := (buildStep componentDefinitions misplaced).
#[local] Abbreviation buildRun := (buildRun componentDefinitions misplaced).
#[local] Abbreviation steady := (steady componentDefinitions).
#[local] Abbreviation definitionOk := (definitionOk componentDefinitions).

(** ** What a well-formed registry gives *)

Lemma wellFormed_lookup t d :
  wellFormed componentDefinitions = true ->
  componentDefinitions !! t = Some d ->
  wellFormedDefinition componentDefinitions (t, d) = true.
Proof.
  unfold wellFormed. rewrite forallb_forall. intros H Hd. apply H.
  apply list_elem_of_In. now apply elem_of_map_to_list.
Qed.

Lemma validKeys_lookup (m : gmap string string) k v :
  validKeys m = true -> m !! k = Some v -> validAttr (chars k) = true.
Proof.
  unfold validKeys. rewrite forallb_forall. intros H Hk.
  apply (H (k, v)). apply list_elem_of_In. now apply elem_of_map_to_list.
Qed.

Lemma validKeys_intro (m : gmap string string) :
  (forall k v, m !! k = Some v -> validAttr (chars k) = true) -> validKeys m = true.
Proof.
  intros H. unfold validKeys. apply forallb_forall. intros [k v] Hin.
  apply list_elem_of_In, elem_of_map_to_list in Hin. exact (H k v Hin).
Qed.

Lemma validKeys_union (a b : gmap string string) :
  validKeys a = true -> validKeys b = true -> validKeys (a ∪ b) = true.
Proof.
  intros Ha Hb. apply validKeys_intro. intros k v Hk.
  apply lookup_union_Some_raw in Hk as [Hk | [_ Hk]];
    eauto using validKeys_lookup.
Qed.

Lemma wellFormed_definition t d :
  wellFormed componentDefinitions = true ->
  componentDefinitions !! t = Some d ->
  definitionOk t d.
Proof.
  intros Hwf Hd. pose proof (wellFormed_lookup t d Hwf Hd) as H.
  unfold wellFormedDefinition in H. cbn [fst snd] in H.
  apply andb_true_iff in H as [H Htemplates].
  apply andb_true_iff in H as [H Hcontent].
  apply andb_true_iff in H as [H Hkeys].
  apply andb_true_iff in H as [H Hhead].
  apply andb_true_iff in H as [Hvalid Henv].
  apply negb_true_iff in Hhead, Henv.
  split.
  - repeat split; [assumption| |]; intros E; rewrite E in *;
      unfold sameText in *; rewrite bool_decide_eq_true_2 in * by reflexivity;
      discriminate.
  - assumption.
  - intros inner Hc. rewrite Hc in Hcontent.
    apply andb_true_iff in Hcontent as [H1 H2].
    split; [assumption|]. now apply bool_decide_eq_true in H2.
  - apply Forall_forall. intros template Hin.
    rewrite forallb_forall in Htemplates. apply list_elem_of_In in Hin.
    specialize (Htemplates template Hin). unfold wellFormedTemplate in Htemplates.
    now apply andb_true_iff in Htemplates as [_ Htemplates].
Qed.

(** ** Schema-default trees are printable *)

Lemma canContain_leaf t d child :
  getComponentDefinition componentDefinitions t = Some d ->
  allowedChildren d = [] ->
  canContain componentDefinitions t child = false.
Proof.
  intros Hd Hleaf. unfold canContain, getAllowedChildren. rewrite Hd, Hleaf.
  apply bool_decide_eq_false_2. apply not_elem_of_nil.
Qed.

Lemma schemaDefault_printable {Id} (n : Node Id) :
  wellFormed componentDefinitions = true ->
  forall templates,
    templatesOk templates ->
    schemaDefault componentDefinitions templates n = true ->
    printable componentDefinitions n.
Proof.
  intros Hwf. induction n as [i t p cs c IH] using Node_ind.
  intros templates Htpl H. cbn [schemaDefault] in H.
  destruct (getComponentDefinition componentDefinitions t) as [d|] eqn:Hd; [|discriminate].
  pose proof (wellFormed_definition t d Hwf Hd) as [Htag Hkeys Hcontent Htemplates].
  apply andb_true_iff in H as [Hc H]. apply bool_decide_eq_true in Hc. subst c.
  assert (Hprops : propsOk d p
                   /\ Forall (fun child => canContain componentDefinitions t (type child) = true) cs
                   /\ Forall (printable componentDefinitions) cs).
  { apply orb_true_iff in H as [H|H]; apply andb_true_iff in H as [H1 H2].
    - apply bool_decide_eq_true in H1. subst p. split; [now split|].
      rewrite forallb_forall in H2.
      split; apply Forall_forall; intros child Hin.
      + apply list_elem_of_In in Hin. specialize (H2 child Hin).
        now apply andb_true_iff in H2 as [H2 _].
      + rewrite Forall_forall in IH. apply (IH child Hin (defaultChildren d) Htemplates).
        apply list_elem_of_In in Hin. specialize (H2 child Hin).
        now apply andb_true_iff in H2 as [_ H2].
    - apply bool_decide_eq_true in H2. subst cs.
      apply existsb_exists in H1 as (template & Hin & Hfrom).
      unfold fromTemplate in Hfrom. apply andb_true_iff in Hfrom as [_ Hp].
      apply bool_decide_eq_true in Hp. subst p.
      unfold defaultsOf. rewrite Hd.
      split; [|split; constructor].
      split.
      + apply validKeys_union; [|exact Hkeys].
        unfold templatesOk in Htpl. rewrite Forall_forall in Htpl.
        apply Htpl. now apply list_elem_of_In.
      + intros k Hk. now apply lookup_union_None in Hk as [_ Hk]. }
  destruct Hprops as (Hpo & Hcan & Hcs).
  assert (Hleaf : allowedChildren d = [] -> cs = []).
  { intros Hleaf. destruct cs as [|child cs']; [reflexivity|].
    inversion Hcan as [|? ? Hc _]; subst.
    now rewrite (canContain_leaf t d _ Hd Hleaf) in Hc. }
  destruct (defaultContent d) as [inner|] eqn:Hcont.
  - destruct (Hcontent inner eq_refl) as [Hclean Hleaf'].
    rewrite (Hleaf Hleaf'). eapply printable_text; eauto.
  - destruct (decide (allowedChildren d = [])) as [Hl|Hb].
    + rewrite (Hleaf Hl). eapply printable_leaf; eauto.
    + eapply printable_block; eauto.
Qed.

(** ** The head block is passed over *)

Lemma safeLines_nil : safeLines [].
Proof. exists []. split; [reflexivity|constructor]. Qed.

Lemma safeLines_app a b : safeLines a -> safeLines b -> safeLines (a ++ b).
Proof.
  intros (ta & Ha & Hsa) (tb & Hb & Hsb). exists (ta ++ tb). split.
  - eapply lexRun_app; eassumption.
  - now apply Forall_app.
Qed.

Lemma safeLines_flat_map {A} (f : A -> list ascii) l :
  (forall x, safeLines (f x)) -> safeLines (flat_map f l).
Proof.
  intros H. induction l as [|x l IH]; [apply safeLines_nil|].
  cbn [flat_map]. now apply safeLines_app.
Qed.

Lemma headSafe_textToken w : Forall headSafe (textToken w).
Proof. destruct w; repeat constructor. Qed.

Lemma lex_line_selfClosing p depth tag kvs :
  validTag tag = true -> validNames kvs ->
  lexRun (LText p) (indent depth ++ selfClosingTag tag kvs ++ [newline])
  = (LText [newline],
     textToken (p ++ indent depth)
     ++ [TOpen tag (lexAttrs kvs) true (selfClosingTag tag kvs)]).
Proof.
  intros Htag Hkvs.
  erewrite lexRun_app;
    [| apply lex_text, ws_noLt, ws_indent
     | erewrite lexRun_app; [reflexivity | now apply lex_selfClosingTag | apply lex_newline]].
  cbn [app]. now rewrite app_nil_r.
Qed.

Lemma lex_line_open p depth tag kvs :
  validTag tag = true -> validNames kvs ->
  lexRun (LText p) (indent depth ++ openTag tag kvs ++ [newline])
  = (LText [newline],
     textToken (p ++ indent depth) ++ [TOpen tag (lexAttrs kvs) false (openTag tag kvs)]).
Proof.
  intros Htag Hkvs.
  erewrite lexRun_app;
    [| apply lex_text, ws_noLt, ws_indent
     | erewrite lexRun_app; [reflexivity | now apply lex_openTag | apply lex_newline]].
  cbn [app]. now rewrite app_nil_r.
Qed.

Lemma lex_line_close p depth tag :
  validTag tag = true ->
  lexRun (LText p) (indent depth ++ closeTag tag ++ [newline])
  = (LText [newline], textToken (p ++ indent depth) ++ [TClose tag (closeTag tag)]).
Proof.
  intros Htag.
  erewrite lexRun_app;
    [| apply lex_text, ws_noLt, ws_indent
     | erewrite lexRun_app; [reflexivity | now apply lex_closeTag | apply lex_newline]].
  cbn [app]. now rewrite app_nil_r.
Qed.

Lemma line_selfClosing depth tag kvs :
  validTag tag = true -> validNames kvs ->
  safeLines (indent depth ++ selfClosingTag tag kvs ++ [newline]).
Proof.
  intros Htag Hkvs. eexists. split; [now apply lex_line_selfClosing|].
  apply Forall_app. split; [apply headSafe_textToken | repeat constructor].
Qed.

Lemma line_open depth tag kvs :
  validTag tag = true -> validNames kvs ->
  safeLines (indent depth ++ openTag tag kvs ++ [newline]).
Proof.
  intros Htag Hkvs. eexists. split; [now apply lex_line_open|].
  apply Forall_app. split; [apply headSafe_textToken | repeat constructor].
Qed.

Lemma line_close depth tag :
  validTag tag = true -> tag <> headTag ->
  safeLines (indent depth ++ closeTag tag ++ [newline]).
Proof.
  intros Htag Hne. eexists. split; [now apply lex_line_close|].
  apply Forall_app. split; [apply headSafe_textToken | repeat constructor; exact Hne].
Qed.

Lemma safe_font f : safeLines (fontToMjml f).
Proof.
  unfold fontToMjml. apply line_selfClosing; [reflexivity|].
  repeat constructor.
Qed.

Lemma safe_breakpoint b : safeLines (breakpointToMjml b).
Proof.
  destruct b as [width|]; [|apply safeLines_nil].
  unfold breakpointToMjml. apply line_selfClosing; [reflexivity|].
  repeat constructor.
Qed.

Lemma safe_tagDefaults entry :
  wellFormed componentDefinitions = true ->
  safeLines (tagDefaults componentDefinitions entry).
Proof.
  intros Hwf. unfold tagDefaults.
  destruct (getComponentDefinition componentDefinitions entry.1) as [d|] eqn:Hd;
    [|apply safeLines_nil].
  pose proof (wellFormed_definition _ d Hwf Hd) as [[Hvalid _] Hkeys _ _].
  apply line_selfClosing; [exact Hvalid|].
  apply Forall_forall. intros kv Hin.
  apply list_elem_of_filter in Hin as [[v Hv] _].
  eapply validKeys_lookup; eassumption.
Qed.

Lemma headToMjml_lines head :
  wellFormed componentDefinitions = true ->
  exists ts,
    lexRun (LText [newline]) (headToMjml componentDefinitions head)
    = (LText [newline],
       (textToken ([newline] ++ indent 1)
        ++ [TOpen headTag [] false (openTag headTag [])])
       ++ ts
       ++ (textToken ([newline] ++ indent 1)
           ++ [TClose headTag (closeTag headTag)]))
    /\ Forall headSafe ts.
Proof.
  intros Hwf.
  set (inner := flat_map fontToMjml (fonts head)
             ++ breakpointToMjml (breakpoint head)
             ++ (indent 2 ++ openTag (chars "mj-attributes") [] ++ [newline])
             ++ flat_map (tagDefaults componentDefinitions) (map_to_list (attributes head))
             ++ (indent 2 ++ closeTag (chars "mj-attributes") ++ [newline])).
  assert (Hinner : safeLines inner).
  { apply safeLines_app; [apply safeLines_flat_map, safe_font|].
    apply safeLines_app; [apply safe_breakpoint|].
    apply safeLines_app; [apply line_open; [reflexivity|constructor]|].
    apply safeLines_app; [apply safeLines_flat_map; intros entry; now apply safe_tagDefaults|].
    apply line_close; [reflexivity|]. intros E. discriminate E. }
  assert (Hform : headToMjml componentDefinitions head
                  = (indent 1 ++ openTag headTag [] ++ [newline])
                    ++ inner
                    ++ (indent 1 ++ closeTag headTag ++ [newline])).
  { unfold headToMjml, inner. fold headTag. now rewrite <- !app_assoc. }
  destruct Hinner as (ts & Hlex & Hsafe). exists ts. split; [|exact Hsafe].
  rewrite Hform.
  eapply lexRun_app; [apply lex_line_open; [reflexivity|constructor]|].
  eapply lexRun_app; [exact Hlex|].
  apply lex_line_close. reflexivity.
Qed.

Lemma head_ignores ts : forall b,
  inHead b = true -> Forall headSafe ts -> buildRun b ts = b.
Proof.
  induction ts as [|t ts IH]; intros b Hb Hts; [reflexivity|].
  inversion Hts as [|? ? Ht Hrest]; subst.
  cbn [Mjml.buildRun fold_left].
  assert (Hstep : buildStep b t = b).
  { unfold Mjml.buildStep. rewrite Hb.
    destruct t as [w|tag attrs sc w|tag w]; try reflexivity.
    cbn [headStep]. cbn [headSafe] in Ht. now rewrite (sameText_false _ _ Ht). }
  rewrite Hstep. now apply IH.
Qed.

(** Outside every element, whitespace changes nothing. *)
Lemma grown_outside b b' : grownBy [] b b' -> stack b = [] -> b' = b.
Proof.
  intros [Hh H] Hs. rewrite Hs in H. destruct H as [Hs' Hr].
  rewrite <- (build_eta b'), <- (build_eta b). simpl in Hr. congruence.
Qed.

Lemma whitespace_outside b w :
  steady b -> stack b = [] -> ws w -> buildRun b (textToken w) = b.
Proof.
  intros Hb Hs Hw. eapply grown_outside; [|exact Hs].
  now apply run_textToken.
Qed.

Lemma envelope_open_ignored b attrs sc src :
  steady b -> buildStep b (TOpen envelopeTag attrs sc src) = b.
Proof.
  intros Hb. rewrite steady_dispatch by assumption.
  cbn [structuralStep]. unfold structuralOpen. now rewrite sameText_refl.
Qed.

Lemma envelope_close_ignored b src :
  steady b -> buildStep b (TClose envelopeTag src) = b.
Proof.
  intros Hb. rewrite steady_dispatch by assumption.
  cbn [structuralStep]. unfold structuralClose. now rewrite sameText_refl.
Qed.

Lemma head_passed b w w' src src' ts :
  steady b -> stack b = [] -> ws w -> ws w' -> Forall headSafe ts ->
  buildRun b ((textToken w ++ [TOpen headTag [] false src])
              ++ ts ++ (textToken w' ++ [TClose headTag src']))
  = b.
Proof.
  intros Hb Hs Hw Hw' Hts. pose proof Hb as [Hh _].
  rewrite !buildRun_app, (whitespace_outside b w Hb Hs Hw).
  cbn [Mjml.buildRun fold_left].
  assert (Hopen : buildStep b (TOpen headTag [] false src)
                  = mkBuild (stack b) (root b) true).
  { rewrite steady_dispatch by assumption. cbn [structuralStep]. unfold structuralOpen.
    rewrite (sameText_false headTag envelopeTag) by discriminate.
    now rewrite sameText_refl. }
  rewrite Hopen.
  fold (buildRun (mkBuild (stack b) (root b) true) ts).
  rewrite (head_ignores ts) by (easy || assumption).
  fold (buildRun (mkBuild (stack b) (root b) true) (textToken w')).
  rewrite (head_ignores (textToken w')) by (easy || apply headSafe_textToken).
  unfold Mjml.buildStep. cbn [inHead headStep]. rewrite sameText_refl.
  cbn [stack root]. rewrite <- Hh. apply build_eta.
Qed.

(** ** The round trip *)

Lemma parseShape_generateMjml {Id} (documentRoot : Node Id) head :
  wellFormed componentDefinitions = true ->
  printable componentDefinitions documentRoot ->
  parseShape componentDefinitions misplaced
    (generateMjml componentDefinitions documentRoot head)
  = Ok (Some (shape documentRoot)).
Proof.
  intros Hwf Hdoc.
  destruct (headToMjml_lines head Hwf) as (ts_h & Hlex_h & Hsafe).
  destruct (printable_reads_back componentDefinitions misplaced documentRoot Hdoc
              [newline] 1%nat ws_newline) as (ts_n & Hlex_n & Hbuild_n).
  set (b0 := mkBuild [] None false).
  assert (Hb0 : steady b0) by (split; [reflexivity|constructor]).
  pose proof (Hbuild_n b0 Hb0 I) as [Hh [Hs Hr]].
  assert (Hhead := head_passed b0 ([newline] ++ indent 1) ([newline] ++ indent 1)
                     (openTag headTag []) (closeTag headTag) ts_h Hb0 eq_refl
                     (ws_app _ _ ws_newline (ws_indent 1))
                     (ws_app _ _ ws_newline (ws_indent 1)) Hsafe).
  set (headTokens := (textToken ([newline] ++ indent 1) ++ _) ++ ts_h ++ _) in *.
  set (b1 := buildRun b0 ts_n) in *. cbn in Hr.
  assert (Hb1 : steady b1) by (split; [exact Hh | rewrite Hs; constructor]).
  unfold parseShape, generateMjml. rewrite chars_text.
  unfold tokenize, documentToMjml. fold envelopeTag.
  erewrite lexRun_app;
    [| apply lex_openTag; [reflexivity|constructor]
     | eapply lexRun_app; [apply lex_newline|];
       eapply lexRun_app; [exact Hlex_h|];
       eapply lexRun_app; [exact Hlex_n|];
       eapply lexRun_app; [apply lex_closeTag; reflexivity|];
       apply lex_newline ].
  cbn [lexEnd textToken app]. f_equal.
  unfold Mjml.buildEnd.
  assert (Hrun : buildRun b0
            (TOpen envelopeTag (lexAttrs []) false (openTag envelopeTag [])
             :: (headTokens ++ ts_n
                 ++ [TText [newline]; TClose envelopeTag (closeTag envelopeTag)])
                ++ [TText [newline]]) = b1).
  { change (TOpen envelopeTag (lexAttrs []) false (openTag envelopeTag []) :: ?l)
      with ([TOpen envelopeTag (lexAttrs []) false (openTag envelopeTag [])] ++ l).
    rewrite (buildRun_app _ _ b0 [_]).
    change (buildRun b0 [TOpen envelopeTag (lexAttrs []) false (openTag envelopeTag [])])
      with (buildStep b0 (TOpen envelopeTag (lexAttrs []) false (openTag envelopeTag []))).
    rewrite (envelope_open_ignored b0 _ _ _ Hb0).
    rewrite (buildRun_app _ _ b0 (headTokens ++ _)), (buildRun_app _ _ b0 headTokens), Hhead.
    rewrite (buildRun_app _ _ b0 ts_n). fold b1.
    change [TText [newline]; TClose envelopeTag (closeTag envelopeTag)]
      with (textToken [newline] ++ [TClose envelopeTag (closeTag envelopeTag)]).
    rewrite (buildRun_app _ _ b1 (textToken [newline])).
    rewrite (whitespace_outside b1 [newline] Hb1 Hs ws_newline).
    change (buildRun b1 [TClose envelopeTag (closeTag envelopeTag)])
      with (buildStep b1 (TClose envelopeTag (closeTag envelopeTag))).
    rewrite (envelope_close_ignored b1 _ Hb1).
    exact (whitespace_outside b1 [newline] Hb1 Hs ws_newline). }
  fold b0. rewrite Hrun, Hs, Hr. reflexivity.
Qed.

(** C1.  Round trip: over a well-formed registry, for every tree built
    only from schema-default constructions and every head settings,
    parsing the markup generated from the tree succeeds and returns a
    tree equal to it up to identifiers: same types, attribute values,
    child order and content.  The attributes the serializer leaves out
    because they have the default value of the schema come back through
    the defaults the parser fills in. *)
Theorem generateMjml_parseMjmlToNode_round_trip
    (documentRoot : EditorNode) (head : HeadSettings) (counter : nat) :
  wellFormed componentDefinitions = true ->
  schemaDefault componentDefinitions [] documentRoot = true ->
  exists tree,
    (parseMjmlToNode componentDefinitions misplaced
       (generateMjml componentDefinitions documentRoot head) counter).1
    = Ok (Some tree)
    /\ shape tree = shape documentRoot.
Proof.
  intros Hwf Hdoc.
  pose proof (parseShape_generateMjml documentRoot head Hwf
                (schemaDefault_printable documentRoot Hwf [] (Forall_nil_2 _) Hdoc))
    as Hparse.
  destruct (parseMjmlToNode_spec componentDefinitions misplaced
              (generateMjml componentDefinitions documentRoot head) counter)
    as (Hshape & _ & _).
  rewrite Hparse in Hshape.
  destruct (parseMjmlToNode componentDefinitions misplaced
              (generateMjml componentDefinitions documentRoot head) counter).1
    as [[tree|]|message]; try discriminate.
  exists tree. split; [reflexivity|]. cbn in Hshape. congruence.
Qed.


(** ** What [createNode] makes is schema-default *)

Lemma createNode_node t overrides counter :
  (createNode componentDefinitions t overrides counter).1
  = nodeOf componentDefinitions counter t overrides
      (genMap (instantiate componentDefinitions)
         (defaultChildrenOf componentDefinitions t) (S counter)).1.
Proof.
  unfold createNode, mbind, Gen_bind, mret, Gen_ret, generateId.
  destruct (genMap _ _ (S counter)) as [cs c1]. reflexivity.
Qed.

Lemma instantiate_schemaDefault t d template counter :
  componentDefinitions !! t = Some d ->
  In template (defaultChildren d) ->
  wellFormedTemplate componentDefinitions d template = true ->
  let child := (instantiate componentDefinitions template counter).1 in
  canContain componentDefinitions t (type child)
  && schemaDefault componentDefinitions (defaultChildren d) child = true.
Proof.
  intros Hd Hin Hwf. cbn zeta.
  unfold wellFormedTemplate in Hwf.
  apply andb_true_iff in Hwf as [Hwf _].
  apply andb_true_iff in Hwf as [Hallowed Hknown].
  apply bool_decide_eq_true_1 in Hallowed.
  unfold known, getComponentDefinition in Hknown.
  destruct (componentDefinitions !! childType template) as [d'|] eqn:Hd'; [|discriminate].
  unfold instantiate, mbind, Gen_bind, mret, Gen_ret, generateId, nodeOf.
  cbn [fst type schemaDefault]. apply andb_true_iff. split.
  - unfold canContain, getAllowedChildren, getComponentDefinition. rewrite Hd.
    now apply bool_decide_eq_true_2.
  - unfold getComponentDefinition, contentOf, getComponentDefinition. rewrite Hd'.
    rewrite bool_decide_eq_true_2 by reflexivity. cbn [andb].
    apply orb_true_iff. right. apply andb_true_iff. split.
    + apply existsb_exists. exists template. split; [exact Hin|].
      unfold fromTemplate. now rewrite !bool_decide_eq_true_2.
    + now apply bool_decide_eq_true_2.
Qed.

Lemma genMap_instantiate_schemaDefault t d templates : forall counter,
  componentDefinitions !! t = Some d ->
  (forall template, In template templates ->
     In template (defaultChildren d)
     /\ wellFormedTemplate componentDefinitions d template = true) ->
  forallb (fun child => canContain componentDefinitions t (type child)
                        && schemaDefault componentDefinitions (defaultChildren d) child)
    (genMap (instantiate componentDefinitions) templates counter).1 = true.
Proof.
  induction templates as [|template rest IH]; intros counter Hd Hall; [reflexivity|].
  rewrite genMap_cons. cbn [fst forallb]. apply andb_true_iff. split.
  - destruct (Hall template (or_introl eq_refl)) as [Hin Hwf].
    exact (instantiate_schemaDefault t d template counter Hd Hin Hwf).
  - apply IH; [exact Hd|]. intros template' Hin. apply Hall. now right.
Qed.

(** A node made by [createNode] without overrides is a schema-default
    construction. *)
Lemma createNode_schemaDefault t counter :
  wellFormed componentDefinitions = true ->
  known componentDefinitions t = true ->
  schemaDefault componentDefinitions []
    (createNode componentDefinitions t ∅ counter).1 = true.
Proof.
  intros Hwf Hknown. unfold known, getComponentDefinition in Hknown.
  destruct (componentDefinitions !! t) as [d|] eqn:Hd; [|discriminate].
  rewrite createNode_node. unfold nodeOf. cbn [schemaDefault].
  unfold getComponentDefinition, contentOf, defaultsOf, defaultChildrenOf,
    getComponentDefinition. rewrite Hd.
  rewrite bool_decide_eq_true_2 by reflexivity. cbn [andb].
  apply orb_true_iff. left. apply andb_true_iff. split.
  - apply bool_decide_eq_true_2. apply (left_id_L ∅ (∪)).
  - apply genMap_instantiate_schemaDefault; [exact Hd|].
    intros template Hin. split; [exact Hin|].
    pose proof (wellFormed_lookup t d Hwf Hd) as H.
    unfold wellFormedDefinition in H. apply andb_true_iff in H as [_ H].
    cbn [snd] in H. rewrite forallb_forall in H. now apply H.
Qed.

End Schema.

(** The sample document, with its head settings, comes back. *)
Lemma round_trip_sample :
  exists tree,
    (parseMjmlToNode sampleDefinitions Drop
       (generateMjml sampleDefinitions sampleDocument sampleHead) 100%nat).1
    = Ok (Some tree)
    /\ shape tree = shape sampleDocument.
Proof.
  apply (generateMjml_parseMjmlToNode_round_trip sampleDefinitions Drop
           sampleDocument sampleHead 100%nat); vm_compute; reflexivity.
Defined.

End RoundTrip.

(** ** Locked regions: where they lie and when there are none *)

Module LockedTextFacts.
Import Chars Regex RegexSemantics LockedRegions LockedText RangeFacts.
Local Open Scope Z_scope.

(** *** The matcher reports matches of the expression only *)

Lemma star_sound p : forall s pos cap k f,
  star p s pos cap k = Some f ->
  exists s' pos' cap', matches (Star p) s s' /\ k s' pos' cap' = Some f.
Proof.
  induction s as [|c s IH]; intros pos cap k f H; cbn [star] in H.
  - exists [], pos, cap. split; [constructor | exact H].
  - destruct (p c) eqn:Hc.
    + destruct (star p s (S pos) cap k) as [r|] eqn:E.
      * injection H as ->.
        destruct (IH _ _ _ _ E) as (s' & pos' & cap' & Hm & Hk).
        exists s', pos', cap'. split; [now constructor | exact Hk].
      * exists (c :: s), pos, cap. split; [constructor | exact H].
    + exists (c :: s), pos, cap. split; [constructor | exact H].
Qed.

Lemma run_sound r : forall s pos cap k f,
  run r s pos cap k = Some f ->
  exists s' pos' cap', matches r s s' /\ k s' pos' cap' = Some f.
Proof.
  induction r as [|p|p|a IHa b IHb|a IHa b IHb|a IHa]; intros s pos cap k f H;
    cbn [run] in H.
  - exists s, pos, cap. split; [constructor | exact H].
  - destruct s as [|c s]; [discriminate|]. destruct (p c) eqn:Hc; [|discriminate].
    exists s, (S pos), cap. split; [now constructor | exact H].
  - exact (star_sound p s pos cap k f H).
  - destruct (IHa _ _ _ _ _ H) as (s1 & pos1 & cap1 & Ha & H1).
    destruct (IHb _ _ _ _ _ H1) as (s2 & pos2 & cap2 & Hb & H2).
    exists s2, pos2, cap2. split; [econstructor; eassumption | exact H2].
  - destruct (run a s pos cap k) as [r|] eqn:E.
    + injection H as ->.
      destruct (IHa _ _ _ _ _ E) as (s' & pos' & cap' & Ha & Hk).
      exists s', pos', cap'. split; [now apply matches_alt_l | exact Hk].
    + destruct (IHb _ _ _ _ _ H) as (s' & pos' & cap' & Hb & Hk).
      exists s', pos', cap'. split; [now apply matches_alt_r | exact Hk].
  - destruct (IHa _ _ _ _ _ H) as (s' & pos' & cap' & Ha & Hk).
    exists s', pos', (Some (pos, pos')). split; [now constructor | exact Hk].
Qed.

Lemma matchHere_sound r s f :
  matchHere r s = Some f -> exists s', matches r s s'.
Proof.
  unfold matchHere. intros H.
  destruct (run_sound _ _ _ _ _ _ H) as (s' & _ & _ & Hm & _). now exists s'.
Qed.

Lemma matches_suffix r s s' : matches r s s' -> exists a, s = a ++ s'.
Proof.
  induction 1 as [s|p c s _|p s|p c s s' _ _ [a IH]|a b s s1 s2 _ [x Hx] _ [y Hy]
                 |a b s s' _ IH|a b s s' _ IH|a s s' _ IH];
    try assumption.
  - now exists [].
  - now exists [c].
  - now exists [].
  - exists (c :: a). now rewrite IH.
  - exists (x ++ y). now rewrite Hx, Hy, app_assoc.
Qed.

Lemma matches_literal lit : forall s s',
  matches (LitNoCase lit) s s' -> prefixNoCase lit s = true.
Proof.
  induction lit as [|c lit IH]; intros s s' H; [reflexivity|].
  cbn [LitNoCase] in H. inversion H as [| | | |a b s0 s1 s2 Hone Hrest| | |]; subst.
  inversion Hone; subst. cbn [prefixNoCase].
  apply andb_true_iff. split; [assumption | eapply IH; eassumption].
Qed.

(** *** Texts in which a literal occurs *)

Lemma prefixNoCase_app lit : forall t b,
  prefixNoCase lit t = true -> prefixNoCase lit (t ++ b) = true.
Proof.
  induction lit as [|c lit IH]; intros t b H; [reflexivity|].
  destruct t as [|d t]; [discriminate|]. cbn [prefixNoCase app] in *.
  apply andb_true_iff in H as [Hd Ht]. rewrite Hd. cbn [andb]. now apply IH.
Qed.

Lemma occursNoCase_intro lit a : forall t,
  prefixNoCase lit t = true -> occursNoCase lit (a ++ t) = true.
Proof.
  induction a as [|x a IH]; intros t H.
  - destruct t; cbn [app occursNoCase]; now rewrite H.
  - cbn [app occursNoCase]. rewrite (IH t H). apply orb_true_r.
Qed.

Lemma occursNoCase_elim lit : forall s,
  occursNoCase lit s = true -> exists a t, s = a ++ t /\ prefixNoCase lit t = true.
Proof.
  induction s as [|x s IH]; cbn [occursNoCase]; intros H.
  - rewrite orb_false_r in H. now exists [], [].
  - apply orb_true_iff in H as [H|H].
    + now exists [], (x :: s).
    + destruct (IH H) as (a & t & -> & Ht). now exists (x :: a), t.
Qed.

(** A literal that does not occur in a text occurs in no part of it. *)
Lemma occursNoCase_part lit a s b :
  occursNoCase lit (a ++ s ++ b) = false -> occursNoCase lit s = false.
Proof.
  intros H. apply not_true_is_false. intros Hs.
  destruct (occursNoCase_elim _ _ Hs) as (a' & t & -> & Ht).
  rewrite <- (app_assoc a' t b), (app_assoc a a') in H.
  rewrite (occursNoCase_intro lit (a ++ a') (t ++ b)) in H; [discriminate|].
  now apply prefixNoCase_app.
Qed.

(** *** The lines of a text are parts of it *)

Lemma splitOn_parts sep : forall l,
  exists first others,
    splitOn sep l = first :: others
    /\ (exists b, l = first ++ b)
    /\ forall line, In line others -> exists a b, l = a ++ line ++ b.
Proof.
  induction l as [|c l (first & others & Heq & [b Hb] & Hothers)]; cbn [splitOn].
  - exists [], []. split; [reflexivity|]. split; [now exists [] | intros ? []].
  - destruct (Ascii.eqb c sep).
    + exists [], (splitOn sep l). split; [reflexivity|]. split; [now exists (c :: l)|].
      intros line Hin. rewrite Heq in Hin. destruct Hin as [<-|Hin].
      * exists [c], b. now rewrite Hb at 1.
      * destruct (Hothers line Hin) as (a & b' & Hl). exists (c :: a), b'.
        now rewrite Hl at 1.
    + rewrite Heq. exists (c :: first), others. split; [reflexivity|].
      split; [exists b; now rewrite Hb at 1|].
      intros line Hin. destruct (Hothers line Hin) as (a & b' & Hl).
      exists (c :: a), b'. now rewrite Hl at 1.
Qed.

Lemma splitOn_part sep l line :
  In line (splitOn sep l) -> exists a b, l = a ++ line ++ b.
Proof.
  destruct (splitOn_parts sep l) as (first & others & Heq & [b Hb] & Hothers).
  rewrite Heq. intros [<-|Hin]; [now exists [], b | now apply Hothers].
Qed.

(** *** The matches [exec] finds *)

Lemma execFrom_none r : forall s i skip,
  (forall a t, s = a ++ t -> matchHere r t = None) -> execFrom r s i skip = [].
Proof.
  induction s as [|c s IH]; intros i skip H.
  - destruct skip; cbn [execFrom]; [|reflexivity].
    now rewrite (H [] [] eq_refl).
  - assert (Hs : forall a t, s = a ++ t -> matchHere r t = None).
    { intros a t ->. now apply (H (c :: a)). }
    destruct skip; cbn [execFrom]; [|now apply IH].
    rewrite (H [] (c :: s) eq_refl). now apply IH.
Qed.

Lemma execFrom_bounds r : forall s i skip m,
  In m (execFrom r s i skip) ->
  (i <= index m)%nat /\ (index m + length (whole m) <= i + length s)%nat.
Proof.
  induction s as [|c s IH]; intros i skip m Hin.
  - destruct skip; cbn [execFrom] in Hin; [|destruct Hin].
    destruct (matchHere r []) as [f|]; [|destruct Hin].
    destruct Hin as [<-|[]]. cbn [index whole]. rewrite length_take. cbn [length]. lia.
  - destruct skip; cbn [execFrom] in Hin.
    + destruct (matchHere r (c :: s)) as [f|].
      * destruct Hin as [<-|Hin].
        -- cbn [index whole]. rewrite length_take. lia.
        -- apply IH in Hin. cbn [length]. lia.
      * apply IH in Hin. cbn [length]. lia.
    + apply IH in Hin. cbn [length]. lia.
Qed.

Lemma execAll_bounds r s m :
  In m (execAll r s) -> (index m + length (whole m) <= length s)%nat.
Proof. intros H. apply execFrom_bounds in H. lia. Qed.

(** A line without the attribute has no locked opening tag. *)
Lemma openTag_has_attr t f :
  matchHere openTagRegex t = Some f -> occursNoCase lockedAttr t = true.
Proof.
  intros H. destruct (matchHere_sound _ _ _ H) as (s' & Hm).
  unfold openTagRegex in Hm.
  inversion Hm as [| | | |? ? ? s1 ? Hlt H1| | |]; subst.
  inversion H1 as [| | | |? ? ? s2 ? Hname H2| | |]; subst.
  inversion H2 as [| | | |? ? ? s3 ? Hstar H3| | |]; subst.
  inversion H3 as [| | | |? ? ? s4 ? Hlit H4| | |]; subst.
  destruct (matches_suffix _ _ _ Hlt) as [a1 ->].
  destruct (matches_suffix _ _ _ Hname) as [a2 ->].
  destruct (matches_suffix _ _ _ Hstar) as [a3 ->].
  rewrite !app_assoc. apply occursNoCase_intro. eapply matches_literal, Hlit.
Qed.

Lemma no_attr_no_openTag line :
  occursNoCase lockedAttr line = false -> execAll openTagRegex line = [].
Proof.
  intros H. apply execFrom_none. intros a t ->.
  destruct (matchHere openTagRegex t) as [f|] eqn:E; [|reflexivity].
  apply openTag_has_attr in E.
  destruct (occursNoCase_elim _ _ E) as (a' & t' & -> & Ht).
  rewrite app_assoc, (occursNoCase_intro _ _ _ Ht) in H. discriminate.
Qed.

Lemma closingTag_has_start t f :
  matchHere closingTagRegex t = Some f -> prefixNoCase (chars "</") t = true.
Proof.
  intros H. destruct (matchHere_sound _ _ _ H) as (s' & Hm).
  unfold closingTagRegex in Hm.
  inversion Hm as [| | | |? ? ? s1 ? Hlt H1| | |]; subst.
  inversion H1 as [| | | |? ? ? s2 ? Hsl H2| | |]; subst.
  inversion Hlt; subst. inversion Hsl; subst.
  cbn. repeat match goal with
              | H : Ascii.eqb _ _ = true |- _ => apply Ascii.eqb_eq in H; subst
              end.
  reflexivity.
Qed.

Lemma no_start_no_closingTag line :
  occursNoCase (chars "</") line = false -> execAll closingTagRegex line = [].
Proof.
  intros H. apply execFrom_none. intros a t ->.
  destruct (matchHere closingTagRegex t) as [f|] eqn:E; [|reflexivity].
  apply closingTag_has_start in E.
  rewrite (occursNoCase_intro _ _ _ E) in H. discriminate.
Qed.

(** *** A text without locked opening tags *)

Lemma scanLines_no_openTag : forall lines i regions,
  Forall (fun line => execAll openTagRegex line = []) lines ->
  scanLines i lines [] regions = regions.
Proof.
  induction lines as [|line lines IH]; intros i regions H; [reflexivity|].
  inversion H as [|? ? Hline Hrest]; subst.
  cbn [scanLines]. unfold scanLine. rewrite Hline. cbn [openTags]. now apply IH.
Qed.

Lemma lines_without lit code :
  occursNoCase lit (chars code) = false ->
  Forall (fun line => occursNoCase lit line = false) (splitOn newline (chars code)).
Proof.
  intros H. apply Forall_forall. intros line Hin. apply list_elem_of_In in Hin.
  destruct (splitOn_part _ _ _ Hin) as (a & b & Heq).
  rewrite Heq in H. exact (occursNoCase_part _ _ _ _ H).
Qed.

(** X2.  A text in which [data-locked="true"] occurs nowhere, in whatever
    letter case, has no locked region. *)
Theorem findLockedRegions_without_attribute code :
  hasLockedAttr code = false -> findLockedRegions code = [].
Proof.
  intros H. unfold findLockedRegions. apply scanLines_no_openTag.
  eapply Forall_impl; [apply (lines_without _ _ H)|].
  intros line Hline. now apply no_attr_no_openTag.
Qed.

Lemma findLockedRegions_without_attribute_sample :
  findLockedRegions "<mj-section>
  <mj-text data-locked='true'>Hi</mj-text>
</mj-section>" = [].
Proof. apply findLockedRegions_without_attribute. vm_compute. reflexivity. Defined.

(** *** A text without closing tags *)

Lemma openTags_selfClosing lineNumber : forall ms stack regions,
  (openTags lineNumber ms stack regions).2
  = regions ++ map (selfClosingRegion lineNumber)
                 (List.filter (fun m => endsWithSelfClose (whole m)) ms).
Proof.
  induction ms as [|m ms IH]; intros stack regions; cbn [openTags List.filter map].
  - now rewrite app_nil_r.
  - destruct (endsWithSelfClose (whole m)); rewrite IH; [|reflexivity].
    now rewrite <- app_assoc.
Qed.

Lemma scanLines_selfClosing : forall lines i stack regions,
  Forall (fun line => execAll closingTagRegex line = []) lines ->
  scanLines i lines stack regions = regions ++ selfClosingRegions i lines.
Proof.
  induction lines as [|line lines IH]; intros i stack regions H.
  - cbn. now rewrite app_nil_r.
  - inversion H as [|? ? Hline Hrest]; subst.
    cbn [scanLines selfClosingRegions]. unfold scanLine. rewrite Hline.
    pose proof (openTags_selfClosing (Z.of_nat i + 1) (execAll openTagRegex line)
                  stack regions) as Hopen.
    destruct (openTags _ _ stack regions) as [stack1 regions1]. cbn [snd] in Hopen.
    subst regions1. fold (selfClosingTags line).
    destruct stack1; cbn [closeTags]; rewrite (IH _ _ _ Hrest); now rewrite <- app_assoc.
Qed.

Lemma selfClosingRegions_tags : forall lines before,
  Forall (fun region =>
            startLine region = endLine region /\ ofSelfClosingTag (before ++ lines) region)
    (selfClosingRegions (length before) lines).
Proof.
  induction lines as [|line lines IH]; intros before; [constructor|].
  cbn [selfClosingRegions]. apply Forall_app. split.
  - apply Forall_forall. intros region Hin. apply list_elem_of_In in Hin.
    apply in_map_iff in Hin. destruct Hin as (m & <- & Hm).
    apply filter_In in Hm. destruct Hm as [Hm Hself].
    split; [reflexivity|]. exists line, m. cbn [startLine selfClosingRegion].
    replace (Z.to_nat (Z.of_nat (length before) + 1 - 1)) with (length before) by lia.
    repeat split; [|exact Hm|exact Hself].
    now rewrite lookup_app_r, Nat.sub_diag by reflexivity.
  - specialize (IH (before ++ [line])).
    rewrite length_app, Nat.add_1_r, <- app_assoc in IH. exact IH.
Qed.

(** X3.  In a text without the start of a closing tag, a locked element that
    was opened is never closed and gets no region: the regions are
    exactly those of the locked tags that close themselves, line by line
    and in the order of the tags on the line; each is on one line, from
    the column of the tag's [<] to the column after its [>]. *)
Theorem findLockedRegions_without_closing_tags code :
  hasClosingStart code = false ->
  let lines := splitOn newline (chars code) in
  findLockedRegions code = selfClosingRegions 0 lines
  /\ Forall (fun region => startLine region = endLine region
                           /\ ofSelfClosingTag lines region)
       (findLockedRegions code).
Proof.
  intros H lines.
  assert (Heq : findLockedRegions code = selfClosingRegions 0 lines).
  { unfold findLockedRegions. fold lines.
    rewrite scanLines_selfClosing; [reflexivity|].
    eapply Forall_impl; [apply (lines_without _ _ H)|].
    intros line Hline. now apply no_start_no_closingTag. }
  split; [exact Heq|]. rewrite Heq. exact (selfClosingRegions_tags lines []).
Qed.

(** A locked image that closes itself and a locked text that is never
    closed: the image alone has a region. *)
Lemma findLockedRegions_without_closing_tags_sample :
  findLockedRegions unclosedSample = [mkRegion 1 1 1 32].
Proof.
  rewrite (proj1 (findLockedRegions_without_closing_tags unclosedSample eq_refl)).
  vm_compute. reflexivity.
Defined.

(** *** Regions lie within the text *)

Lemma spliceTopmost_Forall (P : OpenTag -> Prop) name : forall stack openTag stack',
  spliceTopmost name stack = Some (openTag, stack') ->
  Forall P stack -> P openTag /\ Forall P stack'.
Proof.
  induction stack as [|e stack IH]; intros openTag stack' H Hall; [discriminate|].
  inversion Hall as [|? ? He Hrest]; subst. cbn [spliceTopmost] in H.
  destruct (spliceTopmost name stack) as [[o above']|].
  - injection H as <- <-. destruct (IH _ _ eq_refl Hrest) as [Ho Habove].
    split; [exact Ho | now constructor].
  - destruct (sameName (tagName e) name); [|discriminate].
    injection H as <- <-. now split.
Qed.

Section Lines.

Variable lines : list (list ascii).

Lemma openTags_inText i line : forall ms stack regions,
  lines !! i = Some line ->
  (forall m, In m ms -> (index m + length (whole m) <= length line)%nat) ->
  openedBy (Z.of_nat i + 1) stack ->
  Forall (inText lines) regions ->
  openedBy (Z.of_nat i + 1) (openTags (Z.of_nat i + 1) ms stack regions).1
  /\ Forall (inText lines) (openTags (Z.of_nat i + 1) ms stack regions).2.
Proof.
  intros ms stack regions Hline. revert stack regions.
  pose proof (lookup_lt_Some _ _ _ Hline) as Hlt.
  induction ms as [|m ms IH]; intros stack regions Hms Hstack Hregions; [now split|].
  assert (Hm : (index m + length (whole m) <= length line)%nat)
    by (apply Hms; now left).
  assert (Hms' : forall m', In m' ms -> (index m' + length (whole m') <= length line)%nat)
    by (intros m' Hin; apply Hms; now right).
  cbn [openTags]. destruct (endsWithSelfClose (whole m)).
  - apply IH; [exact Hms' | exact Hstack |].
    apply Forall_app. split; [exact Hregions|]. constructor; [|constructor].
    unfold inText. cbn [startLine endLine startColumn endColumn].
    repeat split; try lia.
    exists line. replace (Z.to_nat (Z.of_nat i + 1 - 1)) with i by lia.
    split; [exact Hline | lia].
  - apply IH; [exact Hms' | | exact Hregions].
    apply Forall_app. split; [exact Hstack|]. constructor; [|constructor].
    cbn [openLine]. lia.
Qed.

Lemma closeTags_inText i line : forall ms stack regions,
  lines !! i = Some line ->
  openedBy (Z.of_nat i + 1) stack ->
  Forall (inText lines) regions ->
  openedBy (Z.of_nat i + 1)
    (closeTags (Z.of_nat i + 1) (length line) ms stack regions).1
  /\ Forall (inText lines)
       (closeTags (Z.of_nat i + 1) (length line) ms stack regions).2.
Proof.
  intros ms stack regions Hline. revert stack regions.
  pose proof (lookup_lt_Some _ _ _ Hline) as Hlt.
  induction ms as [|m ms IH]; intros stack regions Hstack Hregions; [now split|].
  cbn [closeTags]. unfold closeTag.
  destruct (spliceTopmost (lowerAll (group1 m)) stack) as [[o stack']|] eqn:E.
  - destruct (spliceTopmost_Forall _ _ _ _ _ E Hstack) as [[Ho1 Ho2] Hstack'].
    apply IH; [exact Hstack'|].
    apply Forall_app. split; [exact Hregions|]. constructor; [|constructor].
    unfold inText, closedRegion. cbn [startLine endLine startColumn endColumn].
    repeat split; try lia.
    exists line. replace (Z.to_nat (Z.of_nat i + 1 - 1)) with i by lia.
    split; [exact Hline | lia].
  - now apply IH.
Qed.

Lemma openedBy_later n stack : openedBy n stack -> openedBy (n + 1) stack.
Proof. intros H. eapply Forall_impl; [exact H|]. intros e. cbn beta. lia. Qed.

Lemma scanLines_inText : forall rest i stack regions,
  (forall j line, rest !! j = Some line -> lines !! (i + j)%nat = Some line) ->
  openedBy (Z.of_nat i) stack ->
  Forall (inText lines) regions ->
  Forall (inText lines) (scanLines i rest stack regions).
Proof.
  induction rest as [|line rest IH]; intros i stack regions Hrest Hstack Hregions;
    [exact Hregions|].
  assert (Hline : lines !! i = Some line).
  { rewrite <- (Nat.add_0_r i). now apply Hrest. }
  cbn [scanLines]. unfold scanLine.
  destruct (openTags_inText i line (execAll openTagRegex line) stack regions Hline
              (fun m => execAll_bounds _ _ m) (openedBy_later _ _ Hstack) Hregions)
    as [Hs1 Hr1].
  destruct (openTags _ _ stack regions) as [stack1 regions1]. cbn [fst snd] in Hs1, Hr1.
  assert (Hnext : forall j l, rest !! j = Some l -> lines !! (S i + j)%nat = Some l).
  { intros j l Hj. replace (S i + j)%nat with (i + S j)%nat by lia. now apply Hrest. }
  replace (Z.of_nat i + 1) with (Z.of_nat (S i)) in * by lia.
  destruct stack1 as [|e stack1].
  - now apply IH.
  - replace (Z.of_nat (S i)) with (Z.of_nat i + 1) in * by lia.
    destruct (closeTags_inText i line (execAll closingTagRegex line) (e :: stack1)
                regions1 Hline Hs1 Hr1) as [Hs2 Hr2].
    destruct (closeTags _ _ _ (e :: stack1) regions1) as [stack2 regions2].
    cbn [fst snd] in Hs2, Hr2.
    replace (Z.of_nat i + 1) with (Z.of_nat (S i)) in * by lia.
    now apply IH.
Qed.

End Lines.

(** X1.  Every region [findLockedRegions] returns lies within the text: its
    lines are lines of the text with the start line not after the end
    line, its columns start from 1 with the start column not after the
    end column, and its end column is at most one past the end of its
    last line. *)
Theorem findLockedRegions_in_text code :
  Forall (inText (splitOn newline (chars code))) (findLockedRegions code).
Proof.
  unfold findLockedRegions. apply scanLines_inText; [|constructor|constructor].
  intros j line Hj. exact Hj.
Qed.

(** *** More text below *)

Lemma scanLines_state : forall lines i stack regions,
  scanLines i lines stack regions = (scanLinesState i lines stack regions).2.
Proof.
  induction lines as [|line lines IH]; intros i stack regions; [reflexivity|].
  cbn [scanLines scanLinesState].
  destruct (scanLine _ line stack regions) as [stack' regions']. apply IH.
Qed.

Lemma openTags_more n : forall ms stack regions,
  openTags n ms stack regions
  = ((openTags n ms stack []).1, regions ++ (openTags n ms stack []).2).
Proof.
  induction ms as [|m ms IH]; intros stack regions; cbn [openTags].
  - now rewrite app_nil_r.
  - destruct (endsWithSelfClose (whole m)).
    + rewrite IH, (IH stack ([] ++ _)). cbn [fst snd]. now rewrite app_assoc.
    + apply IH.
Qed.

Lemma closeTags_more n len : forall ms stack regions,
  closeTags n len ms stack regions
  = ((closeTags n len ms stack []).1, regions ++ (closeTags n len ms stack []).2).
Proof.
  induction ms as [|m ms IH]; intros stack regions; cbn [closeTags].
  - now rewrite app_nil_r.
  - unfold closeTag. destruct (spliceTopmost _ stack) as [[o stack']|].
    + rewrite IH, (IH stack' ([] ++ _)). cbn [fst snd]. now rewrite app_assoc.
    + apply IH.
Qed.

Lemma scanLine_more n line stack regions :
  scanLine n line stack regions
  = ((scanLine n line stack []).1, regions ++ (scanLine n line stack []).2).
Proof.
  unfold scanLine. rewrite openTags_more.
  destruct (openTags n _ stack []) as [stack1 regions1]. cbn [fst snd app].
  destruct stack1; [reflexivity|].
  rewrite closeTags_more, (closeTags_more _ _ _ _ regions1). cbn [fst snd].
  now rewrite app_assoc.
Qed.

Lemma scanLinesState_more : forall lines i stack regions,
  scanLinesState i lines stack regions
  = ((scanLinesState i lines stack []).1,
     regions ++ (scanLinesState i lines stack []).2).
Proof.
  induction lines as [|line lines IH]; intros i stack regions; cbn [scanLinesState].
  - now rewrite app_nil_r.
  - rewrite scanLine_more. destruct (scanLine _ line stack []) as [stack1 regions1].
    cbn [fst snd app]. rewrite IH, (IH _ _ regions1). cbn [fst snd].
    now rewrite app_assoc.
Qed.

Lemma scanLinesState_app : forall lines1 lines2 i stack regions,
  scanLinesState i (lines1 ++ lines2) stack regions
  = scanLinesState (i + length lines1) lines2
      (scanLinesState i lines1 stack regions).1
      (scanLinesState i lines1 stack regions).2.
Proof.
  induction lines1 as [|line lines1 IH]; intros lines2 i stack regions.
  - cbn. now rewrite Nat.add_0_r.
  - cbn [app scanLinesState length].
    destruct (scanLine _ line stack regions) as [stack1 regions1].
    rewrite IH. now replace (S i + length lines1)%nat with (i + S (length lines1))%nat by lia.
Qed.

Lemma splitOn_app sep a b :
  splitOn sep (a ++ sep :: b) = splitOn sep a ++ splitOn sep b.
Proof.
  induction a as [|c a IH]; cbn [app splitOn].
  - now rewrite Ascii.eqb_refl.
  - destruct (Ascii.eqb c sep); [now rewrite IH|].
    rewrite IH. destruct (splitOn_parts sep a) as (first & others & -> & _). reflexivity.
Qed.

(** X4.  Lines added below a text change nothing in the regions found in it:
    the regions of the longer text are those of the text, in the same
    order, followed by the regions that end in the added lines. *)
Theorem findLockedRegions_with_more_below code more :
  exists later,
    findLockedRegions (code +:+ String newline more) = findLockedRegions code ++ later.
Proof.
  unfold findLockedRegions.
  assert (Hchars : chars (code +:+ String newline more)
                   = chars code ++ newline :: chars more).
  { unfold chars. induction code as [|c code IH]; [reflexivity|]. simpl. now rewrite IH. }
  rewrite Hchars, splitOn_app, !scanLines_state, scanLinesState_app.
  rewrite scanLinesState_more. cbn [snd]. eauto.
Qed.

(** *** Ranges against the regions of a text *)

Lemma inText_inOrder lines region : inText lines region -> regionInOrder region.
Proof.
  unfold inText, regionInOrder, atOrBefore. intros (H1 & H2 & H3 & H4 & H5 & _). lia.
Qed.

(** Two spans in order overlap exactly when a position lies in both. *)
Lemma overlaps_shares_position range region :
  rangeInOrder range -> regionInOrder region ->
  overlaps range region = true <->
  exists line column, positionInRange line column range /\ positionIn line column region.
Proof.
  intros Hrange Hregion. rewrite overlaps_true_iff.
  unfold rangeInOrder, regionInOrder, positionInRange, positionIn, atOrBefore in *.
  split.
  - intros [H1 H2].
    destruct (Z.lt_total (IRange.startLineNumber range) (startLine region))
      as [Hlt|[Heq|Hgt]].
    + exists (startLine region), (startColumn region). lia.
    + destruct (Z.le_gt_cases (IRange.startColumn range) (startColumn region)).
      * exists (startLine region), (startColumn region). lia.
      * exists (IRange.startLineNumber range), (IRange.startColumn range). lia.
    + exists (IRange.startLineNumber range), (IRange.startColumn range). lia.
  - intros (line & column & H1 & H2). lia.
Qed.

(** X5.  A range in order is in a locked region of a text exactly when some
    position of the range is a position of one of the regions
    [findLockedRegions] finds in the text. *)
Theorem isRangeInLockedRegion_of_text code range :
  rangeInOrder range ->
  isRangeInLockedRegion range (findLockedRegions code) = true <->
  exists region,
    In region (findLockedRegions code)
    /\ exists line column,
         positionInRange line column range /\ positionIn line column region.
Proof.
  intros Hrange. rewrite isRangeInLockedRegion_true_iff, Exists_exists.
  assert (Hin : Forall (inText (splitOn newline (chars code))) (findLockedRegions code)).
  { unfold findLockedRegions. apply scanLines_inText; [|constructor|constructor].
    intros j line Hj. exact Hj. }
  rewrite Forall_forall in Hin.
  split.
  - intros (region & Hr & Ho). exists region. split; [now apply list_elem_of_In|].
    apply overlaps_shares_position; [exact Hrange | | exact Ho].
    eapply inText_inOrder, Hin, Hr.
  - intros (region & Hr & Hpos). apply list_elem_of_In in Hr.
    exists region. split; [exact Hr|].
    apply overlaps_shares_position; [exact Hrange | | exact Hpos].
    eapply inText_inOrder, Hin, Hr.
Qed.

Lemma isRangeInLockedRegion_of_text_sample :
  isRangeInLockedRegion (IRange.mk 3 1 3 1) (findLockedRegions crossedSample) = true <->
  exists region,
    In region (findLockedRegions crossedSample)
    /\ exists line column,
         positionInRange line column (IRange.mk 3 1 3 1)
         /\ positionIn line column region.
Proof.
  apply isRangeInLockedRegion_of_text. unfold rangeInOrder, atOrBefore. simpl. lia.
Defined.

End LockedTextFacts.

(** ** The guards of the editor against edits in locked regions *)

Module GuardFacts.
Import Chars Regex RegexSemantics LockedRegions LockedText RangeFacts LockedTextFacts.
Import Keys GuardNotions.
Local Open Scope Z_scope.

Lemma includes_true codes k : includes codes k = true <-> In k codes.
Proof.
  unfold includes. rewrite existsb_exists. split.
  - intros (x & Hin & Heq). apply Z.eqb_eq in Heq. now subst.
  - intros Hin. exists k. split; [exact Hin | apply Z.eqb_refl].
Qed.

Lemma includes_false codes k : includes codes k = false <-> ~ In k codes.
Proof.
  rewrite <- includes_true. destruct (includes codes k); split; congruence.
Qed.

(** *** The changes of an event and the edits of a call *)

Lemma anyChangeLocked_true regions changes :
  UseLockedRegions.anyChangeLocked regions changes = true <->
  exists change, In change changes /\ isRangeInLockedRegion change regions = true.
Proof.
  induction changes as [|c rest IH]; cbn [UseLockedRegions.anyChangeLocked].
  - split; [discriminate | now intros (? & [] & _)].
  - destruct (isRangeInLockedRegion c regions) eqn:E.
    + split; [|reflexivity]. intros _. exists c. split; [now left | exact E].
    + rewrite IH. split.
      * intros (change & Hin & H). exists change. split; [now right | exact H].
      * intros (change & [->|Hin] & H); [congruence|]. now exists change.
Qed.

(** X6.  [doesChangeAffectLockedRegions] answers true exactly when the range
    of some change of the event overlaps some locked region; so never
    without regions and never for an event without changes. *)
Theorem doesChangeAffectLockedRegions_iff regions changes :
  UseLockedRegions.doesChangeAffectLockedRegions regions changes = true <->
  exists change region,
    In change changes /\ In region regions /\ overlaps change region = true.
Proof.
  unfold UseLockedRegions.doesChangeAffectLockedRegions.
  destruct regions as [|region0 regions0].
  - split; [discriminate | now intros (? & ? & _ & [] & _)].
  - rewrite anyChangeLocked_true. split.
    + intros (change & Hin & H).
      apply isRangeInLockedRegion_true_iff, Exists_exists in H as (region & Hr & Ho).
      exists change, region. repeat split; try assumption. now apply list_elem_of_In.
    + intros (change & region & Hin & Hr & Ho). exists change. split; [exact Hin|].
      apply isRangeInLockedRegion_true_iff, Exists_exists. exists region.
      split; [now apply list_elem_of_In | exact Ho].
Qed.

Lemma hasLockedEdit_false regions edits :
  EditorGuards.hasLockedEdit regions edits = false <->
  forall edit r,
    In edit edits -> EditorGuards.range edit = Some r ->
    isRangeInLockedRegion r regions = false.
Proof.
  induction edits as [|e rest IH]; cbn [EditorGuards.hasLockedEdit].
  - split; [intros _ ? ? [] | reflexivity].
  - destruct (EditorGuards.range e) as [r0|] eqn:Er.
    + destruct (isRangeInLockedRegion r0 regions) eqn:E.
      * split; [discriminate|]. intros H. rewrite <- E. apply (H e r0); [now left | exact Er].
      * rewrite IH. split.
        -- intros H edit r [<-|Hin] Hr; [congruence | now apply (H edit)].
        -- intros H edit r Hin. apply H. now right.
    + rewrite IH. split.
      * intros H edit r [<-|Hin] Hr; [congruence | now apply (H edit)].
      * intros H edit r Hin. apply H. now right.
Qed.

(** X7.  The replaced [executeEdits] hands the edits, as they are, to the
    original exactly when no edit that has a range touches a locked
    region; otherwise it refuses all of them, with the warning and the
    timeout that clears it, and the original is not called. *)
Theorem executeEdits_forwards_iff regions edits :
  (EditorGuards.executeEdits regions edits = EditorGuards.Forwarded edits <->
   forall edit r,
     In edit edits -> EditorGuards.range edit = Some r ->
     isRangeInLockedRegion r regions = false)
  /\ (EditorGuards.executeEdits regions edits = EditorGuards.Forwarded edits
      \/ EditorGuards.executeEdits regions edits
         = EditorGuards.Refused
             [EditorGuards.SetLockedWarning (Some "Cannot edit locked region"%string);
              EditorGuards.ClearWarningAfter 2000]).
Proof.
  unfold EditorGuards.executeEdits. rewrite <- hasLockedEdit_false.
  destruct (EditorGuards.hasLockedEdit regions edits); split;
    try (split; congruence); auto.
Qed.

(** *** The two key handlers *)

Lemma keysApart_monaco : keysApart monacoKeyCodes.
Proof.
  split.
  - intros k [Hk|Hk]; cbn in *; intuition lia.
  - intros k Hk. cbn in *. intuition lia.
Qed.

(** X8.  Whatever key the handler of the component refuses in a locked
    region, the handler of the hook refuses too, under any numbering of
    the keys in which the editing keys and the letters are not the
    navigation and modifier keys. *)
Theorem hook_refuses_what_component_refuses K selection regions e :
  keysApart K ->
  EditorGuards.onKeyDown K selection regions e <> [] ->
  UseLockedRegions.onKeyDown K selection regions e
  = [UseLockedRegions.PreventDefault; UseLockedRegions.StopPropagation;
     UseLockedRegions.ShowWarning "Cannot edit locked region"].
Proof.
  intros [Hapart Hedit] Hrefused.
  unfold EditorGuards.onKeyDown, UseLockedRegions.onKeyDown in *.
  destruct selection as [sel|]; [|now destruct Hrefused].
  destruct (isRangeInLockedRegion sel regions); [|now destruct Hrefused].
  cbn zeta in Hrefused.
  destruct (negb (includes (EditorGuards.allowedKeys K) (keyCode e)) && _ && _);
    [|now destruct Hrefused].
  destruct (includes (EditorGuards.editingKeys K) (keyCode e) || _) eqn:Hkey;
    [|now destruct Hrefused].
  assert (Hallowed : UseLockedRegions.allowed K e = false); [|now rewrite Hallowed].
  unfold UseLockedRegions.allowed. cbn zeta.
  apply orb_true_iff in Hkey as [Hkey|Hkey].
  - apply includes_true in Hkey.
    destruct (Hapart _ (or_introl Hkey)) as (Hnav & H1 & H2 & H3 & H4).
    destruct (Hedit _ Hkey) as (H5 & H6 & H7 & H8 & H9).
    apply includes_false in Hnav. rewrite Hnav.
    repeat match goal with
           | H : keyCode e <> _ |- _ => apply Z.eqb_neq in H; rewrite H; clear H
           end.
    now rewrite !andb_false_r.
  - apply andb_true_iff in Hkey as [Hkey Hz]. apply andb_true_iff in Hkey as [Hkey Ha].
    apply andb_true_iff in Hkey as [Hctrl _].
    apply Z.geb_le in Ha. apply Z.leb_le in Hz.
    destruct (Hapart (keyCode e) (or_intror (conj Ha Hz))) as (Hnav & H1 & H2 & H3 & H4).
    apply includes_false in Hnav. rewrite Hnav.
    apply negb_true_iff in Hctrl. rewrite Hctrl.
    repeat match goal with
           | H : keyCode e <> _ |- _ => apply Z.eqb_neq in H; rewrite H; clear H
           end.
    reflexivity.
Qed.

(** Backspace with the caret in the sample region. *)
Lemma hook_refuses_what_component_refuses_sample :
  UseLockedRegions.onKeyDown monacoKeyCodes (Some (IRange.mk 3 4 3 4)) sampleRegions
    (mkKeyboardEvent 1 false false false false)
  = [UseLockedRegions.PreventDefault; UseLockedRegions.StopPropagation;
     UseLockedRegions.ShowWarning "Cannot edit locked region"].
Proof.
  apply hook_refuses_what_component_refuses; [exact keysApart_monaco|].
  vm_compute. discriminate.
Defined.

(** *** How long a warning stays *)

Lemma performAll_warn now b message :
  EditorGuards.performAll now b (EditorGuards.warn message)
  = EditorGuards.mkBanner (Some message) (EditorGuards.clearAt b ++ [now + 2000]).
Proof. reflexivity. Qed.

(** X9.  Two refusals less than 2000 ms apart.  In the hook the second warning
    stays until 2000 ms after it was shown, because [showWarning] clears
    the timeout of the first; the component starts a timeout for each
    warning and clears none, so the timeout of the first warning removes
    the second one early. *)
Theorem second_warning_outlasts_first_timeout_in_hook_only
    t1 t2 later message1 message2 (w : UseLockedRegions.Warning)
    (b : EditorGuards.Banner) :
  t1 <= t2 -> t2 < t1 + 2000 ->
  t1 + 2000 <= later -> later < t2 + 2000 ->
  UseLockedRegions.lockedWarning
    (UseLockedRegions.advance later
       (UseLockedRegions.showWarning t2 message2
          (UseLockedRegions.advance t2
             (UseLockedRegions.showWarning t1 message1 w))))
  = Some message2
  /\ EditorGuards.lockedWarning
       (EditorGuards.advance later
          (EditorGuards.performAll t2
             (EditorGuards.advance t2
                (EditorGuards.performAll t1 b (EditorGuards.warn message1)))
             (EditorGuards.warn message2)))
     = None.
Proof.
  intros H12 H21 Hlater Hbefore. split.
  - unfold UseLockedRegions.advance at 1. cbn [UseLockedRegions.showWarning
      UseLockedRegions.warningTimeout].
    destruct (t2 + 2000 <=? later) eqn:E; [apply Z.leb_le in E; lia | reflexivity].
  - rewrite !performAll_warn.
    set (b1 := EditorGuards.advance t2 _).
    assert (Hpending : In (t1 + 2000) (EditorGuards.clearAt b1)).
    { unfold b1, EditorGuards.advance. cbn [EditorGuards.clearAt].
      destruct (existsb _ _); cbn [EditorGuards.clearAt].
      - apply filter_In. split; [apply in_or_app; right; now left|].
        apply negb_true_iff, Z.leb_gt. lia.
      - apply in_or_app. right. now left. }
    unfold EditorGuards.advance. cbn [EditorGuards.clearAt].
    assert (Hdue : existsb (fun due => due <=? later)
                     (EditorGuards.clearAt b1 ++ [t2 + 2000]) = true).
    { apply existsb_exists. exists (t1 + 2000). split.
      - apply in_or_app. now left.
      - apply Z.leb_le. lia. }
    now rewrite Hdue.
Qed.

(** Refusals at 0 and at 1500 ms, seen at 2500 ms. *)
Lemma second_warning_sample :
  UseLockedRegions.lockedWarning
    (UseLockedRegions.advance 2500
       (UseLockedRegions.showWarning 1500 "Cannot edit locked region"
          (UseLockedRegions.advance 1500
             (UseLockedRegions.showWarning 0 "Cannot edit locked region"
                (UseLockedRegions.mkWarning None None)))))
  = Some "Cannot edit locked region"%string
  /\ EditorGuards.lockedWarning
       (EditorGuards.advance 2500
          (EditorGuards.performAll 1500
             (EditorGuards.advance 1500
                (EditorGuards.performAll 0 (EditorGuards.mkBanner None [])
                   (EditorGuards.warn "Cannot edit locked region")))
             (EditorGuards.warn "Cannot edit locked region")))
     = None.
Proof.
  apply second_warning_outlasts_first_timeout_in_hook_only; lia.
Defined.

(** *** A text without locked elements *)

(** X10.  In a text in which [data-locked="true"] occurs nowhere, the guards
    refuse nothing: with the regions [findLockedRegions] finds in it, no
    key is refused by either key handler, no input, no paste and no
    change is reverted, and [executeEdits] hands every edit on. *)
Theorem unmarked_text_is_never_guarded code K selection e changes edits :
  hasLockedAttr code = false ->
  let regions := findLockedRegions code in
  UseLockedRegions.onKeyDown K selection regions e = []
  /\ UseLockedRegions.onBeforeInput selection regions = []
  /\ UseLockedRegions.doesChangeAffectLockedRegions regions changes = false
  /\ EditorGuards.onKeyDown K selection regions e = []
  /\ EditorGuards.onDidPaste selection regions = []
  /\ EditorGuards.executeEdits regions edits = EditorGuards.Forwarded edits.
Proof.
  intros H. cbn zeta.
  assert (Hnone : findLockedRegions code = []).
  { unfold findLockedRegions. apply scanLines_no_openTag.
    eapply Forall_impl; [apply (lines_without _ _ H)|].
    intros line Hline. now apply no_attr_no_openTag. }
  rewrite Hnone.
  unfold UseLockedRegions.onKeyDown, UseLockedRegions.onBeforeInput,
    EditorGuards.onKeyDown, EditorGuards.onDidPaste, EditorGuards.executeEdits.
  assert (Hedits : EditorGuards.hasLockedEdit [] edits = false).
  { apply hasLockedEdit_false. reflexivity. }
  rewrite Hedits. destruct selection; repeat split; reflexivity.
Qed.

Lemma unmarked_text_sample :
  let regions := findLockedRegions helloText in
  UseLockedRegions.onKeyDown monacoKeyCodes (Some (IRange.mk 1 5 1 5)) regions
    (mkKeyboardEvent 1 false false false false) = []
  /\ UseLockedRegions.onBeforeInput (Some (IRange.mk 1 5 1 5)) regions = []
  /\ UseLockedRegions.doesChangeAffectLockedRegions regions [IRange.mk 1 5 1 9] = false
  /\ EditorGuards.onKeyDown monacoKeyCodes (Some (IRange.mk 1 5 1 5)) regions
       (mkKeyboardEvent 1 false false false false) = []
  /\ EditorGuards.onDidPaste (Some (IRange.mk 1 5 1 5)) regions = []
  /\ EditorGuards.executeEdits regions
       [EditorGuards.mkEdit (Some (IRange.mk 1 5 1 9)) (Some "x"%string)]
     = EditorGuards.Forwarded
         [EditorGuards.mkEdit (Some (IRange.mk 1 5 1 9)) (Some "x"%string)].
Proof.
  apply (unmarked_text_is_never_guarded helloText monacoKeyCodes). reflexivity.
Defined.

End GuardFacts.

(** ** The code editor: reset, apply and what the auto-sync leaves *)

Module CodeEditorButtons.
Import CodeEditor CodeEditorSamples CodeEditorFacts.
Local Open Scope Z_scope.

Section Component.

Context {EditorNode HeadSettings : Type}.
Variable parseMjmlToNode : string -> ParseOutcome EditorNode.
Variable generateMjml : EditorNode -> HeadSettings -> string.

Implicit Type c : Component EditorNode HeadSettings.

Lemma advance_idle later c :
  timer c = None -> advance parseMjmlToNode generateMjml later c = c.
Proof. unfold advance. now intros ->. Qed.

Lemma deps_clean_dirty c c' :
  isDirty c = true -> isDirty c' = false ->
  deps generateMjml c <> deps generateMjml c'.
Proof. unfold deps. intros H H' [= _ E]. congruence. Qed.

(** X11.  After the timeout of the auto-sync effect has fired, whatever the
    parser did, the text is still the edited one and nothing is pending:
    the parser is not called again until the text is edited again. *)
Theorem auto_sync_fires_once now source c edited :
  editedCode c = Some edited ->
  let c' := fire parseMjmlToNode generateMjml now source c in
  editedCode c' = Some edited
  /\ isDirty c' = true
  /\ timer c' = None
  /\ forall later, advance parseMjmlToNode generateMjml later c' = c'.
Proof.
  intros He. cbn zeta. rewrite (fire_dirty parseMjmlToNode generateMjml now source c _ He).
  assert (Ht : timer (performAll (withTimer c None)
                        (autoSyncCalls parseMjmlToNode now source)) = None).
  { unfold autoSyncCalls. destruct (parseMjmlToNode source); reflexivity. }
  assert (Hedit : editedCode (performAll (withTimer c None)
                                (autoSyncCalls parseMjmlToNode now source)) = Some edited).
  { rewrite autoSync_keeps_editedCode. exact He. }
  repeat split; try assumption.
  - unfold isDirty. now rewrite Hedit.
  - intros later. now apply advance_idle.
Qed.

(** X12.  [handleReset] while the text is edited: the edit and the error are
    gone, the document is as it was, the editor shows the markup
    generated from it, and the pending auto-sync is cancelled. *)
Theorem handleReset_discards_the_edit now c edited :
  editedCode c = Some edited ->
  let c' := handleReset generateMjml now c in
  editedCode c' = None
  /\ error c' = None
  /\ document c' = document c
  /\ code generateMjml c' = generateMjml (document c) (headSettings c)
  /\ timer c' = None
  /\ calls c' = calls c ++ [SetEditedCode None; SetError None]
  /\ forall later, advance parseMjmlToNode generateMjml later c' = c'.
Proof.
  intros He. cbn zeta. unfold handleReset.
  rewrite commit_changed.
  - unfold runEffect. cbn. repeat split.
    + now rewrite <- app_assoc.
  - apply deps_clean_dirty; [unfold isDirty; now rewrite He | reflexivity].
Qed.

(** X13.  [handleSync] and the pending auto-sync: when the parser returns a
    node the text is no longer edited and the pending timeout is
    cancelled, so the text is not parsed a second time; when the parser
    throws or returns null the edit stays and so does the timeout. *)
Theorem handleSync_and_the_pending_timeout now c source :
  editedCode c = Some source ->
  let c' := handleSync parseMjmlToNode generateMjml now c in
  (forall node,
      parseMjmlToNode source = Returned node ->
      isDirty c' = false /\ timer c' = None
      /\ code generateMjml c' = generateMjml node (headSettings c)
      /\ forall later, advance parseMjmlToNode generateMjml later c' = c')
  /\ ((forall node, parseMjmlToNode source <> Returned node) ->
      editedCode c' = Some source /\ timer c' = timer c /\ document c' = document c).
Proof.
  intros He. cbn zeta. unfold handleSync, handleSyncCalls.
  rewrite (code_edited generateMjml c source He). split.
  - intros node Hp. rewrite Hp. rewrite commit_changed.
    + unfold runEffect. cbn. repeat split.
    + apply deps_clean_dirty; [unfold isDirty; now rewrite He | reflexivity].
  - intros Hp. destruct (parseMjmlToNode source) as [message| |node] eqn:E.
    + rewrite commit_same; [cbn; auto|].
      unfold deps, code, isDirty. cbn. now rewrite He.
    + rewrite commit_same; [cbn; auto|].
      unfold deps, code, isDirty. cbn. now rewrite He.
    + now destruct (Hp node).
Qed.

(** X14.  When the parser returns null the two sync paths differ: the
    auto-sync callback changes nothing, not even the error on display;
    [handleSync] reports that the text could not be parsed.  Neither
    touches the document or the edit. *)
Theorem sync_paths_on_null now c source :
  editedCode c = Some source ->
  parseMjmlToNode source = ReturnedNull ->
  let auto := fire parseMjmlToNode generateMjml now source c in
  let sync := handleSync parseMjmlToNode generateMjml now c in
  document auto = document c
  /\ error auto = error c
  /\ editedCode auto = Some source
  /\ calls auto = calls c ++ [ParseMjmlToNode now source]
  /\ document sync = document c
  /\ error sync = Some "Failed to parse MJML. Please check the syntax."%string
  /\ editedCode sync = Some source
  /\ calls sync
     = calls c ++ [ParseMjmlToNode now source;
                   SetError (Some "Failed to parse MJML. Please check the syntax."%string)].
Proof.
  intros He Hp. cbn zeta. rewrite (fire_dirty parseMjmlToNode generateMjml now source c _ He).
  unfold handleSync, handleSyncCalls, autoSyncCalls.
  rewrite (code_edited generateMjml c source He), Hp.
  rewrite commit_same.
  - cbn. repeat split; try assumption. now rewrite <- app_assoc.
  - unfold deps, code, isDirty. cbn. now rewrite He.
Qed.

(** X15.  An [onChange] with the text the editor already holds clears the
    error and leaves the pending auto-sync as it is: the debounce is not
    restarted.  An [onChange] without a value does nothing. *)
Theorem handleChange_without_change now c v :
  editedCode c = Some v ->
  let c' := handleChange generateMjml now (Some v) c in
  editedCode c' = Some v
  /\ error c' = None
  /\ timer c' = timer c
  /\ document c' = document c
  /\ handleChange generateMjml now None c = c.
Proof.
  intros He. cbn zeta. unfold handleChange. rewrite commit_same.
  - cbn. auto.
  - unfold deps, code, isDirty. cbn. now rewrite He.
Qed.

End Component.

(** The sample editor after an edit the sample parser accepts. *)
Lemma auto_sync_fires_once_sample :
  let c := sampleEditor "<mj-section>" in
  let c' := fire sampleParser sampleSerializer 500 "<mj-section>" c in
  editedCode c' = Some "<mj-section>"%string
  /\ isDirty c' = true
  /\ timer c' = None
  /\ forall later, advance sampleParser sampleSerializer later c' = c'.
Proof.
  apply (auto_sync_fires_once sampleParser sampleSerializer 500 "<mj-section>"
           (sampleEditor "<mj-section>") "<mj-section>"). reflexivity.
Defined.

Lemma handleReset_sample :
  let c := sampleEditor "<mj-text" in
  let c' := handleReset sampleSerializer 300 c in
  editedCode c' = None
  /\ error c' = None
  /\ document c' = document c
  /\ code sampleSerializer c' = sampleSerializer (document c) (headSettings c)
  /\ timer c' = None
  /\ calls c' = calls c ++ [SetEditedCode None; SetError None]
  /\ forall later, advance sampleParser sampleSerializer later c' = c'.
Proof.
  apply (handleReset_discards_the_edit sampleParser sampleSerializer 300
           (sampleEditor "<mj-text") "<mj-text"). reflexivity.
Defined.

Lemma handleSync_timeout_sample :
  (let c' := handleSync sampleParser sampleSerializer 300 (sampleEditor "<mj-section>") in
   isDirty c' = false /\ timer c' = None)
  /\ (let c' := handleSync sampleParser sampleSerializer 300 (sampleEditor "<mj-text") in
      editedCode c' = Some "<mj-text"%string
      /\ timer c' = Some (500, "<mj-text"%string)).
Proof.
  split; cbn zeta.
  - destruct (proj1 (handleSync_and_the_pending_timeout sampleParser sampleSerializer 300
                       (sampleEditor "<mj-section>") "<mj-section>" eq_refl)
                12%nat eq_refl) as (Hd & Ht & _).
    split; assumption.
  - destruct (proj2 (handleSync_and_the_pending_timeout sampleParser sampleSerializer 300
                       (sampleEditor "<mj-text") "<mj-text" eq_refl))
      as (He & Ht & _).
    + intros node. vm_compute. discriminate.
    + split; assumption.
Defined.

Lemma handleChange_without_change_sample :
  let c := sampleEditor "<mj-text" in
  let c' := handleChange sampleSerializer 300 (Some "<mj-text"%string) c in
  editedCode c' = Some "<mj-text"%string
  /\ error c' = None
  /\ timer c' = timer c
  /\ document c' = document c
  /\ handleChange sampleSerializer 300 None c = c.
Proof.
  apply (handleChange_without_change sampleSerializer 300 (sampleEditor "<mj-text")
           "<mj-text"). reflexivity.
Defined.

Lemma sync_paths_on_null_sample :
  let c := sampleEditor " " in
  let auto := fire blankParser sampleSerializer 500 " " c in
  let sync := handleSync blankParser sampleSerializer 500 c in
  document auto = document c
  /\ error auto = error c
  /\ editedCode auto = Some " "%string
  /\ calls auto = calls c ++ [ParseMjmlToNode 500 " "]
  /\ document sync = document c
  /\ error sync = Some "Failed to parse MJML. Please check the syntax."%string
  /\ editedCode sync = Some " "%string
  /\ calls sync
     = calls c ++ [ParseMjmlToNode 500 " ";
                   SetError (Some "Failed to parse MJML. Please check the syntax."%string)].
Proof.
  apply (sync_paths_on_null blankParser sampleSerializer 500 (sampleEditor " ") " ");
    reflexivity.
Defined.

End CodeEditorButtons.

(** ** The send route: what it sends and what it answers *)

Module SendRouteMore.
Import SendRoute SendRouteNotions.
Local Open Scope Z_scope.

Section Handler.

Variable world : World.

#[local] Abbreviation Outcome := (Outcome world).

Lemma handle_with_content body :
  hasContent body ->
  handle world body
  = if bool_decide (mode body = Some "resend"%string) then sendWithResend world body
    else sendWithNodemailer world body.
Proof. intros (H1 & H2 & H3). unfold handle. now rewrite H1, H2, H3. Qed.

Lemma sendWith_outcome body transport fromAddress before :
  Forall (passes world) before ->
  Outcome (JsonBody body) (sendWith world body transport fromAddress before).
Proof.
  intros Hb. unfold sendWith. cbn zeta.
  destruct (sendMail world transport _) as [m|info] eqn:E.
  - apply failed; [exact Hb | cbn; now rewrite E].
  - apply sent; [exact Hb | reflexivity | cbn; now rewrite E].
Qed.

Lemma POST_outcome request : Outcome request (POST world request).
Proof.
  destruct request as [m| |body]; cbn [POST]; [apply unreadable | apply nullBody |].
  unfold handle.
  destruct (falsy (emailField to body) || falsy (emailField subject body)
            || falsy (emailField html body)); [apply refused|].
  destruct (bool_decide (mode body = Some "resend"%string)).
  - unfold sendWithResend. destruct (falsy (resendApiKey body)); [apply refused|].
    cbn zeta. destruct (resendEmailsSend world _ _) as [m|answer] eqn:E.
    + apply (failed world body []); [constructor | cbn; now rewrite E].
    + destruct (resendError answer).
      * apply rejected. cbn. now rewrite E.
      * apply (sent world body []); [constructor | reflexivity | cbn; now rewrite E].
  - unfold sendWithNodemailer.
    destruct (bool_decide (mode body = Some "test"%string)).
    + destruct (createTestAccount world) as [m|account] eqn:E.
      * apply (failed world body []); [constructor | cbn; now rewrite E].
      * apply sendWith_outcome. repeat constructor. cbn. now rewrite E.
    + destruct (smtp body) as [s|]; [|apply refused].
      destruct (falsy (host s) || _ || _); [apply refused|].
      destruct (falsy (emailField from body)); [apply refused|].
      apply sendWith_outcome. now repeat constructor.
Qed.

Lemma sends_none before : Forall (passes world) before -> sends before = [].
Proof.
  unfold sends. induction 1 as [|e l [He _] _ IH]; [reflexivity|].
  cbn [List.filter]. now rewrite He.
Qed.

Lemma passes_thrownBy before :
  Forall (passes world) before -> Forall (fun e => thrownBy world e = None) before.
Proof. intros H. eapply Forall_impl; [exact H|]. now intros e [_ He]. Qed.

Lemma sends_last before call :
  Forall (passes world) before ->
  sends (before ++ [call]) = if isSend call then [call] else [].
Proof.
  intros H. unfold sends. rewrite List.filter_app. fold (sends before).
  rewrite (sends_none _ H). cbn. now destruct (isSend call).
Qed.

(** X16.  The handler answers every request with status 200, 400 or 500 and
    makes at most one send call; it answers 200 only when it has made
    one, as its last call, and that call did not throw. *)
Theorem POST_sends_at_most_once request :
  let answer := POST world request in
  (status answer.1 = 200 \/ status answer.1 = 400 \/ status answer.1 = 500)
  /\ (length (sends answer.2) <= 1)%nat
  /\ (status answer.1 = 200 ->
      exists before call,
        answer.2 = before ++ [call] /\ sends answer.2 = [call]
        /\ thrownBy world call = None).
Proof.
  cbn zeta. destruct (POST_outcome request)
    as [m| |body message|body before call m Hb Ht|body key message m Ht
       |body before call payload Hb Hs Ht];
    cbn [fst snd status caught].
  - repeat split; auto. discriminate.
  - repeat split; auto. discriminate.
  - repeat split; auto. discriminate.
  - repeat split; auto; [|discriminate].
    rewrite (sends_last _ _ Hb). destruct (isSend call); cbn; lia.
  - repeat split; auto. discriminate.
  - repeat split; auto.
    + rewrite (sends_last _ _ Hb), Hs. cbn. lia.
    + intros _. exists before, call. rewrite (sends_last _ _ Hb), Hs. auto.
Qed.

(** X17.  The handler answers 500 exactly when the body of the request
    cannot be read, the body is [null], or the last call it made to a
    mail service threw; otherwise no call it made threw.  The error it
    reports is then the message of what was thrown: of the rejection of
    [request.json()], of the [TypeError] for the body [null], or of the
    call; "Failed to send email" when that has no message. *)
Theorem POST_answers_500_iff request :
  let answer := POST world request in
  (status answer.1 = 500 <->
   (exists m, request = JsonRejects m)
   \/ request = JsonNull
   \/ exists call m, last answer.2 = Some call /\ thrownBy world call = Some m)
  /\ (forall m, request = JsonRejects m -> answer = (caught m, []))
  /\ (request = JsonNull -> answer = (caught (Some (typeErrorOfNull world)), []))
  /\ (forall call m,
        last answer.2 = Some call -> thrownBy world call = Some m ->
        answer.1 = caught m)
  /\ (status answer.1 <> 500 -> Forall (fun e => thrownBy world e = None) answer.2).
Proof.
  cbn zeta. split; [split|].
  - destruct (POST_outcome request)
      as [m| |body message|body before call m Hb Ht|body key message m Ht
         |body before call payload Hb Hs Ht];
      cbn [fst snd status caught]; try discriminate; intros _.
    + left. now exists m.
    + right. now left.
    + right. right. exists call, m. split; [apply last_snoc | exact Ht].
  - destruct (POST_outcome request)
      as [m| |body message|body before call m Hb Ht|body key message m Ht
         |body before call payload Hb Hs Ht];
      cbn [fst snd status caught]; try reflexivity;
      intros [[m' [=]]|[[=]|(call' & m' & Hl & Ht')]].
    + discriminate Hl.
    + cbn in Hl. injection Hl as <-. congruence.
    + rewrite last_snoc in Hl. injection Hl as <-. congruence.
  - repeat split.
    + now intros m ->.
    + now intros ->.
    + intros call' m'.
      destruct (POST_outcome request)
        as [m| |body message|body before call m Hb Ht|body key message m Ht
           |body before call payload Hb Hs Ht];
        cbn [fst snd]; try discriminate.
      * rewrite last_snoc. intros [= <-] Ht'. congruence.
      * cbn. intros [= <-] Ht'. congruence.
      * rewrite last_snoc. intros [= <-] Ht'. congruence.
    + destruct (POST_outcome request)
        as [m| |body message|body before call m Hb Ht|body key message m Ht
           |body before call payload Hb Hs Ht];
        cbn [fst snd status caught]; try (now intros []); intros _.
      * constructor.
      * now repeat constructor.
      * apply Forall_app. split; [now apply passes_thrownBy | now repeat constructor].
Qed.

(** X18.  With the email content present and a mode that is neither "resend"
    nor "test" (the mode "smtp", any other, or none), the request goes
    the way of a custom SMTP server: without the host, the user or the
    password of the server it is refused for its configuration; with
    them and without a sender it is refused for the sender; in both
    cases with status 400 and without any call.  Otherwise a transport to
    that server is made and the mail is sent through it from that
    sender. *)
Theorem POST_custom_smtp body :
  hasContent body ->
  mode body <> Some "resend"%string -> mode body <> Some "test"%string ->
  (smtpConfigured body = false ->
   POST world (JsonBody body)
   = (mkResponse 400 (ErrorPayload "Missing SMTP configuration"), []))
  /\ (smtpConfigured body = true -> falsy (emailField from body) = true ->
      POST world (JsonBody body)
      = (mkResponse 400 (ErrorPayload "Missing sender email address"), []))
  /\ (smtpConfigured body = true -> falsy (emailField from body) = false ->
      exists s transport message,
        smtp body = Some s
        /\ transport = mkTransport (get (host s)) (port s) (secure s)
                         (get (smtpAuthField user body)) (get (smtpAuthField pass body))
        /\ msgFrom message = get (emailField from body)
        /\ msgTo message = get (emailField to body)
        /\ (POST world (JsonBody body)).2
           = [CreateTransport transport; SendMail transport message]).
Proof.
  intros Hc Hr Ht. cbn [POST]. rewrite (handle_with_content _ Hc).
  rewrite (bool_decide_eq_false_2 _ Hr). unfold sendWithNodemailer.
  rewrite (bool_decide_eq_false_2 _ Ht). unfold smtpConfigured.
  destruct (smtp body) as [s|] eqn:Es.
  - destruct (falsy (host s)), (falsy (smtpAuthField user body)),
      (falsy (smtpAuthField pass body)); cbn [negb andb orb];
      repeat split; try discriminate; try reflexivity.
    + intros _ Hf. now rewrite Hf.
    + intros _ Hf. rewrite Hf. eexists s, _, _. split; [reflexivity|].
      split; [reflexivity|]. unfold sendWith. cbn zeta.
      destruct (sendMail world _ _); cbn [snd app]; repeat split; reflexivity.
  - repeat split; try discriminate; reflexivity.
Qed.

Lemma sendWith_reports body transport fromAddress before
    id response previewUrl reported realDelivery log :
  sendWith world body transport fromAddress before
  = (mkResponse 200 (MailSent id response previewUrl reported realDelivery), log) ->
  reported = mode body
  /\ (realDelivery = true <-> mode body = Some "smtp"%string)
  /\ (previewUrl <> None -> mode body = Some "test"%string).
Proof.
  unfold sendWith. cbn zeta.
  destruct (sendMail _ _ _) as [m|info]; [discriminate|].
  intros [= <- <- <- <- <- _]. repeat split.
  - apply bool_decide_eq_true_1.
  - apply bool_decide_eq_true_2.
  - destruct (bool_decide (mode body = Some "test"%string)) eqn:Et;
      [intros _; now apply bool_decide_eq_true_1 in Et | now intros []].
Qed.

(** X19.  What a 200 answer reports.  An answer of the Resend service comes
    only for the mode "resend"; an answer of a mail transport comes only
    for another mode, repeats the mode of the request, says that the
    delivery is real exactly for the mode "smtp", and has a preview URL
    only for the mode "test". *)
Theorem POST_reports_the_mode body :
  (forall id log,
      POST world (JsonBody body) = (mkResponse 200 (ResendSent id), log) ->
      mode body = Some "resend"%string)
  /\ (forall id response previewUrl reported realDelivery log,
        POST world (JsonBody body)
        = (mkResponse 200 (MailSent id response previewUrl reported realDelivery), log) ->
        reported = mode body
        /\ mode body <> Some "resend"%string
        /\ (realDelivery = true <-> mode body = Some "smtp"%string)
        /\ (previewUrl <> None -> mode body = Some "test"%string)).
Proof.
  cbn [POST]. unfold handle.
  destruct (_ || _ || _); [split; intros; discriminate|].
  destruct (bool_decide (mode body = Some "resend"%string)) eqn:Er.
  - apply bool_decide_eq_true_1 in Er. split; [intros; exact Er|].
    intros id response previewUrl reported realDelivery log.
    unfold sendWithResend. destruct (falsy _); [discriminate|]. cbn zeta.
    destruct (resendEmailsSend _ _ _) as [m|r]; [discriminate|].
    destruct (resendError r); discriminate.
  - apply bool_decide_eq_false_1 in Er.
    unfold sendWithNodemailer. split.
    + intros id log.
      destruct (bool_decide (mode body = Some "test"%string)).
      * destruct (createTestAccount world); [discriminate|].
        unfold sendWith. cbn zeta. destruct (sendMail _ _ _); discriminate.
      * destruct (smtp body) as [s|]; [|discriminate].
        destruct (_ || _ || _); [discriminate|].
        destruct (falsy _); [discriminate|].
        unfold sendWith. cbn zeta. destruct (sendMail _ _ _); discriminate.
    + intros id response previewUrl reported realDelivery log H.
      assert (Hsend : exists transport fromAddress before,
                 sendWith world body transport fromAddress before
                 = (mkResponse 200 (MailSent id response previewUrl reported realDelivery),
                    log)).
      { destruct (bool_decide (mode body = Some "test"%string)).
        - destruct (createTestAccount world); [discriminate | eauto].
        - destruct (smtp body) as [s|]; [|discriminate].
          destruct (_ || _ || _); [discriminate|].
          destruct (falsy _); [discriminate | eauto]. }
      destruct Hsend as (transport & fromAddress & before & Hsend).
      destruct (sendWith_reports _ _ _ _ _ _ _ _ _ _ Hsend) as (H1 & H2 & H3).
      auto.
Qed.

(** X20.  A request for Resend with the email content and a key makes one
    call, to Resend with that key: the sender of the message is the one
    of the request or, without one, Mail Studio's address at resend.dev;
    recipient, subject and HTML are those of the request; an empty text
    is left out.  An error Resend answers with is passed on with
    status 400. *)
Theorem POST_resend body :
  hasContent body ->
  mode body = Some "resend"%string ->
  falsy (resendApiKey body) = false ->
  let message :=
    mkMessage (orElse (emailField from body) "Mail Studio <onboarding@resend.dev>")
      (get (emailField to body)) (get (emailField subject body))
      (get (emailField html body)) (orUndefined (emailField text body)) in
  let answer := POST world (JsonBody body) in
  answer.2 = [ResendEmailsSend (get (resendApiKey body)) message]
  /\ (forall r,
        resendEmailsSend world (get (resendApiKey body)) message = Yields r ->
        answer.1 = match resendError r with
                   | Some m => mkResponse 400 (ErrorPayload m)
                   | None => mkResponse 200 (ResendSent (resendId r))
                   end).
Proof.
  intros Hc Hm Hk. cbn zeta. cbn [POST]. rewrite (handle_with_content _ Hc).
  rewrite (bool_decide_eq_true_2 _ Hm). unfold sendWithResend. rewrite Hk. cbn zeta.
  destruct (resendEmailsSend world _ _) as [m|r]; cbn [fst snd].
  - split; [reflexivity | discriminate].
  - split; [now destruct (resendError r)|].
    intros r' [= <-]. now destruct (resendError r).
Qed.

End Handler.

(** A request for a custom server, without a sender and with one. *)
Lemma POST_custom_smtp_sample :
  POST sampleWorld
    (JsonBody (mkRequest (Some "smtp"%string) None (Some sampleSmtp)
                 (Some (sampleEmail None))))
  = (mkResponse 400 (ErrorPayload "Missing sender email address"), []).
Proof.
  apply (proj1 (proj2 (POST_custom_smtp sampleWorld
                         (mkRequest (Some "smtp"%string) None (Some sampleSmtp)
                            (Some (sampleEmail None)))
                         ltac:(repeat split; reflexivity)
                         ltac:(discriminate) ltac:(discriminate))));
    reflexivity.
Defined.

(** A request without a mode and with a server: the mail goes out
    through the server, and the answer says no mode and no real
    delivery. *)
Lemma POST_reports_the_mode_sample :
  exists id response log,
    POST sampleWorld (JsonBody modelessRequest)
    = (mkResponse 200 (MailSent id response None None false), log)
    /\ mode modelessRequest <> Some "resend"%string
    /\ (false = true <-> mode modelessRequest = Some "smtp"%string).
Proof.
  eexists _, _, _. split; [reflexivity|].
  destruct (proj2 (POST_reports_the_mode sampleWorld modelessRequest)
              _ _ _ _ _ _ eq_refl) as (_ & H2 & H3 & _).
  split; assumption.
Defined.

Lemma POST_resend_sample :
  let body := sampleRequest (Some "bob@example.org"%string) (Some "re_123"%string) in
  let message :=
    mkMessage "Mail Studio <onboarding@resend.dev>" "bob@example.org" "Hello"
      "<p>Hi</p>" None in
  let answer := POST sampleWorld (JsonBody body) in
  answer.2 = [ResendEmailsSend "re_123" message]
  /\ (forall r,
        resendEmailsSend sampleWorld "re_123" message = Yields r ->
        answer.1 = match resendError r with
                   | Some m => mkResponse 400 (ErrorPayload m)
                   | None => mkResponse 200 (ResendSent (resendId r))
                   end).
Proof.
  apply (POST_resend sampleWorld
           (sampleRequest (Some "bob@example.org"%string) (Some "re_123"%string)));
    [repeat split; reflexivity | reflexivity | reflexivity].
Defined.

(** Resend throws: the answer is 500 with what it threw. *)
Lemma POST_answers_500_sample :
  let request :=
    JsonBody (sampleRequest (Some "bob@example.org"%string) (Some "re_123"%string)) in
  status (POST failingWorld request).1 = 500
  /\ (POST failingWorld request).1 = caught (Some "rate limited"%string).
Proof.
  cbn zeta.
  destruct (POST_answers_500_iff failingWorld
              (JsonBody (sampleRequest (Some "bob@example.org"%string)
                           (Some "re_123"%string))))
    as (Hiff & _ & _ & Hmessage & _).
  split.
  - apply (proj2 Hiff). right. right. eexists _, _. split; reflexivity.
  - eapply Hmessage; reflexivity.
Defined.

End SendRouteMore.

(** ** The UI store and the end of a drag *)

Module ShellFacts.
Local Open Scope Z_scope.

(** *** The UI store *)

Section Store.
Import UIStore.

Lemma run_snoc s actions a : run s (actions ++ [a]) = act (run s actions) a.
Proof. unfold run. now rewrite fold_left_app. Qed.

(** X21.  After any sequence of actions what [partialize] hands to the storage
    is the editor mode of the last [setEditorMode] and the preview mode
    of the last [setPreviewMode] (those of the start when there was
    none): no other action changes what is persisted.  Right after a
    [setEditorMode] the code and preview flags are those of the mode, and
    never both set, whatever toggles came before. *)
Theorem store_persisted_and_flags s actions :
  partialize (run s actions)
  = (lastEditorMode (editorMode s) actions, lastPreviewMode (previewMode s) actions)
  /\ forall mode,
       let s' := run s (actions ++ [SetEditorMode mode]) in
       showCode s' = bool_decide (mode = Code)
       /\ showPreview s' = bool_decide (mode = Preview)
       /\ (showCode s' && showPreview s') = false.
Proof.
  split.
  - revert s. induction actions as [|a actions IH]; intros s; [reflexivity|].
    change (run s (a :: actions)) with (run (act s a) actions).
    rewrite IH. now destruct a.
  - intros mode. cbn zeta. rewrite run_snoc. cbn. now destruct mode.
Qed.

End Store.

(** *** The end of a drag *)

Section Drag.
Import DragAndDrop.

Lemma applyAll_resets s rest :
  Forall (fun e => isStoreCall e = true) rest ->
  applyAll s ([SetIsDragging false; SetActiveId None; SetActiveType None] ++ rest)
  = mkDragState false None None.
Proof.
  intros H. unfold applyAll. rewrite fold_left_app. cbn [fold_left apply].
  induction H as [|e rest He _ IH]; [reflexivity|].
  cbn [fold_left]. destruct e; try discriminate; exact IH.
Qed.

Lemma drop_calls event : Forall (fun e => isStoreCall e = true) (drop event).
Proof.
  unfold drop. destruct (over event) as [[o|]|]; try constructor;
    destruct (activeData (active event)) as [a|]; try constructor.
  destruct (bool_decide (dragType a = _)); [now repeat constructor|].
  destruct (bool_decide (dragType a = _)); [|constructor].
  destruct (bool_decide (nodeId a = _)); now repeat constructor.
Qed.

(** X22.  Wherever a drag ends, [handleDragEnd] first clears the state of the
    drag, so that nothing of the drag is left whatever [handleDragStart]
    had set, and so does [handleDragCancel]; [handleDragEnd] then calls
    the store at most once; it does not call it when the drag ends over
    nothing, and never moves a node onto itself. *)
Theorem handleDragEnd_clears_and_calls_once started event s :
  applyAll s (handleDragStart started ++ handleDragEnd event)
  = mkDragState false None None
  /\ applyAll s (handleDragStart started ++ handleDragCancel)
     = mkDragState false None None
  /\ (length (List.filter isStoreCall (handleDragEnd event)) <= 1)%nat
  /\ (over event = None -> List.filter isStoreCall (handleDragEnd event) = [])
  /\ (forall node target index,
        In (MoveNode node target index) (handleDragEnd event) -> node <> target).
Proof.
  split; [|split; [|split; [|split]]].
  - unfold applyAll. rewrite fold_left_app.
    set (s1 := fold_left apply (handleDragStart started) s).
    exact (applyAll_resets s1 (drop event) (drop_calls event)).
  - unfold applyAll. rewrite fold_left_app. reflexivity.
  - unfold handleDragEnd, drop. cbn [app List.filter isStoreCall].
    destruct (over event) as [[o|]|]; cbn; try lia;
      destruct (activeData (active event)) as [a|]; cbn; try lia.
    repeat (destruct (bool_decide _); cbn; try lia).
  - intros H. unfold handleDragEnd, drop. now rewrite H.
  - intros node target index. unfold handleDragEnd, drop.
    cbn [app]. intros [H|[H|[H|H]]]; try discriminate.
    destruct (over event) as [[o|]|]; destruct (activeData (active event)) as [a|];
      try now destruct H.
    destruct (bool_decide (dragType a = _)); [destruct H as [H|[]]; discriminate|].
    destruct (bool_decide (dragType a = _)); [|now destruct H].
    destruct (bool_decide (nodeId a = overNodeId o)) eqn:E; [now destruct H|].
    apply bool_decide_eq_false_1 in E. destruct H as [[= <- <- _]|[]]. exact E.
Qed.

End Drag.

End ShellFacts.

(** ** The social block: the size of its icons *)

Module SocialNodeFacts.
Import Chars SocialNode.
Local Open Scope Z_scope.

Lemma chars_append a b : chars (a +:+ b) = chars a ++ chars b.
Proof.
  unfold chars. induction a as [|c a IH]; [reflexivity|].
  simpl. now rewrite IH.
Qed.

(** The digits of a numeral are read back as the number they spell. *)
Lemma digits_numeral d : forall acc rest,
  0 <= acc ->
  match rest with c :: _ => isDigit c = false | [] => True end ->
  digits acc (chars (DecimalString.NilEmpty.string_of_uint d) ++ rest)
  = Z.of_nat (Nat.of_uint_acc d (Z.to_nat acc)).
Proof.
  assert (Hstep : forall c k d' acc rest,
             isDigit c = true -> digitValue c = Z.of_nat k -> 0 <= acc ->
             (forall acc', 0 <= acc' ->
                digits acc' (chars (DecimalString.NilEmpty.string_of_uint d') ++ rest)
                = Z.of_nat (Nat.of_uint_acc d' (Z.to_nat acc'))) ->
             digits acc (c :: chars (DecimalString.NilEmpty.string_of_uint d') ++ rest)
             = Z.of_nat (Nat.of_uint_acc d' (k + Nat.tail_mul 10 (Z.to_nat acc)))).
  { intros c k d' acc rest Hc Hv Hacc IH. cbn [digits]. rewrite Hc, Hv.
    rewrite IH by lia. f_equal. f_equal. rewrite Nat.tail_mul_spec. lia. }
  induction d as [|d IH|d IH|d IH|d IH|d IH|d IH|d IH|d IH|d IH|d IH];
    intros acc rest Hacc Hrest.
  - cbn [DecimalString.NilEmpty.string_of_uint chars list_ascii_of_string app
         Nat.of_uint_acc].
    destruct rest as [|c rest]; cbn [digits]; [|rewrite Hrest]; lia.
  - apply (Hstep "0"%char 0%nat); auto.
  - apply (Hstep "1"%char 1%nat); auto.
  - apply (Hstep "2"%char 2%nat); auto.
  - apply (Hstep "3"%char 3%nat); auto.
  - apply (Hstep "4"%char 4%nat); auto.
  - apply (Hstep "5"%char 5%nat); auto.
  - apply (Hstep "6"%char 6%nat); auto.
  - apply (Hstep "7"%char 7%nat); auto.
  - apply (Hstep "8"%char 8%nat); auto.
  - apply (Hstep "9"%char 9%nat); auto.
Qed.

Lemma numeral_head n :
  exists c rest,
    chars (DecimalString.NilEmpty.string_of_uint (Nat.to_uint n)) = c :: rest
    /\ isDigit c = true /\ isStrWhiteSpace c = false
    /\ Ascii.eqb c "-" = false /\ Ascii.eqb c "+" = false.
Proof.
  pose proof (DecimalNat.Unsigned.of_to n) as Hn.
  destruct (Nat.to_uint n) as [|d|d|d|d|d|d|d|d|d|d] eqn:E;
    [ cbn in Hn; subst n; vm_compute in E; discriminate
    | eexists _, _; split; [reflexivity|]; repeat split; reflexivity .. ].
Qed.

Lemma parseInt_pixels n : parseInt (pixels n) = Some (Z.of_nat n).
Proof.
  unfold parseInt, pixels. rewrite chars_append.
  destruct (numeral_head n) as (c & rest & Hhead & Hd & Hs & Hm & Hp).
  pose proof (digits_numeral (Nat.to_uint n) 0 (chars "px") (Z.le_refl 0) eq_refl) as Hv.
  rewrite Hhead in *. cbn [app dropWhiteSpace]. rewrite Hs, Hm, Hp, Hd.
  cbn [app] in Hv. rewrite Hv. f_equal.
  change (Nat.of_uint_acc (Nat.to_uint n) (Z.to_nat 0)) with (Nat.of_uint (Nat.to_uint n)).
  rewrite DecimalNat.Unsigned.of_to. lia.
Qed.

Lemma pixels_not_empty n : pixels n <> EmptyString.
Proof.
  intros H. apply (f_equal chars) in H. unfold pixels in H. rewrite chars_append in H.
  destruct (numeral_head n) as (c & rest & Hhead & _). rewrite Hhead in H. discriminate.
Qed.

(** X23.  The icons of the social block are drawn between 24 and 48 pixels
    wide, whatever the [icon-size] attribute says; without the
    attribute, at 24; with a size of [n] pixels, at [n] brought into that
    interval. *)
Theorem displaySize_clamps :
  (forall prop, 24 <= displaySize prop /\ displaySize prop <= 48)
  /\ displaySize None = 24
  /\ forall n, displaySize (Some (pixels n)) = Z.max 24 (Z.min 48 (Z.of_nat n)).
Proof.
  split; [|split].
  - intros prop. unfold displaySize. lia.
  - reflexivity.
  - intros n. unfold displaySize, sizeNum, iconSize.
    rewrite (bool_decide_eq_false_2 _ (pixels_not_empty n)), parseInt_pixels.
    destruct (Z.of_nat n =? 0) eqn:E; [apply Z.eqb_eq in E; rewrite E|]; reflexivity.
Qed.

End SocialNodeFacts.
